(** * RDKit2Mol: the MolGPT model and its SMILES tokenizer

    A shallow embedding of the final draft of the notebook
    [model_hugf.ipynb]: the configuration, the descriptor encoder, the
    token and position embeddings, the causal transformer stack, the
    forward pass with its loss, greedy generation, and the regex
    tokenizer [SMILESTokenizerHF].

    Conventions.
    - Tensors carry their shape next to their data, as torch tensors do;
      a tensor is well formed when the data agrees with the shape.
    - Scalars are real numbers: the arithmetic of the model is the exact
      arithmetic of its formulas.  A value that torch reports as NaN
      because it is a quotient 0/0 is the scalar [NaN].
    - The modules run in evaluation mode ([self.eval()]), where
      [nn.Dropout] is the identity.
    - Python exceptions are the constructors of [error].  A NaN is no
      exception: the program goes on after it, and a call whose result is
      NaN has the outcome [NotANumber].
    - The methods of the tokenizer are the hooks that the class defines;
      [encode] is the method that the class inherits, which calls them. *)

From stdpp Require Import gmap strings list.
From Stdlib Require Import Ascii Reals Lra.

(* ===================================================================== *)
(** * Part I.  The tokenizer: definitions                                 *)
(* ===================================================================== *)

Module SMILESTokenizerHF.
Local Open Scope string_scope.

(** [self.tokens]: the fixed token set. *)
Definition tokens : list string :=
  ["#"; "%10"; "%11"; "%12"; "("; ")"; "-"; "1"; "2"; "3"; "4"; "5"; "6";
   "7"; "8"; "9"; "<"; "="; "B"; "Br"; "C"; "Cl"; "F"; "I"; "N"; "O"; "P";
   "S";
   "[B-]"; "[BH-]"; "[BH2-]"; "[BH3-]"; "[B]"; "[C+]"; "[C-]"; "[CH+]";
   "[CH-]"; "[CH2+]"; "[CH2]"; "[CH]"; "[F+]"; "[H]"; "[I+]"; "[IH2]";
   "[IH]"; "[N+]"; "[N-]";
   "[NH+]"; "[NH-]"; "[NH2+]"; "[NH3+]"; "[N]"; "[O+]"; "[O-]"; "[OH+]";
   "[O]"; "[P+]"; "[PH+]"; "[PH2+]"; "[PH]"; "[S+]"; "[S-]"; "[SH+]";
   "[SH]"; "[Se+]";
   "[SeH+]"; "[SeH]"; "[Se]"; "[Si-]"; "[SiH-]"; "[SiH2]"; "[SiH]";
   "[Si]"; "[b-]"; "[bH-]"; "[c+]"; "[c-]"; "[cH+]"; "[cH-]"; "[n+]";
   "[n-]"; "[nH+]"; "[nH]";
   "[o+]"; "[s+]"; "[sH+]"; "[se+]"; "[se]"; "b"; "c"; "n"; "o"; "p"; "s"].

(** [self.special_tokens_list]. *)
Definition special_tokens_list : list string :=
  ["<BOS>"; "<EOS>"; "<PAD>"; "<UNK>"].

(** [self.all_tokens = self.special_tokens_list + self.tokens]. *)
Definition all_tokens : list string :=
  (special_tokens_list ++ tokens)%list.

(** Python's [enumerate]. *)
Definition enumerate {A} (l : list A) : list (nat * A) :=
  zip (seq 0 (length l)) l.

(** A dictionary comprehension [{k: v for ...}] stores its pairs in order, a
    later pair replacing an earlier one with the same key. *)
Definition dict_store {K V} `{Countable K} (m : gmap K V) (ps : list (K * V))
  : gmap K V :=
  foldl (fun m p => <[p.1 := p.2]> m) m ps.

Definition dict_comprehension {K V} `{Countable K} (ps : list (K * V))
  : gmap K V :=
  dict_store ∅ ps.

(** [self.vocab = {token: idx for idx, token in enumerate(self.all_tokens)}]. *)
Definition vocab : gmap string nat :=
  dict_comprehension ((fun p => (p.2, p.1)) <$> enumerate all_tokens).

(** [self.ids_to_tokens = {idx: token for token, idx in self.vocab.items()}].
    The ids of [vocab] are pairwise distinct, so the order in which
    [items()] yields the pairs does not show in the result. *)
Definition ids_to_tokens : gmap nat string :=
  dict_comprehension ((fun p => (p.2, p.1)) <$> map_to_list vocab).

(** ** The pattern

    [r'%\d{2}|\[[^\]]+\]|Cl|Br|Si|Se|As|B|C|N|O|F|P|S|I|[cnospb]|[0-9]|\(|\)|=|#|-|\/|\\|\.|<']

    The pattern is one ordered alternation with nothing after it, so a match
    at a position is the match of the first alternative that matches there.
    A character is a code point below 256, on which [\d] is [[0-9]]. *)
Inductive alternative : Type :=
| Lit (l : string)              (* a literal: Cl, B, \(, \\, ... *)
| Cls (p : ascii -> bool)       (* one character of a class: [cnospb], [0-9] *)
| PercentDigits                 (* %\d{2} *)
| Bracket.                      (* \[[^\]]+\] *)

Definition is_digit (c : ascii) : bool :=
  (48 <=? nat_of_ascii c)%nat && (nat_of_ascii c <=? 57)%nat.

Definition is_aromatic (c : ascii) : bool :=
  existsb (Ascii.eqb c) ["c"; "n"; "o"; "s"; "p"; "b"]%char.

Definition pattern : list alternative :=
  [PercentDigits; Bracket;
   Lit "Cl"; Lit "Br"; Lit "Si"; Lit "Se"; Lit "As";
   Lit "B"; Lit "C"; Lit "N"; Lit "O"; Lit "F"; Lit "P"; Lit "S"; Lit "I";
   Cls is_aromatic; Cls is_digit;
   Lit "("; Lit ")"; Lit "="; Lit "#"; Lit "-"; Lit "/"; Lit "\"; Lit ".";
   Lit "<"].

(** The number of leading characters of [s] other than ']' (the greedy
    [[^\]]+]), and whether a ']' follows them. *)
Fixpoint bracket_body (s : string) : nat * bool :=
  match s with
  | EmptyString => (0, false)%nat
  | String c s' =>
      if Ascii.eqb c "]" then (0, true)%nat
      else let r := bracket_body s' in (S r.1, r.2)
  end.

(** The length of the match of one alternative at the start of [s]. *)
Definition match_alternative (a : alternative) (s : string) : option nat :=
  match a with
  | Lit l => if String.prefix l s then Some (String.length l) else None
  | Cls p =>
      match s with
      | String c _ => if p c then Some 1%nat else None
      | EmptyString => None
      end
  | PercentDigits =>
      match s with
      | String c0 s' =>
          if Ascii.eqb c0 "%" then
            match s' with
            | String c1 (String c2 _) =>
                if is_digit c1 && is_digit c2 then Some 3%nat else None
            | _ => None
            end
          else None
      | EmptyString => None
      end
  | Bracket =>
      match s with
      | String c0 s' =>
          if Ascii.eqb c0 "[" then
            let r := bracket_body s' in
            if r.2 && (0 <? r.1)%nat then Some (S (S r.1)) else None
          else None
      | EmptyString => None
      end
  end.

(** The match of an ordered alternation at the start of [s]. *)
Fixpoint match_here (alts : list alternative) (s : string) : option nat :=
  match alts with
  | [] => None
  | a :: alts' =>
      match match_alternative a s with
      | Some n => Some n
      | None => match_here alts' s
      end
  end.

Fixpoint string_take (n : nat) (s : string) : string :=
  match n, s with
  | S n', String c s' => String c (string_take n' s')
  | _, _ => EmptyString
  end.

(** [re.findall]: scan the text from left to right; where the pattern
    matches, emit the match and go on after it; where it does not, go on
    at the next character.  [inside] counts the characters of the current
    match that are still to be passed. *)
Fixpoint findall_scan (alts : list alternative) (inside : nat) (s : string)
  : list string :=
  match s with
  | EmptyString => []
  | String _ s' =>
      match inside with
      | S k => findall_scan alts k s'
      | O =>
          match match_here alts s with
          | Some (S n) => string_take (S n) s :: findall_scan alts n s'
          | _ => findall_scan alts 0 s'
          end
      end
  end.

Definition findall (alts : list alternative) (s : string) : list string :=
  findall_scan alts 0 s.

(** [_tokenize]. *)
Definition _tokenize (text : string) : list string := findall pattern text.

(** [_convert_token_to_id]: [self.vocab.get(token, self.vocab['<UNK>'])].
    The default is evaluated first; a missing key there is a [KeyError],
    here [None]. *)
Definition _convert_token_to_id (token : string) : option nat :=
  match vocab !! "<UNK>" with
  | Some unk => Some (default unk (vocab !! token))
  | None => None
  end.

(** [_convert_id_to_token]: [self.ids_to_tokens.get(index, '<UNK>')]. *)
Definition _convert_id_to_token (index : nat) : string :=
  default "<UNK>" (ids_to_tokens !! index).

(** [convert_tokens_to_string]:
    [''.join([t for t in tokens if t not in self.special_tokens_list])]. *)
Definition convert_tokens_to_string (toks : list string) : string :=
  String.concat "" (filter (fun t => t ∉ special_tokens_list) toks).

(** [build_inputs_with_special_tokens]:
    [[self.vocab['<BOS>']] + token_ids + [self.vocab['<EOS>']]]. *)
Definition build_inputs_with_special_tokens (token_ids : list nat)
  : option (list nat) :=
  match vocab !! "<BOS>", vocab !! "<EOS>" with
  | Some bos, Some eos => Some ([bos] ++ token_ids ++ [eos])%list
  | _, _ => None
  end.

(** ** The inherited [encode]

    The class defines no [encode]: [tokenizer.encode(text)] runs the method
    of [PreTrainedTokenizer], which reaches the class through its hooks. *)

(** What a call produces: a value or a Python exception. *)
Inductive call (A : Type) : Type :=
| Returns (a : A)
| KeyError
| TypeError.
Arguments Returns {A} a.
Arguments KeyError {A}.
Arguments TypeError {A}.

(** A call of the method [build_inputs_with_special_tokens] with the
    positional arguments [args] after [self].  The class defines the method
    with the one parameter [token_ids]; Python raises a TypeError, before
    the body runs, when a call has another number of arguments, and the
    body raises one when [token_ids] is [None], which no list can be added
    to. *)
Definition call_build_inputs_with_special_tokens
    (args : list (option (list nat))) : call (list nat) :=
  match args with
  | [Some token_ids] =>
      match build_inputs_with_special_tokens token_ids with
      | Some ids => Returns ids
      | None => KeyError
      end
  | _ => TypeError
  end.

(** [encode], inherited: the text is tokenized, the tokens are converted to
    ids, and the hook is called with the ids of the text and the ids of the
    second text of a pair, [None] when there is one text only:
    [self.build_inputs_with_special_tokens(ids, pair_ids)]. *)
Definition encode (text : string) : call (list nat) :=
  match mapM _convert_token_to_id (_tokenize text) with
  | Some ids => call_build_inputs_with_special_tokens [Some ids; None]
  | None => KeyError
  end.

(** The next character cannot extend [C], [B] or [S] to a longer literal. *)
Definition no_clash (r : string) : Prop :=
  match r with
  | String c _ => (c <> "l" /\ c <> "r" /\ c <> "i" /\ c <> "e")%char
  | EmptyString => True
  end.

Definition head_ok (t : string) : bool :=
  match t with
  | String c _ => negb (existsb (Ascii.eqb c) ["l"; "r"; "i"; "e"]%char)
  | EmptyString => false
  end.

End SMILESTokenizerHF.

(* ===================================================================== *)
(** * Part II.  The model: definitions                                    *)
(* ===================================================================== *)

Module MolGPT.

(** ** Results, scalars and tensors *)

Inductive error : Type :=
| AssertionError (msg : string)
| IndexError
| RuntimeError
| ValueError.

(** What a call produces: a value, a Python exception, or [NotANumber]
    when the values it returns are NaN; the model does not follow NaN
    values through the transformer stack. *)
Inductive outcome (A : Type) : Type :=
| Ok (a : A)
| NotANumber
| Raise (e : error).
Arguments Ok {A} a.
Arguments NotANumber {A}.
Arguments Raise {A} e.

#[export] Instance outcome_ret : MRet outcome := @Ok.
#[export] Instance outcome_bind : MBind outcome := fun A B f m =>
  match m with
  | Ok a => f a
  | NotANumber => NotANumber
  | Raise e => Raise e
  end.

(** A scalar that may be NaN, and a mask entry that may be [float('-inf')]. *)
Inductive scalar : Type := Real (r : R) | NaN.
Inductive ereal : Type := Fin (r : R) | NegInf.

Abbreviation vec := (list R).

Record Tensor2 (A : Type) : Type := T2 {
  t2_size0 : nat;
  t2_size1 : nat;
  t2_data : list (list A)
}.
Arguments T2 {A} _ _ _.
Arguments t2_size0 {A} _.
Arguments t2_size1 {A} _.
Arguments t2_data {A} _.

Record Tensor3 (A : Type) : Type := T3 {
  t3_size0 : nat;
  t3_size1 : nat;
  t3_size2 : nat;
  t3_data : list (list (list A))
}.
Arguments T3 {A} _ _ _ _.
Arguments t3_size0 {A} _.
Arguments t3_size1 {A} _.
Arguments t3_size2 {A} _.
Arguments t3_data {A} _.

(** The data of a tensor agrees with its shape. *)
Definition wf2 {A} (t : Tensor2 A) : Prop :=
  length (t2_data t) = t2_size0 t /\
  Forall (fun row => length row = t2_size1 t) (t2_data t).

Definition wf3 {A} (t : Tensor3 A) : Prop :=
  length (t3_data t) = t3_size0 t /\
  Forall (fun m => length m = t3_size1 t /\
                   Forall (fun row => length row = t3_size2 t) m) (t3_data t).

(** [torch.arange(n)] and its [unsqueeze(0).expand(B, n)]. *)
Definition arange (n : nat) : list Z := Z.of_nat <$> seq 0 n.
Definition expand_rows {A} (B n : nat) (row : list A) : Tensor2 A :=
  T2 B n (replicate B row).

(** [torch.cat([a, b], dim=1)]. *)
Definition cat1_3 {A} (a b : Tensor3 A) : outcome (Tensor3 A) :=
  if decide (t3_size0 a = t3_size0 b /\ t3_size2 a = t3_size2 b)
  then Ok (T3 (t3_size0 a) (t3_size1 a + t3_size1 b) (t3_size2 a)
              (zip_with app (t3_data a) (t3_data b)))
  else Raise RuntimeError.

Definition cat1_2 {A} (a b : Tensor2 A) : outcome (Tensor2 A) :=
  if decide (t2_size0 a = t2_size0 b)
  then Ok (T2 (t2_size0 a) (t2_size1 a + t2_size1 b)
              (zip_with app (t2_data a) (t2_data b)))
  else Raise RuntimeError.

(** ** Real vectors *)

Definition Rsum (l : list R) : R := foldr Rplus 0%R l.
Definition dot (u v : vec) : R := Rsum (zip_with Rmult u v).
Definition vadd (u v : vec) : vec := zip_with Rplus u v.
Definition relu (x : R) : R := Rmax 0 x.

(** ** Configuration *)

Record MolGPTConfig : Type := {
  vocab_size : nat;
  embedding_dim : nat;
  padding_idx : Z;
  n_heads : nat;
  feedforward_dim : nat;
  n_layers : nat;
  desc_size : nat;
  max_position_embeddings : nat;
  hidden_dropout_prob : R
}.

(** [MolGPTConfig()] with the defaults of [__init__]. *)
Definition MolGPTConfig_default : MolGPTConfig := {|
  vocab_size := 100;
  embedding_dim := 256;
  padding_idx := 0;
  n_heads := 8;
  feedforward_dim := 512;
  n_layers := 6;
  desc_size := 166;
  max_position_embeddings := 512;
  hidden_dropout_prob := 1 / 10
|}.

(** ** Framework layers *)

(** [nn.Dropout] in evaluation mode. *)
Definition dropout {A} (x : A) : A := x.

(** [nn.Embedding(num_embeddings, embedding_dim)]. *)
Record Embedding : Type := {
  num_embeddings : nat;
  emb_dim : nat;
  emb_weight : list vec
}.

Definition wf_Embedding (e : Embedding) : Prop :=
  length (emb_weight e) = num_embeddings e /\
  Forall (fun row => length row = emb_dim e) (emb_weight e).

Definition Embedding_lookup (e : Embedding) (i : Z) : outcome vec :=
  match (if (0 <=? i)%Z then emb_weight e !! Z.to_nat i else None) with
  | Some v => Ok v
  | None => Raise IndexError
  end.

Definition Embedding_forward (e : Embedding) (idx : Tensor2 Z)
  : outcome (Tensor3 R) :=
  d ← mapM (mapM (Embedding_lookup e)) (t2_data idx);
  Ok (T3 (t2_size0 idx) (t2_size1 idx) (emb_dim e) d).

(** [nn.Linear(in_features, out_features)]: [x W^T + b]. *)
Record Linear : Type := {
  out_features : nat;
  lin_weight : list vec;
  lin_bias : vec
}.

Definition wf_Linear (l : Linear) : Prop :=
  length (lin_weight l) = out_features l /\
  length (lin_bias l) = out_features l.

Definition Linear_forward (l : Linear) (x : vec) : vec :=
  zip_with Rplus ((fun w => dot x w) <$> lin_weight l) (lin_bias l).

(** [nn.LayerNorm(d)] over the last dimension, with the biased variance. *)
Record LayerNorm : Type := {
  ln_weight : vec;
  ln_bias : vec;
  ln_eps : R
}.

Definition LayerNorm_forward (ln : LayerNorm) (x : vec) : vec :=
  let n := INR (length x) in
  let mu := (Rsum x / n)%R in
  let var := (Rsum ((fun a => (a - mu) * (a - mu))%R <$> x) / n)%R in
  let xhat := (fun a => ((a - mu) / sqrt (var + ln_eps ln))%R) <$> x in
  zip_with Rplus (zip_with Rmult xhat (ln_weight ln)) (ln_bias ln).

(** ** Descriptor encoder *)

Record DescriptorEncoder : Type := {
  de_desc_size : nat;
  bit_emb : Embedding
}.

(** [desc.mean(dim=-1)]: the mean of no entry is 0/0. *)
Definition mean (xs : vec) : scalar :=
  match xs with
  | [] => NaN
  | _ => Real (Rsum xs / INR (length xs))
  end.

(** [desc.std(dim=-1)]: the sample standard deviation, with Bessel's
    correction; on fewer than two entries it is 0/0. *)
Definition std (xs : vec) : scalar :=
  match mean xs with
  | Real m =>
      if decide (length xs <= 1) then NaN
      else Real (sqrt (Rsum ((fun x => (x - m) * (x - m))%R <$> xs)
                       / INR (length xs - 1)))
  | NaN => NaN
  end.

(** [(desc - desc.mean(...)) / (desc.std(...) + 1e-6)] on one row. *)
Definition desc_norm (xs : vec) : list scalar :=
  match mean xs, std xs with
  | Real m, Real s => (fun x => Real ((x - m) / (s + 1 / 1000000))) <$> xs
  | _, _ => (fun _ => NaN) <$> xs
  end.

Definition scale (v : scalar) (r : R) : scalar :=
  match v with
  | Real x => Real (r * x)
  | NaN => NaN
  end.

(** [DescriptorEncoder.forward]. *)
Definition DescriptorEncoder_forward (self : DescriptorEncoder)
    (desc : Tensor2 R) : outcome (Tensor3 scalar) :=
  let B := t2_size0 desc in
  let D := t2_size1 desc in
  if decide (D = de_desc_size self) then
    let bit_idx := expand_rows B D (arange D) in
    bit ← Embedding_forward (bit_emb self) bit_idx;
    let val := desc_norm <$> t2_data desc in
    let emb := dropout
      (zip_with (zip_with (fun b v => scale v <$> b)) (t3_data bit) val) in
    Ok (T3 B D (t3_size2 bit) emb)
  else Raise (AssertionError
                "Input descriptor dim must match initialized size").

(** ** Token and position embeddings *)

Record MolGPTEmbeddings : Type := {
  token_embeddings : Embedding;
  position_embeddings : Embedding
}.

Definition MolGPTEmbeddings_forward (self : MolGPTEmbeddings)
    (input_ids : Tensor2 Z) : outcome (Tensor3 R) :=
  let seq_length := t2_size1 input_ids in
  let position_ids :=
    expand_rows (t2_size0 input_ids) seq_length (arange seq_length) in
  tok ← Embedding_forward (token_embeddings self) input_ids;
  pos ← Embedding_forward (position_embeddings self) position_ids;
  Ok (T3 (t3_size0 tok) (t3_size1 tok) (t3_size2 tok)
         (dropout (zip_with (zip_with vadd) (t3_data tok) (t3_data pos)))).

(** ** Causal mask *)

Definition full {A} (r c : nat) (v : A) : list (list A) :=
  replicate r (replicate c v).

(** [torch.triu(m, diagonal)]: the entries on and above the given diagonal
    are kept, the others are 0. *)
Definition triu (m : list (list ereal)) (diagonal : nat) : list (list ereal) :=
  imap (fun i row =>
          imap (fun j x => if decide (i + diagonal <= j) then x else Fin 0) row)
       m.

(** [generate_causal_mask]. *)
Definition generate_causal_mask (seq_len : nat) : list (list ereal) :=
  triu (full seq_len seq_len NegInf) 1.

(** ** Transformer stack *)

Definition eadd (s : R) (m : ereal) : ereal :=
  match m with
  | Fin r => Fin (s + r)
  | NegInf => NegInf
  end.

Definition eexp (e : ereal) : R :=
  match e with
  | Fin r => exp r
  | NegInf => 0
  end.

(** [softmax] of a masked score row. *)
Definition softmax_masked (es : list ereal) : vec :=
  let z := Rsum (eexp <$> es) in
  (fun e => (eexp e / z)%R) <$> es.

(** One head at one query position: scaled scores against every key, the
    mask row added, softmax, and the weighted sum of the values. *)
Definition attend (head_dim : nat) (q : vec) (ks vs : list vec)
    (mask_row : list ereal) : vec :=
  let scores := (fun k => (dot q k / sqrt (INR head_dim))%R) <$> ks in
  let w := softmax_masked (zip_with eadd scores mask_row) in
  (fun c => Rsum (zip_with (fun wj v => (wj * nth c v 0)%R) w vs))
    <$> seq 0 head_dim.

(** [nn.MultiheadAttention(embed_dim, num_heads, batch_first=True)] as
    self-attention on one example. *)
Record MultiheadAttention : Type := {
  embed_dim : nat;
  num_heads : nat;
  in_proj : Linear;
  out_proj : Linear
}.

Definition slice {A} (from len : nat) (l : list A) : list A :=
  take len (drop from l).

Definition MultiheadAttention_forward (self : MultiheadAttention)
    (x : list vec) (attn_mask : list (list ereal)) : list vec :=
  let E := embed_dim self in
  let head_dim := E / num_heads self in
  let qkv := Linear_forward (in_proj self) <$> x in
  let q := slice 0 E <$> qkv in
  let k := slice E E <$> qkv in
  let v := slice (2 * E) E <$> qkv in
  let head h l := slice (h * head_dim) head_dim <$> l in
  zip_with
    (fun qi mask_row =>
       Linear_forward (out_proj self)
         (concat ((fun h => attend head_dim (slice (h * head_dim) head_dim qi)
                              (head h k) (head h v) mask_row)
                  <$> seq 0 (num_heads self))))
    q attn_mask.

(** [nn.TransformerEncoderLayer] with its defaults: ReLU, norm after the
    residual sum. *)
Record TransformerEncoderLayer : Type := {
  self_attn : MultiheadAttention;
  linear1 : Linear;
  linear2 : Linear;
  norm1 : LayerNorm;
  norm2 : LayerNorm
}.

Definition feed_forward (self : TransformerEncoderLayer) (x : vec) : vec :=
  Linear_forward (linear2 self)
    (dropout (relu <$> Linear_forward (linear1 self) x)).

Definition TransformerEncoderLayer_forward (self : TransformerEncoderLayer)
    (x : list vec) (mask : list (list ereal)) : list vec :=
  let sa := dropout (MultiheadAttention_forward (self_attn self) x mask) in
  let x1 := zip_with (fun xi ai => LayerNorm_forward (norm1 self) (vadd xi ai))
                     x sa in
  (fun xi => LayerNorm_forward (norm2 self)
               (vadd xi (dropout (feed_forward self xi)))) <$> x1.

(** [MolGPTTransformer]: [self.encoder], the list of its layers. *)
Record MolGPTTransformer : Type := {
  encoder : list TransformerEncoderLayer
}.

Definition MolGPTTransformer_forward (self : MolGPTTransformer)
    (x : Tensor3 R) (attn_mask : list (list ereal)) : Tensor3 R :=
  T3 (t3_size0 x) (t3_size1 x) (t3_size2 x)
     ((fun ex => foldl (fun h layer =>
                          TransformerEncoderLayer_forward layer h attn_mask)
                       ex (encoder self))
      <$> t3_data x).

(** ** Loss *)

(** [nn.CrossEntropyLoss(ignore_index=...)] with the mean reduction, on an
    input of N rows of scores and a target of N class indices: the sum of
    the terms [-log softmax(row)[y]] of the rows whose target is not
    [ignore_index], divided by the number of those rows. *)
Definition nll_term (ignore_index : Z) (p : vec * Z) : outcome (R * nat) :=
  let '(row, y) := p in
  if decide (y = ignore_index) then Ok (0%R, 0)
  else
    match (if (0 <=? y)%Z then row !! Z.to_nat y else None) with
    | Some zy => Ok ((ln (Rsum (exp <$> row)) - zy)%R, 1)
    | None => Raise IndexError
    end.

Definition CrossEntropyLoss (ignore_index : Z) (input : list vec)
    (target : list Z) : outcome scalar :=
  if decide (length input = length target) then
    terms ← mapM (nll_term ignore_index) (zip input target);
    let total := Rsum (fst <$> terms) in
    let count := sum_list (snd <$> terms) in
    Ok (if decide (count = 0) then NaN else Real (total / INR count))
  else Raise ValueError.

(** ** The model *)

Record MolGPTModel : Type := {
  config : MolGPTConfig;
  embeddings : MolGPTEmbeddings;
  descriptor_encoder : DescriptorEncoder;
  transformer : MolGPTTransformer;
  lm_head : Linear
}.

(** The shapes that [__init__] gives the tables and the output head;
    [nn.MultiheadAttention] refuses an embedding width that is not positive. *)
Definition wf_model (self : MolGPTModel) : Prop :=
  let c := config self in
  let tok := token_embeddings (embeddings self) in
  let pos := position_embeddings (embeddings self) in
  let enc := descriptor_encoder self in
  (wf_Embedding tok /\ num_embeddings tok = vocab_size c /\
   emb_dim tok = embedding_dim c) /\
  (wf_Embedding pos /\ num_embeddings pos = max_position_embeddings c /\
   emb_dim pos = embedding_dim c) /\
  (wf_Embedding (bit_emb enc) /\ num_embeddings (bit_emb enc) = desc_size c /\
   emb_dim (bit_emb enc) = embedding_dim c /\ de_desc_size enc = desc_size c) /\
  (wf_Linear (lm_head self) /\ out_features (lm_head self) = vocab_size c) /\
  length (encoder (transformer self)) = n_layers c /\
  0 < embedding_dim c.

Record CausalLMOutput : Type := {
  loss : option scalar;
  logits : Tensor3 R
}.

(** The entries of a tensor as real numbers, when none of them is NaN. *)
Definition real_entry (s : scalar) : outcome R :=
  match s with
  | Real r => Ok r
  | NaN => NotANumber
  end.

Definition real_entries (t : Tensor3 scalar) : outcome (Tensor3 R) :=
  d ← mapM (mapM (mapM real_entry)) (t3_data t);
  Ok (T3 (t3_size0 t) (t3_size1 t) (t3_size2 t) d).

(** The real part of a tensor: its entries, with 0 in the place of NaN. *)
Definition real_part (s : scalar) : R :=
  match s with
  | Real r => r
  | NaN => 0%R
  end.

Definition real_parts (t : Tensor3 scalar) : Tensor3 R :=
  T3 (t3_size0 t) (t3_size1 t) (t3_size2 t)
     ((fun ex : list (list scalar) =>
         (fun row : list scalar => real_part <$> row) <$> ex) <$> t3_data t).

(** [t.view(-1, t.size(-1))] for the slice [t = logits[:, D:, :]] of the
    contiguous tensor [logits]: the rows of [t], one example after the
    other.  The slice keeps the strides of [logits], so its first two
    dimensions can be merged without a copy only when it has at most one
    example or at most one position, or when nothing is dropped ([D = 0]);
    otherwise [view] raises a RuntimeError.  It also raises one when the
    last dimension is 0, where the size that [-1] stands for is
    ambiguous. *)
Definition view_rows (D : nat) (t : Tensor3 R) : outcome (list vec) :=
  if decide (t3_size2 t = 0) then Raise RuntimeError
  else if decide (2 <= t3_size0 t /\ 2 <= t3_size1 t /\ D <> 0)
       then Raise RuntimeError
       else Ok (concat (t3_data t)).

(** [MolGPTModel.forward].

    The descriptor embedding may hold NaN.  A NaN does not stop the
    program: the later steps run, raise what they raise, and what is then
    returned is NaN.  The model runs the later steps on the real part of the
    embedding, so that they raise as the program does, and reports a result
    that comes from an embedding with a NaN as [NotANumber].  The input
    tensors are contiguous, as tensors are when they are created. *)
Definition forward (self : MolGPTModel) (input_ids : Tensor2 Z)
    (descriptors : Tensor2 R) (labels : option (Tensor2 Z))
  : outcome CausalLMOutput :=
  token_emb ← MolGPTEmbeddings_forward (embeddings self) input_ids;
  desc_emb ← DescriptorEncoder_forward (descriptor_encoder self) descriptors;
  x ← cat1_3 (real_parts desc_emb) token_emb;
  let attn_mask := generate_causal_mask (t3_size1 x) in
  let x := MolGPTTransformer_forward (transformer self) x attn_mask in
  let logits_all :=
    T3 (t3_size0 x) (t3_size1 x) (out_features (lm_head self))
       ((fun ex : list vec => Linear_forward (lm_head self) <$> ex)
        <$> t3_data x) in
  let token_logits :=
    T3 (t3_size0 logits_all) (t3_size1 logits_all - t3_size1 desc_emb)
       (t3_size2 logits_all) (drop (t3_size1 desc_emb) <$> t3_data logits_all) in
  output ←
    match labels with
    | Some labels =>
        input ← view_rows (t3_size1 desc_emb) token_logits;
        l ← CrossEntropyLoss (padding_idx (config self))
              input (concat (t2_data labels));
        Ok {| loss := Some l; logits := token_logits |}
    | None => Ok {| loss := None; logits := token_logits |}
    end;
  _ ← real_entries desc_emb;
  Ok output.

(** ** Greedy generation *)

(** [torch.argmax]: the index of the first maximal entry. *)
Fixpoint argmax_from (best_i : nat) (best : R) (i : nat) (l : vec) : nat :=
  match l with
  | [] => best_i
  | x :: l' =>
      if Rlt_dec best x then argmax_from i x (S i) l'
      else argmax_from best_i best (S i) l'
  end.

Definition argmax (l : vec) : nat :=
  match l with
  | [] => 0
  | x :: l' => argmax_from 0 x 1 l'
  end.

(** [outputs = self.forward(generated, descriptors)] and
    [torch.argmax(outputs.logits[:, -1, :], dim=-1).unsqueeze(1)].  When the
    logits are NaN, they are so at every entry, and the index of the first
    maximal entry of a row of NaN is 0. *)
Definition next_token (self : MolGPTModel) (generated : Tensor2 Z)
    (descriptors : Tensor2 R) : outcome (Tensor2 Z) :=
  match forward self generated descriptors None with
  | Ok outputs =>
      let lg := logits outputs in
      if decide (t3_size1 lg = 0) then Raise IndexError
      else if decide (t3_size2 lg = 0) then Raise RuntimeError
      else
        Ok (T2 (t3_size0 lg) 1
               ((fun ex => [Z.of_nat (argmax (default [] (last ex)))])
                <$> t3_data lg))
  | NotANumber =>
      if decide (t2_size1 generated = 0) then Raise IndexError
      else if decide (out_features (lm_head self) = 0) then Raise RuntimeError
      else
        Ok (T2 (t2_size0 generated) 1
               (replicate (t2_size0 generated) [0%Z]))
  | Raise e => Raise e
  end.

(** [(next_token == self.config.padding_idx).all()]. *)
Definition all_padding (self : MolGPTModel) (next : Tensor2 Z) : bool :=
  forallb (forallb (Z.eqb (padding_idx (config self)))) (t2_data next).

(** The loop of [generate], [n] iterations left. *)
Fixpoint generate_loop (self : MolGPTModel) (descriptors : Tensor2 R)
    (n : nat) (generated : Tensor2 Z) : outcome (Tensor2 Z) :=
  match n with
  | O => Ok generated
  | S n' =>
      next ← next_token self generated descriptors;
      generated' ← cat1_2 generated next;
      if all_padding self next then Ok generated'
      else generate_loop self descriptors n' generated'
  end.

(** [MolGPTModel.generate]; [range(max_length)] is empty for a negative
    [max_length]. *)
Definition generate (self : MolGPTModel) (input_ids : Tensor2 Z)
    (descriptors : Tensor2 R) (max_length : Z) : outcome (Tensor2 Z) :=
  generate_loop self descriptors (Z.to_nat max_length) input_ids.

End MolGPT.

(* ===================================================================== *)
(** * Part II-b.  Inputs, runs and a small model                          *)
(* ===================================================================== *)

Module Runs.
Import MolGPT.

(** The token ids of a batch are indices of the vocabulary. *)
Definition valid_ids (self : MolGPTModel) (input_ids : Tensor2 Z) : Prop :=
  Forall (Forall (fun i => (0 <= i < Z.of_nat (vocab_size (config self)))%Z))
         (t2_data input_ids).

(** The inputs on which [forward] returns real logits: tensors of matching
    batch size, descriptors of the configured size, token ids of the
    vocabulary, no more positions than the position table has, and, for the
    sample standard deviation to exist, not a single descriptor entry. *)
Definition forward_ready (self : MolGPTModel) (input_ids : Tensor2 Z)
    (descriptors : Tensor2 R) : Prop :=
  wf2 input_ids /\ wf2 descriptors /\
  t2_size0 input_ids = t2_size0 descriptors /\
  t2_size1 descriptors = desc_size (config self) /\
  valid_ids self input_ids /\
  (t2_size0 input_ids = 0 \/
   t2_size1 input_ids <= max_position_embeddings (config self)) /\
  (t2_size0 input_ids = 0 \/ desc_size (config self) <> 1).

(** The inputs on which [generate] runs [n] iterations without exception. *)
Definition generate_ready (self : MolGPTModel) (input_ids : Tensor2 Z)
    (descriptors : Tensor2 R) (n : nat) : Prop :=
  wf2 input_ids /\ wf2 descriptors /\
  t2_size0 input_ids = t2_size0 descriptors /\
  t2_size1 descriptors = desc_size (config self) /\
  valid_ids self input_ids /\
  (t2_size0 input_ids = 0 \/ desc_size (config self) <> 1) /\
  0 < vocab_size (config self) /\
  1 <= t2_size1 input_ids /\
  t2_size1 input_ids + n <= S (max_position_embeddings (config self)).

(** The labels that the loss accepts for a batch: one label for each token
    position, the padding index or a class index. *)
Definition labels_ready (self : MolGPTModel) (input_ids labels : Tensor2 Z)
  : Prop :=
  wf2 labels /\ t2_size0 labels = t2_size0 input_ids /\
  t2_size1 labels = t2_size1 input_ids /\
  Forall (Forall (fun y => y = padding_idx (config self) \/
                           (0 <= y < Z.of_nat (vocab_size (config self)))%Z))
         (t2_data labels).

(** Two sequences of the same length with the same first [n] entries: the
    positions below [n] are the ones an observer of position [n - 1] may
    depend on. *)
Definition agree_upto {A} (n : nat) (x y : list A) : Prop :=
  length x = length y /\ take n x = take n y.

(** A scalar that is a real number. *)
Definition is_real (s : scalar) : Prop := exists r, s = Real r.

(** The logits of one example: the stack under the mask of [L] positions,
    the output head, and the descriptor segment of [D] positions dropped. *)
Definition example_logits (self : MolGPTModel) (L D : nat) (x : list vec)
  : list vec :=
  drop D (Linear_forward (lm_head self) <$>
          foldl (fun h layer =>
                   TransformerEncoderLayer_forward layer h
                     (generate_causal_mask L))
                x (encoder (transformer self))).

(** The token logits of [forward] from the two embedded segments. *)
Definition logits_of (self : MolGPTModel) (desc_emb token_emb : Tensor3 R)
  : Tensor3 R :=
  T3 (t3_size0 desc_emb)
     (t3_size1 desc_emb + t3_size1 token_emb - t3_size1 desc_emb)
     (out_features (lm_head self))
     (example_logits self (t3_size1 desc_emb + t3_size1 token_emb)
                     (t3_size1 desc_emb)
      <$> zip_with app (t3_data desc_emb) (t3_data token_emb)).

(** The result of [forward] from the two embedded segments. *)
Definition forward_result (self : MolGPTModel) (dr tok : Tensor3 R)
    (labels : option (Tensor2 Z)) : outcome CausalLMOutput :=
  match labels with
  | Some labels =>
      input ← view_rows (t3_size1 dr) (logits_of self dr tok);
      l ← CrossEntropyLoss (padding_idx (config self))
            input (concat (t2_data labels));
      Ok {| loss := Some l; logits := logits_of self dr tok |}
  | None => Ok {| loss := None; logits := logits_of self dr tok |}
  end.

(** The inputs that [forward] accepts without an exception: tensors of
    matching batch size, descriptors of the configured size, token ids of
    the vocabulary and no more positions than the position table has. *)
Definition shapes_ready (self : MolGPTModel) (input_ids : Tensor2 Z)
    (descriptors : Tensor2 R) : Prop :=
  t2_size0 input_ids = t2_size0 descriptors /\
  t2_size1 descriptors = desc_size (config self) /\
  valid_ids self input_ids /\
  (t2_size0 input_ids = 0 \/
   t2_size1 input_ids <= max_position_embeddings (config self)).

(** The batches whose token logits [view] can flatten: at most one example
    or at most one token position, or a model without descriptors. *)
Definition view_ready (self : MolGPTModel) (input_ids : Tensor2 Z) : Prop :=
  0 < vocab_size (config self) /\
  (t2_size0 input_ids <= 1 \/ t2_size1 input_ids <= 1 \/
   desc_size (config self) = 0).

(** The row of logits of example [b] at token position [i]. *)
Definition logits_at (out : CausalLMOutput) (b i : nat) : option vec :=
  t3_data (logits out) !! b ≫= fun ex => ex !! i.

(** The cross-entropy term of one row of scores and its class index. *)
Definition ce_term (p : vec * Z) : R :=
  (ln (Rsum (exp <$> p.1)) - nth (Z.to_nat p.2) p.1 0)%R.

(** The term and the weight that one row contributes to the loss. *)
Definition nll_pair (pad : Z) (p : vec * Z) : R * nat :=
  if decide (p.2 = pad) then (0%R, 0) else (ce_term p, 1).

(** The average cross-entropy over the positions whose label is not the
    padding index; NaN when there is no such position. *)
Definition masked_mean_ce (pad : Z) (rows : list vec) (labels : list Z)
  : scalar :=
  let kept := filter (fun p => p.2 <> pad) (zip rows labels) in
  match kept with
  | [] => NaN
  | _ => Real (Rsum (ce_term <$> kept) / INR (length kept))
  end.

(** One iteration of the loop of [generate] after the other: from the
    sequence [g], the columns [cols] are appended one by one, each the
    [next_token] of the sequence before it, and [out] is reached. *)
Inductive greedy_steps (self : MolGPTModel) (descriptors : Tensor2 R)
  : Tensor2 Z -> list (Tensor2 Z) -> Tensor2 Z -> Prop :=
| greedy_done g : greedy_steps self descriptors g [] g
| greedy_step g next g' cols out :
    next_token self g descriptors = Ok next ->
    cat1_2 g next = Ok g' ->
    greedy_steps self descriptors g' cols out ->
    greedy_steps self descriptors g (next :: cols) out.

(** The entries that the columns [cols] append to example [b]. *)
Definition appended (cols : list (Tensor2 Z)) (b : nat) : list Z :=
  concat ((fun c => default [] (t2_data c !! b)) <$> cols).

(** ** A small model *)

Definition tiny_config : MolGPTConfig := {|
  vocab_size := 3; embedding_dim := 2; padding_idx := 0; n_heads := 1;
  feedforward_dim := 2; n_layers := 1; desc_size := 2;
  max_position_embeddings := 4; hidden_dropout_prob := 1 / 10
|}.

Definition tiny_encoder : DescriptorEncoder := {|
  de_desc_size := 2;
  bit_emb := {| num_embeddings := 2; emb_dim := 2;
                emb_weight := [[1; 0]; [0; 1]]%R |}
|}.

Definition tiny_layer : TransformerEncoderLayer := {|
  self_attn := {|
    embed_dim := 2; num_heads := 1;
    in_proj := {| out_features := 6;
                  lin_weight := [[1; 0]; [0; 1]; [1; 1]; [0; 1]; [1; 0]; [1; 1]]%R;
                  lin_bias := [0; 0; 0; 0; 0; 0]%R |};
    out_proj := {| out_features := 2;
                   lin_weight := [[1; 0]; [0; 1]]%R;
                   lin_bias := [0; 0]%R |}
  |};
  linear1 := {| out_features := 2; lin_weight := [[1; 1]; [1; 0]]%R;
                lin_bias := [0; 1]%R |};
  linear2 := {| out_features := 2; lin_weight := [[0; 1]; [1; 1]]%R;
                lin_bias := [1; 0]%R |};
  norm1 := {| ln_weight := [1; 1]%R; ln_bias := [0; 0]%R;
              ln_eps := (1 / 100000)%R |};
  norm2 := {| ln_weight := [1; 1]%R; ln_bias := [0; 0]%R;
              ln_eps := (1 / 100000)%R |}
|}.

Definition tiny_model : MolGPTModel := {|
  config := tiny_config;
  embeddings := {|
    token_embeddings := {| num_embeddings := 3; emb_dim := 2;
                           emb_weight := [[0; 1]; [1; 0]; [1; 1]]%R |};
    position_embeddings := {| num_embeddings := 4; emb_dim := 2;
                              emb_weight := [[0; 0]; [1; 0]; [0; 1]; [1; 1]]%R |}
  |};
  descriptor_encoder := tiny_encoder;
  transformer := {| encoder := [tiny_layer] |};
  lm_head := {| out_features := 3;
                lin_weight := [[1; 0]; [0; 1]; [1; 1]]%R;
                lin_bias := [0; 0; 0]%R |}
|}.

Definition tiny_desc : Tensor2 R := T2 1 2 [[1; 3]]%R.
Definition tiny_ids : Tensor2 Z := T2 1 3 [[1; 2; 1]]%Z.
Definition tiny_ids' : Tensor2 Z := T2 1 3 [[1; 2; 2]]%Z.
Definition tiny_pad_labels : Tensor2 Z := T2 1 3 [[0; 0; 0]]%Z.
Definition tiny_labels : Tensor2 Z := T2 1 3 [[2; 1; 0]]%Z.

End Runs.

(* ===================================================================== *)
(** * Part II-c.  The earlier drafts of the notebook                      *)
(* ===================================================================== *)

Module Drafts.
Import MolGPT.

(** [torch.triu] on a matrix of reals. *)
Definition triu_R (m : list (list R)) (diagonal : nat) : list (list R) :=
  imap (fun i row =>
          imap (fun j x => if decide (i + diagonal <= j) then x else 0%R) row)
       m.

(** [mask.masked_fill(mask == 1, float('-inf'))]. *)
Definition masked_fill_ones (mask : list (list R)) : list (list ereal) :=
  (fun row : list R =>
     (fun x => if Req_dec_T x 1 then NegInf else Fin x) <$> row) <$> mask.

(** [generate_causal_mask] of the first draft:
    [mask = torch.triu(torch.ones(seq_len, seq_len), diagonal=1)],
    [mask.masked_fill(mask == 1, float('-inf'))]. *)
Definition generate_causal_mask_draft1 (seq_len : nat) : list (list ereal) :=
  masked_fill_ones (triu_R (full seq_len seq_len 1%R) 1).

(** [generate_causal_mask] of the second draft:
    [torch.triu(torch.ones(seq_len, seq_len), diagonal=1).bool()]; a number
    is converted to [True] when it is not 0. *)
Definition generate_causal_mask_draft2 (seq_len : nat) : list (list bool) :=
  (fun row : list R =>
     (fun x => if Req_dec_T x 0 then false else true) <$> row)
    <$> triu_R (full seq_len seq_len 1%R) 1.

(** The additive mask that a boolean attention mask stands for: [True]
    marks a position that may not be attended to. *)
Definition additive_mask (mask : list (list bool)) : list (list ereal) :=
  (fun row : list bool =>
     (fun b : bool => if b then NegInf else Fin 0) <$> row) <$> mask.

(** The descriptor encoder of the first draft, with
    [self.scale_norm = nn.LayerNorm(1)]. *)
Record DescriptorEncoder1 : Type := {
  de1_desc_size : nat;
  de1_bit_emb : Embedding;
  scale_norm : LayerNorm
}.

(** [DescriptorEncoder.forward] of the first draft:
    [val = self.scale_norm(desc.unsqueeze(-1))] normalizes every entry as a
    vector of one element, and [bit * val] multiplies the embedding of a
    position by the single element of its [val]. *)
Definition DescriptorEncoder1_forward (self : DescriptorEncoder1)
    (desc : Tensor2 R) : outcome (Tensor3 R) :=
  let B := t2_size0 desc in
  let D := t2_size1 desc in
  if decide (D = de1_desc_size self) then
    let bit_idx := expand_rows B D (arange D) in
    bit ← Embedding_forward (de1_bit_emb self) bit_idx;
    let val := (fun row : list R =>
                  (fun x => LayerNorm_forward (scale_norm self) [x]) <$> row)
               <$> t2_data desc in
    let emb := dropout
      (zip_with (zip_with (fun b v => (fun r => (r * nth 0 v 0)%R) <$> b))
                (t3_data bit) val) in
    Ok (T3 B D (t3_size2 bit) emb)
  else Raise (AssertionError
                "Input descriptor dim must match initialized size").

End Drafts.

Module Samples.
Import MolGPT Runs Drafts.

(** The small model with a single descriptor. *)
Definition single_descriptor_model : MolGPTModel := {|
  config := {|
    vocab_size := 3; embedding_dim := 2; padding_idx := 0; n_heads := 1;
    feedforward_dim := 2; n_layers := 1; desc_size := 1;
    max_position_embeddings := 4; hidden_dropout_prob := 1 / 10
  |};
  embeddings := embeddings tiny_model;
  descriptor_encoder := {|
    de_desc_size := 1;
    bit_emb := {| num_embeddings := 1; emb_dim := 2;
                  emb_weight := [[1; 1]]%R |}
  |};
  transformer := transformer tiny_model;
  lm_head := lm_head tiny_model
|}.

Definition single_desc : Tensor2 R := T2 1 1 [[5]]%R.

(** Batches that the small model refuses. *)
Definition bad_token_ids : Tensor2 Z := T2 1 3 [[1; 7; 1]]%Z.
Definition long_desc : Tensor2 R := T2 1 3 [[1; 2; 3]]%R.
Definition two_desc : Tensor2 R := T2 2 2 [[1; 3]; [2; 5]]%R.
Definition empty_prompt : Tensor2 Z := T2 1 0 [[]].

(** A descriptor encoder of the first draft, and a second descriptor batch
    of the shape of [tiny_desc]. *)
Definition tiny_encoder1 : DescriptorEncoder1 := {|
  de1_desc_size := 2;
  de1_bit_emb := bit_emb tiny_encoder;
  scale_norm := {| ln_weight := [1]%R; ln_bias := [0]%R;
                   ln_eps := (1 / 100000)%R |}
|}.

Definition two_values : Tensor2 R := T2 1 2 [[2; 5]]%R.

(** A batch of two examples with two tokens each, with labels, and a batch
    of two single descriptors. *)
Definition two_ids : Tensor2 Z := T2 2 2 [[1; 2]; [2; 1]]%Z.
Definition two_labels : Tensor2 Z := T2 2 2 [[2; 1]; [1; 0]]%Z.
Definition two_single_desc : Tensor2 R := T2 2 1 [[5]; [7]]%R.

End Samples.

(* ===================================================================== *)
(** * Part III.  The tokenizer: properties                                *)
(* ===================================================================== *)

Section TokenizerFacts.
Import SMILESTokenizerHF.
Local Open Scope string_scope.

(** ** The vocabulary dictionary *)

Lemma dict_store_absent {K V} `{Countable K} (ps : list (K * V))
    (m : gmap K V) (k : K) :
  k ∉ ps.*1 -> dict_store m ps !! k = m !! k.
Proof.
  revert m. induction ps as [|[k' v] ps IH]; intros m Hk; [done|].
  cbn in Hk. apply not_elem_of_cons in Hk as [Hne Hk].
  change (dict_store (<[k':=v]> m) ps !! k = m !! k).
  rewrite IH by done. by rewrite lookup_insert_ne.
Qed.

Lemma dict_store_present {K V} `{Countable K} (ps : list (K * V))
    (m : gmap K V) (k : K) (v : V) :
  NoDup ps.*1 -> (k, v) ∈ ps -> dict_store m ps !! k = Some v.
Proof.
  revert m. induction ps as [|[k' v'] ps IH]; intros m Hnd Hin.
  - by apply elem_of_nil in Hin.
  - cbn in Hnd. apply NoDup_cons in Hnd as [Hk' Hnd].
    change (dict_store (<[k':=v']> m) ps !! k = Some v).
    apply elem_of_cons in Hin as [Heq|Hin].
    + inversion Heq; subst v' k'.
      rewrite dict_store_absent by done. apply lookup_insert_eq.
    + by apply IH.
Qed.

Lemma enumerate_snd {A} (l : list A) : (enumerate l).*2 = l.
Proof. unfold enumerate. apply snd_zip. by rewrite length_seq. Qed.

Lemma enumerate_elem {A} (l : list A) (i : nat) (x : A) :
  (i, x) ∈ enumerate l <-> l !! i = Some x.
Proof.
  unfold enumerate. rewrite list_elem_of_lookup. split.
  - intros [j Hj]. apply lookup_zip_with_Some in Hj
      as (a & b & Heq & Ha & Hb). inversion Heq; subst.
    apply lookup_seq in Ha as [-> _]. done.
  - intros Hx. exists i. apply lookup_zip_with_Some.
    exists i, x. split_and!; [done| |done].
    apply lookup_seq. split; [done|]. by eapply lookup_lt_Some.
Qed.

Lemma all_tokens_NoDup : NoDup all_tokens.
Proof. apply (bool_decide_unpack _). vm_compute. reflexivity. Qed.

Lemma vocab_keys : ((fun p : nat * string => (p.2, p.1)) <$> enumerate all_tokens).*1
                   = all_tokens.
Proof.
  rewrite <- list_fmap_compose.
  rewrite <- (enumerate_snd all_tokens) at 2. by apply list_fmap_ext.
Qed.

Lemma vocab_lookup_Some (t : string) (i : nat) :
  all_tokens !! i = Some t -> vocab !! t = Some i.
Proof.
  intros Hi. apply dict_store_present.
  - rewrite vocab_keys. apply all_tokens_NoDup.
  - apply list_elem_of_fmap. exists (i, t). split; [done|].
    by apply enumerate_elem.
Qed.

Lemma vocab_lookup_None (t : string) :
  t ∉ all_tokens -> vocab !! t = None.
Proof.
  intros Ht. unfold vocab, dict_comprehension.
  rewrite dict_store_absent; [apply lookup_empty|].
  by rewrite vocab_keys.
Qed.

Lemma vocab_special :
  vocab !! "<BOS>" = Some 0 /\ vocab !! "<EOS>" = Some 1 /\
  vocab !! "<PAD>" = Some 2 /\ vocab !! "<UNK>" = Some 3.
Proof. repeat split; by apply vocab_lookup_Some. Qed.

Lemma convert_token_to_id_spec (t : string) :
  _convert_token_to_id t = Some (default 3 (vocab !! t)).
Proof.
  unfold _convert_token_to_id.
  by rewrite (proj2 (proj2 (proj2 vocab_special))).
Qed.

(** ** Matching a vocabulary token at the head of a string *)

Ltac match_token :=
  intros r Hr;
  first
    [ reflexivity
    | destruct r as [|c r]; [reflexivity|];
      destruct c as [[] [] [] [] [] [] [] []];
      first [ reflexivity
            | exfalso; cbn in Hr; destruct Hr as (? & ? & ? & ?); congruence ] ].

Lemma match_here_token :
  Forall (fun t => forall r, no_clash r ->
                   match_here pattern (t ++ r) = Some (String.length t))
         tokens.
Proof. unfold tokens. repeat (constructor; [match_token|]). constructor. Qed.

Lemma tokens_head_ok : Forall (fun t => head_ok t = true) tokens.
Proof. apply (bool_decide_unpack _). vm_compute. reflexivity. Qed.

Lemma append_cons (c : ascii) (t r : string) :
  String c t ++ r = String c (t ++ r).
Proof. reflexivity. Qed.

Lemma append_empty_r (t : string) : t ++ "" = t.
Proof. induction t as [|c t IH]; [done|]. by rewrite append_cons, IH. Qed.

Lemma head_ok_no_clash (t r : string) : head_ok t = true -> no_clash (t ++ r).
Proof.
  destruct t as [|c t]; [done|]. rewrite append_cons. cbn. intros Hc.
  apply negb_true_iff, orb_false_iff in Hc as [H1 Hc].
  apply orb_false_iff in Hc as [H2 Hc].
  apply orb_false_iff in Hc as [H3 Hc].
  apply orb_false_iff in Hc as [H4 _].
  apply Ascii.eqb_neq in H1, H2, H3, H4. done.
Qed.

Lemma string_take_app (t r : string) :
  string_take (String.length t) (t ++ r) = t.
Proof.
  induction t as [|c t IH]; [by destruct r|].
  rewrite append_cons. cbn. by rewrite IH.
Qed.

Lemma findall_scan_skip (alts : list alternative) (t r : string) :
  findall_scan alts (String.length t) (t ++ r) = findall_scan alts 0 r.
Proof. induction t as [|c t IH]; [done|]. rewrite append_cons. apply IH. Qed.

Lemma findall_token (alts : list alternative) (t r : string) :
  t <> "" -> match_here alts (t ++ r) = Some (String.length t) ->
  findall alts (t ++ r) = t :: findall alts r.
Proof.
  unfold findall. destruct t as [|c t]; [done|]. intros _ Hm.
  rewrite append_cons in *.
  cbn [findall_scan]. rewrite Hm. cbn [String.length].
  f_equal.
  - apply (string_take_app (String c t) r).
  - apply findall_scan_skip.
Qed.

Lemma join_cons (t : string) (ts : list string) :
  String.concat "" (t :: ts) = t ++ String.concat "" ts.
Proof. destruct ts as [|t' ts]; cbn; [|done]. by rewrite append_empty_r. Qed.

Lemma join_no_clash (ts : list string) :
  Forall (fun t => t ∈ tokens) ts -> no_clash (String.concat "" ts).
Proof.
  destruct 1 as [|t ts Ht _]; [done|]. rewrite join_cons.
  apply head_ok_no_clash.
  by apply (proj1 (Forall_forall _ _) tokens_head_ok).
Qed.

Lemma tokenize_join (ts : list string) :
  Forall (fun t => t ∈ tokens) ts -> _tokenize (String.concat "" ts) = ts.
Proof.
  induction 1 as [|t ts Ht Hts IH]; [done|].
  rewrite join_cons. unfold _tokenize in *.
  rewrite findall_token.
  - by rewrite IH.
  - pose proof (proj1 (Forall_forall _ _) tokens_head_ok t Ht) as Hh.
    by destruct t.
  - apply (proj1 (Forall_forall _ _) match_here_token t Ht).
    by apply join_no_clash.
Qed.

(** ** From ids back to tokens *)

Lemma special_back :
  _convert_id_to_token 0 = "<BOS>" /\ _convert_id_to_token 1 = "<EOS>".
Proof. split; vm_compute; reflexivity. Qed.

(** ** The scanner on examples *)

Example tokenize_ordered_alternatives :
  _tokenize "ClBr%12c1[NH3+]" = ["Cl"; "Br"; "%12"; "c"; "1"; "[NH3+]"].
Proof. reflexivity. Qed.

Example tokenize_drops_unmatched :
  _tokenize "C?C x[]" = ["C"; "C"].
Proof. reflexivity. Qed.

Example tokenize_outside_token_set :
  _tokenize "[Si]Si" = ["[Si]"; "Si"] /\
  _convert_token_to_id "[Si]" = Some 76 /\ _convert_token_to_id "Si" = Some 3.
Proof. repeat split; vm_compute; reflexivity. Qed.

(** ** Round trip, padding id and unknown tokens *)

(** C2.  The round trip cannot be run.  [encode], which the class inherits,
    hands the ids of the text and of a second text to the hook
    [build_inputs_with_special_tokens]; the hook of the class has the one
    parameter [token_ids], so that encoding raises a TypeError: on the text
    "CCO", and on every other text. *)
Theorem C2_encode_raises_TypeError :
  encode "CCO" = TypeError /\ forall text, encode text = TypeError.
Proof.
  assert (forall text, encode text = TypeError) as Hall.
  { intros text. unfold encode.
    assert (mapM _convert_token_to_id (_tokenize text)
            = Some ((fun t => default 3 (vocab !! t)) <$> _tokenize text)) as ->.
    { apply mapM_Some, Forall2_fmap_r, Forall_Forall2_diag, Forall_true.
      intros t. apply convert_token_to_id_spec. }
    reflexivity. }
  split; [apply Hall|exact Hall].
Qed.

(** C6 as stated fails: the tokenizer does not give '<PAD>' the id 0. *)
Lemma C6_padding_id_counterexample :
  ~ (MolGPT.padding_idx MolGPT.MolGPTConfig_default = 0%Z /\
     vocab !! "<PAD>" = Some 0).
Proof.
  intros [_ H]. destruct vocab_special as (_ & _ & Hpad & _). congruence.
Qed.

(** C6, amended.  The padding index of the configuration defaults to 0; the
    tokenizer numbers its special tokens in the order '<BOS>', '<EOS>',
    '<PAD>', '<UNK>', so that '<PAD>' has the id 2 and the id 0 is '<BOS>'. *)
Theorem C6_padding_ids :
  MolGPT.padding_idx MolGPT.MolGPTConfig_default = 0%Z /\
  vocab !! "<PAD>" = Some 2 /\ _convert_token_to_id "<PAD>" = Some 2 /\
  vocab !! "<BOS>" = Some 0 /\ _convert_id_to_token 0 = "<BOS>".
Proof.
  destruct vocab_special as (Hbos & _ & Hpad & _).
  split_and!; [done|done| |done|apply special_back].
  by rewrite convert_token_to_id_spec, Hpad.
Qed.

(** C8.  Unknown-token fallback: the id of a token is its position in the
    vocabulary list when it is there, and the id of '<UNK>', which is 3,
    otherwise; so does every token that the pattern emits and the list
    lacks. *)
Theorem C8_unknown_token_fallback (t : string) :
  (forall i, all_tokens !! i = Some t -> _convert_token_to_id t = Some i) /\
  (t ∉ all_tokens ->
   _convert_token_to_id t = vocab !! "<UNK>" /\ vocab !! "<UNK>" = Some 3) /\
  (forall text, t ∈ _tokenize text -> t ∉ all_tokens ->
                _convert_token_to_id t = _convert_token_to_id "<UNK>").
Proof.
  destruct vocab_special as (_ & _ & _ & Hunk).
  assert (t ∉ all_tokens -> _convert_token_to_id t = Some 3) as Habs.
  { intros Ht. by rewrite convert_token_to_id_spec, vocab_lookup_None. }
  split_and!.
  - intros i Hi. rewrite convert_token_to_id_spec.
    by rewrite (vocab_lookup_Some t i).
  - intros Ht. by rewrite Habs, Hunk.
  - intros text _ Ht. rewrite Habs by done.
    by rewrite convert_token_to_id_spec, Hunk.
Qed.

Lemma C8_unknown_token_fallback_witness :
  _convert_token_to_id "Cl" = Some 25 /\
  _convert_token_to_id "Si" = Some 3 /\
  _convert_token_to_id "." = _convert_token_to_id "<UNK>".
Proof.
  split_and!.
  - apply (proj1 (C8_unknown_token_fallback "Cl") 25). reflexivity.
  - destruct (proj1 (proj2 (C8_unknown_token_fallback "Si"))) as [H1 H2].
    + apply (bool_decide_unpack _). vm_compute. reflexivity.
    + exact (eq_trans H1 H2).
  - apply (proj2 (proj2 (C8_unknown_token_fallback ".")) "C.C").
    + apply (bool_decide_unpack _). vm_compute. reflexivity.
    + apply (bool_decide_unpack _). vm_compute. reflexivity.
Defined.

End TokenizerFacts.

(* ===================================================================== *)
(** * Part IV.  The model: properties                                     *)
(* ===================================================================== *)

Section ModelFacts.
Import MolGPT Runs.

(** ** Outcomes *)

Lemma bind_Ok {A B} (m : outcome A) (f : A -> outcome B) (b : B) :
  m ≫= f = Ok b <-> exists a, m = Ok a /\ f a = Ok b.
Proof.
  split.
  - destruct m as [a| |e]; cbn; [eauto|done|done].
  - by intros (a & -> & Hf).
Qed.

Lemma mapM_Ok {A B} (f : A -> outcome B) (l : list A) (k : list B) :
  mapM f l = Ok k <-> Forall2 (fun x y => f x = Ok y) l k.
Proof.
  split.
  - revert k. induction l as [|x l IH]; intros k Hk; cbn in Hk.
    + injection Hk as <-. constructor.
    + apply bind_Ok in Hk as (y & Hy & Hk).
      apply bind_Ok in Hk as (k' & Hk' & Hk). injection Hk as <-.
      constructor; [done|]. by apply IH.
  - induction 1 as [|x y l k Hxy _ IH]; cbn; [done|].
    by rewrite Hxy; cbn; rewrite IH.
Qed.

Lemma mapM_total {A B} (f : A -> outcome B) (l : list A) :
  Forall (fun x => exists y, f x = Ok y) l -> exists k, mapM f l = Ok k.
Proof.
  induction 1 as [|x l [y Hy] _ [k IH]]; [by exists []|].
  exists (y :: k). apply mapM_Ok. constructor; [done|]. by apply mapM_Ok.
Qed.

Lemma mapM_Raise {A B} (f : A -> outcome B) (l : list A) (e : error) :
  mapM f l = Raise e -> exists x, x ∈ l /\ f x = Raise e.
Proof.
  induction l as [|x l IH]; cbn; [done|].
  destruct (f x) as [y| |e'] eqn:Hx; cbn.
  - destruct (mapM f l) as [k| |e'] eqn:Hl; cbn; [done|done|].
    intros [= ->]. destruct IH as (x' & Hin & Hx'); [done|].
    exists x'. split; [by right|done].
  - done.
  - intros [= ->]. exists x. split; [by left|done].
Qed.

(** ** The descriptor encoder *)

Lemma desc_norm_length (xs : vec) : length (desc_norm xs) = length xs.
Proof.
  unfold desc_norm. destruct (mean xs), (std xs); by rewrite length_fmap.
Qed.


(** ** Embedding tables *)

Lemma Forall_zip_with_lookup {A B C} (f : A -> B -> C) (P : C -> Prop)
    (l : list A) (k : list B) :
  (forall i a b, l !! i = Some a -> k !! i = Some b -> P (f a b)) ->
  Forall P (zip_with f l k).
Proof.
  intros H. apply Forall_lookup. intros i x Hx.
  apply lookup_zip_with_Some in Hx as (a & b & -> & Ha & Hb). eauto.
Qed.

Lemma Embedding_lookup_Ok (e : Embedding) (i : Z) (v : vec) :
  Embedding_lookup e i = Ok v <->
  (0 <= i)%Z /\ emb_weight e !! Z.to_nat i = Some v.
Proof.
  unfold Embedding_lookup. destruct (Z.leb_spec 0 i) as [Hi|Hi].
  - destruct (emb_weight e !! Z.to_nat i) as [w|]; split;
      [intros [= ->]|intros [_ [= ->]]|done|intros [_ [=]]]; done.
  - split; [done|lia].
Qed.

Lemma Embedding_lookup_total (e : Embedding) (i : Z) :
  (0 <= i < Z.of_nat (length (emb_weight e)))%Z ->
  exists v, Embedding_lookup e i = Ok v.
Proof.
  intros Hi. destruct (lookup_lt_is_Some_2 (emb_weight e) (Z.to_nat i)) as [v Hv];
    [lia|].
  exists v. apply Embedding_lookup_Ok. split; [lia|done].
Qed.

Lemma Embedding_lookup_Raise (e : Embedding) (i : Z) (err : error) :
  Embedding_lookup e i = Raise err -> err = IndexError.
Proof.
  unfold Embedding_lookup.
  destruct (if (0 <=? i)%Z then _ else _); [done|]. by intros [= <-].
Qed.

Lemma Embedding_forward_Ok (e : Embedding) (idx : Tensor2 Z) (t : Tensor3 R) :
  Embedding_forward e idx = Ok t <->
  exists d, Forall2 (Forall2 (fun i v => Embedding_lookup e i = Ok v))
              (t2_data idx) d /\
            t = T3 (t2_size0 idx) (t2_size1 idx) (emb_dim e) d.
Proof.
  unfold Embedding_forward. rewrite bind_Ok. split.
  - intros (d & Hd & [= <-]). exists d. split; [|done].
    apply mapM_Ok in Hd. eapply Forall2_impl; [done|].
    intros row r Hr. by apply mapM_Ok.
  - intros (d & Hd & ->). exists d. split; [|done].
    apply mapM_Ok. eapply Forall2_impl; [done|].
    intros row r Hr. by apply mapM_Ok.
Qed.

Lemma Embedding_forward_Raise (e : Embedding) (idx : Tensor2 Z) (err : error) :
  Embedding_forward e idx = Raise err -> err = IndexError.
Proof.
  unfold Embedding_forward.
  destruct (mapM _ _) as [d| |err'] eqn:Hm; cbn; [done|done|].
  intros [= ->]. apply mapM_Raise in Hm as (row & _ & Hrow).
  apply mapM_Raise in Hrow as (i & _ & Hi).
  by eapply Embedding_lookup_Raise.
Qed.

Lemma Embedding_forward_total (e : Embedding) (idx : Tensor2 Z) :
  Forall (Forall (fun i => (0 <= i < Z.of_nat (length (emb_weight e)))%Z))
         (t2_data idx) ->
  exists t, Embedding_forward e idx = Ok t.
Proof.
  intros Hidx. unfold Embedding_forward.
  destruct (mapM_total (mapM (Embedding_lookup e)) (t2_data idx)) as [d ->].
  - eapply Forall_impl; [done|]. intros row Hrow. apply mapM_total.
    eapply Forall_impl; [done|]. apply Embedding_lookup_total.
  - by eexists.
Qed.

Lemma arange_bounds (n : nat) :
  Forall (fun i => (0 <= i < Z.of_nat n)%Z) (arange n).
Proof.
  unfold arange. apply Forall_fmap, Forall_forall. intros i Hi.
  apply elem_of_seq in Hi. cbn. lia.
Qed.

Lemma arange_length (n : nat) : length (arange n) = n.
Proof. unfold arange. by rewrite length_fmap, length_seq. Qed.

(** The table rows that the lookups of a well-formed index tensor return. *)
Lemma Embedding_forward_wf (e : Embedding) (idx : Tensor2 Z) (t : Tensor3 R) :
  wf_Embedding e -> wf2 idx -> Embedding_forward e idx = Ok t -> wf3 t.
Proof.
  intros [_ Hrows] [Hlen Hcols] (d & Hd & ->)%Embedding_forward_Ok.
  split; cbn.
  - by rewrite <- (Forall2_length _ _ _ Hd).
  - apply Forall_lookup. intros b m Hm.
    destruct (Forall2_lookup_r _ _ _ _ _ Hd Hm) as (row & Hrow & Hrm).
    split.
    + rewrite <- (Forall2_length _ _ _ Hrm).
      by apply (proj1 (Forall_lookup _ _) Hcols b).
    + apply Forall_lookup. intros p v Hv.
      destruct (Forall2_lookup_r _ _ _ _ _ Hrm Hv) as (i & _ & Hi).
      apply Embedding_lookup_Ok in Hi as [_ Hi].
      by apply (proj1 (Forall_lookup _ _) Hrows (Z.to_nat i)).
Qed.

Lemma expand_rows_wf {A} (B n : nat) (row : list A) :
  length row = n -> wf2 (expand_rows B n row).
Proof.
  intros Hrow. split; cbn; [apply length_replicate|].
  by apply Forall_replicate.
Qed.

Lemma scale_length (v : scalar) (b : vec) : length (scale v <$> b) = length b.
Proof. apply length_fmap. Qed.

(** The lookups of [bit_idx] succeed when the table has [desc_size] rows. *)
Lemma bit_emb_total (self : DescriptorEncoder) (B : nat) :
  wf_Embedding (bit_emb self) ->
  num_embeddings (bit_emb self) = de_desc_size self ->
  exists bit,
    Embedding_forward (bit_emb self)
      (expand_rows B (de_desc_size self) (arange (de_desc_size self))) = Ok bit /\
    wf3 bit /\ t3_size0 bit = B /\ t3_size1 bit = de_desc_size self /\
    t3_size2 bit = emb_dim (bit_emb self).
Proof.
  intros Hwf Hnum.
  destruct (Embedding_forward_total (bit_emb self)
              (expand_rows B (de_desc_size self) (arange (de_desc_size self))))
    as [bit Hbit].
  { cbn. apply Forall_replicate. destruct Hwf as [-> _]. rewrite Hnum.
    apply arange_bounds. }
  exists bit. split; [done|]. split.
  - eapply Embedding_forward_wf; [done| |done].
    apply expand_rows_wf, arange_length.
  - by apply Embedding_forward_Ok in Hbit as (d & _ & ->).
Qed.

Lemma DescriptorEncoder_forward_shape (self : DescriptorEncoder)
    (desc : Tensor2 R) :
  wf_Embedding (bit_emb self) ->
  num_embeddings (bit_emb self) = de_desc_size self ->
  wf2 desc -> t2_size1 desc = de_desc_size self ->
  exists emb,
    DescriptorEncoder_forward self desc = Ok emb /\
    t3_size0 emb = t2_size0 desc /\ t3_size1 emb = t2_size1 desc /\
    t3_size2 emb = emb_dim (bit_emb self) /\ wf3 emb.
Proof.
  intros Hwf Hnum [Hlen Hcols] HD.
  destruct (bit_emb_total self (t2_size0 desc) Hwf Hnum)
    as (bit & Hbit & [Hb0 Hb1] & Hs0 & Hs1 & Hs2).
  unfold DescriptorEncoder_forward.
  destruct (decide (t2_size1 desc = de_desc_size self)); [|done].
  rewrite HD, Hbit. cbn. eexists. split; [done|]. cbn.
  split_and!; [done|done|done|].
  unfold dropout. split; cbn.
  - rewrite length_zip_with_l_eq; [lia|]. rewrite length_fmap. lia.
  - apply Forall_zip_with_lookup. intros b m row Hm Hrow.
    apply list_lookup_fmap_Some in Hrow as (xs & -> & Hxs).
    pose proof (proj1 (Forall_lookup _ _) Hb1 b m Hm) as [Hm1 Hm2].
    pose proof (proj1 (Forall_lookup _ _) Hcols b xs Hxs) as Hx.
    cbn beta in Hx. split.
    + rewrite length_zip_with_l_eq; [lia|]. rewrite desc_norm_length. lia.
    + apply Forall_zip_with_lookup. intros p v x Hv _.
      rewrite scale_length.
      by apply (proj1 (Forall_lookup _ _) Hm2 p).
Qed.

(** C7.  The descriptor encoder raises its assertion exactly when the
    second dimension of the input differs from the configured descriptor
    size; when the two agree, an encoder built by [__init__] returns, for
    each of the B examples, D embedding vectors of the embedding width. *)
Theorem C7_descriptor_dim_check (self : DescriptorEncoder) (desc : Tensor2 R) :
  (t2_size1 desc <> de_desc_size self <->
   exists msg, DescriptorEncoder_forward self desc = Raise (AssertionError msg)) /\
  (wf_Embedding (bit_emb self) ->
   num_embeddings (bit_emb self) = de_desc_size self ->
   wf2 desc -> t2_size1 desc = de_desc_size self ->
   exists emb,
     DescriptorEncoder_forward self desc = Ok emb /\
     t3_size0 emb = t2_size0 desc /\ t3_size1 emb = t2_size1 desc /\
     t3_size2 emb = emb_dim (bit_emb self) /\ wf3 emb).
Proof.
  split; [|apply DescriptorEncoder_forward_shape].
  unfold DescriptorEncoder_forward.
  destruct (decide (t2_size1 desc = de_desc_size self)) as [HD|HD].
  - split; [done|]. intros [msg Hmsg]. exfalso.
    destruct (Embedding_forward _ _) as [bit| |err] eqn:Hbit; cbn in Hmsg;
      [done|done|].
    apply Embedding_forward_Raise in Hbit. congruence.
  - split; [eauto|done].
Qed.

(** ** The embedded segments of [forward] *)

Lemma DescriptorEncoder_forward_Ok (self : DescriptorEncoder)
    (desc : Tensor2 R) (emb : Tensor3 scalar) :
  DescriptorEncoder_forward self desc = Ok emb ->
  t2_size1 desc = de_desc_size self /\
  exists bit,
    Embedding_forward (bit_emb self)
      (expand_rows (t2_size0 desc) (t2_size1 desc) (arange (t2_size1 desc)))
    = Ok bit /\
    emb = T3 (t2_size0 desc) (t2_size1 desc) (t3_size2 bit)
             (zip_with (zip_with (fun b v => scale v <$> b)) (t3_data bit)
                       (desc_norm <$> t2_data desc)).
Proof.
  unfold DescriptorEncoder_forward.
  destruct (decide (t2_size1 desc = de_desc_size self)); [|done].
  intros (bit & Hbit & [= <-])%bind_Ok. split; [done|]. by exists bit.
Qed.

Lemma desc_norm_real (xs : vec) :
  length xs <> 1 -> Forall is_real (desc_norm xs).
Proof.
  intros Hlen. unfold desc_norm, std.
  destruct xs as [|x xs]; [by constructor|].
  set (l := x :: xs) in *. unfold mean at 1 2. cbn [l].
  fold l. destruct (decide (length l <= 1)) as [Hle|_].
  { cbn in Hle, Hlen. lia. }
  apply Forall_fmap, Forall_forall. intros y _. by eexists.
Qed.

Lemma descriptor_entries_real (self : DescriptorEncoder) (desc : Tensor2 R)
    (emb : Tensor3 scalar) :
  DescriptorEncoder_forward self desc = Ok emb -> wf2 desc ->
  t2_size0 desc = 0 \/ t2_size1 desc <> 1 ->
  Forall (Forall (Forall is_real)) (t3_data emb).
Proof.
  intros (_ & bit & _ & ->)%DescriptorEncoder_forward_Ok [Hlen Hcols] Hcase. cbn.
  apply Forall_zip_with_lookup. intros b m vs _ Hvs.
  apply list_lookup_fmap_Some in Hvs as (xs & -> & Hxs).
  pose proof (proj1 (Forall_lookup _ _) Hcols b xs Hxs) as Hx. cbn beta in Hx.
  assert (length xs <> 1) as Hne.
  { destruct Hcase as [HB|HD]; [|lia].
    apply lookup_lt_Some in Hxs. lia. }
  apply Forall_zip_with_lookup. intros p v s _ Hs.
  pose proof (proj1 (Forall_lookup _ _) (desc_norm_real xs Hne) p s Hs)
    as [r ->].
  apply Forall_fmap, Forall_forall. intros y _. by eexists.
Qed.



Lemma real_entry_Ok (s : scalar) (r : R) : real_entry s = Ok r <-> s = Real r.
Proof. destruct s; cbn; split; congruence. Qed.

Lemma real_entries_Ok (ds : Tensor3 scalar) (dr : Tensor3 R) :
  real_entries ds = Ok dr ->
  t3_size0 dr = t3_size0 ds /\ t3_size1 dr = t3_size1 ds /\
  t3_size2 dr = t3_size2 ds /\
  Forall2 (Forall2 (Forall2 (fun s r => s = Real r))) (t3_data ds) (t3_data dr).
Proof.
  unfold real_entries. intros (d & Hd & [= <-])%bind_Ok. cbn.
  split_and!; [done..|].
  apply mapM_Ok in Hd. eapply Forall2_impl; [done|]. intros m m' Hm.
  apply mapM_Ok in Hm. eapply Forall2_impl; [done|]. intros v v' Hv.
  apply mapM_Ok in Hv. eapply Forall2_impl; [done|]. intros x r.
  apply real_entry_Ok.
Qed.

Lemma real_entries_total (ds : Tensor3 scalar) :
  Forall (Forall (Forall is_real)) (t3_data ds) ->
  exists dr, real_entries ds = Ok dr.
Proof.
  intros Hreal. unfold real_entries.
  destruct (mapM_total (mapM (mapM real_entry)) (t3_data ds)) as [d ->].
  - eapply Forall_impl; [done|]. intros m Hm. apply mapM_total.
    eapply Forall_impl; [done|]. intros v Hv. apply mapM_total.
    eapply Forall_impl; [done|]. intros x [r ->]. by exists r.
  - by eexists.
Qed.

Lemma real_entries_wf (ds : Tensor3 scalar) (dr : Tensor3 R) :
  wf3 ds -> real_entries ds = Ok dr -> wf3 dr.
Proof.
  intros [Hlen Hrows] (H0 & H1 & H2 & Hd)%real_entries_Ok. split.
  - rewrite <- (Forall2_length _ _ _ Hd). lia.
  - apply Forall_lookup. intros b m' Hm'.
    destruct (Forall2_lookup_r _ _ _ _ _ Hd Hm') as (m & Hm & Hmm).
    pose proof (proj1 (Forall_lookup _ _) Hrows b m Hm) as [Hm1 Hm2].
    split.
    + rewrite <- (Forall2_length _ _ _ Hmm). lia.
    + apply Forall_lookup. intros p v' Hv'.
      destruct (Forall2_lookup_r _ _ _ _ _ Hmm Hv') as (v & Hv & Hvv).
      rewrite <- (Forall2_length _ _ _ Hvv), H2.
      by apply (proj1 (Forall_lookup _ _) Hm2 p).
Qed.

Lemma vadd_length (u v : vec) (n : nat) :
  length u = n -> length v = n -> length (vadd u v) = n.
Proof. intros Hu Hv. unfold vadd. rewrite length_zip_with_l_eq; lia. Qed.

Lemma MolGPTEmbeddings_forward_Ok (self : MolGPTEmbeddings)
    (input_ids : Tensor2 Z) (t : Tensor3 R) :
  MolGPTEmbeddings_forward self input_ids = Ok t ->
  exists tok pos,
    Embedding_forward (token_embeddings self) input_ids = Ok tok /\
    Embedding_forward (position_embeddings self)
      (expand_rows (t2_size0 input_ids) (t2_size1 input_ids)
                   (arange (t2_size1 input_ids))) = Ok pos /\
    t = T3 (t2_size0 input_ids) (t2_size1 input_ids)
           (emb_dim (token_embeddings self))
           (zip_with (zip_with vadd) (t3_data tok) (t3_data pos)).
Proof.
  unfold MolGPTEmbeddings_forward.
  intros (tok & Htok & (pos & Hpos & [= <-])%bind_Ok)%bind_Ok.
  exists tok, pos. split_and!; [done..|].
  by apply Embedding_forward_Ok in Htok as (d & _ & ->).
Qed.

Lemma MolGPTEmbeddings_forward_total (self : MolGPTModel)
    (input_ids : Tensor2 Z) :
  wf_model self -> wf2 input_ids -> valid_ids self input_ids ->
  t2_size0 input_ids = 0 \/
  t2_size1 input_ids <= max_position_embeddings (config self) ->
  exists t,
    MolGPTEmbeddings_forward (embeddings self) input_ids = Ok t /\ wf3 t /\
    t3_size0 t = t2_size0 input_ids /\ t3_size1 t = t2_size1 input_ids /\
    t3_size2 t = embedding_dim (config self).
Proof.
  intros ((Htw & Htn & Htd) & (Hpw & Hpn & Hpd) & _) Hwf Hvalid Hpos.
  destruct (Embedding_forward_total
              (token_embeddings (embeddings self)) input_ids) as [tok Htok].
  { destruct Htw as [-> _]. by rewrite Htn. }
  destruct (Embedding_forward_total
              (position_embeddings (embeddings self))
              (expand_rows (t2_size0 input_ids) (t2_size1 input_ids)
                           (arange (t2_size1 input_ids)))) as [pos Hpos'].
  { cbn. destruct Hpos as [->|Hle]; [by constructor|].
    apply Forall_replicate. destruct Hpw as [-> _]. rewrite Hpn.
    eapply Forall_impl; [apply arange_bounds|]. intros i Hi. cbn beta in *. lia. }
  pose proof (Embedding_forward_wf _ _ _ Htw Hwf Htok) as [Ht0 Ht1].
  pose proof (Embedding_forward_wf _ _ _ Hpw
                (expand_rows_wf _ _ _ (arange_length _)) Hpos') as [Hp0 Hp1].
  unfold MolGPTEmbeddings_forward. rewrite Htok, Hpos'. cbn.
  apply Embedding_forward_Ok in Htok as (td & _ & ->).
  apply Embedding_forward_Ok in Hpos' as (pd & _ & ->). cbn in *.
  eexists. split; [done|]. cbn. split_and!; [|done..].
  unfold dropout. split; cbn.
  - rewrite length_zip_with_l_eq; lia.
  - apply Forall_zip_with_lookup. intros b m m' Hm Hm'.
    pose proof (proj1 (Forall_lookup _ _) Ht1 b m Hm) as [Hm1 Hm2].
    pose proof (proj1 (Forall_lookup _ _) Hp1 b m' Hm') as [Hm1' Hm2'].
    split.
    + rewrite length_zip_with_l_eq; lia.
    + apply Forall_zip_with_lookup. intros q v v' Hv Hv'.
      apply vadd_length.
      * by apply (proj1 (Forall_lookup _ _) Hm2 q).
      * rewrite Htd, <- Hpd. by apply (proj1 (Forall_lookup _ _) Hm2' q).
Qed.

(** ** Lengths through the stack *)

Lemma generate_causal_mask_length (L : nat) :
  length (generate_causal_mask L) = L.
Proof.
  unfold generate_causal_mask, triu, full.
  by rewrite length_imap, length_replicate.
Qed.

Lemma MultiheadAttention_forward_length (self : MultiheadAttention)
    (x : list vec) (mask : list (list ereal)) :
  length (MultiheadAttention_forward self x mask)
  = min (length x) (length mask).
Proof.
  unfold MultiheadAttention_forward.
  by rewrite length_zip_with, !length_fmap.
Qed.

Lemma TransformerEncoderLayer_forward_length (self : TransformerEncoderLayer)
    (x : list vec) (mask : list (list ereal)) :
  length (TransformerEncoderLayer_forward self x mask)
  = min (length x) (length mask).
Proof.
  unfold TransformerEncoderLayer_forward, dropout.
  rewrite length_fmap, length_zip_with, MultiheadAttention_forward_length. lia.
Qed.

Lemma stack_length (layers : list TransformerEncoderLayer) (x : list vec)
    (mask : list (list ereal)) :
  length x <= length mask ->
  length (foldl (fun h layer => TransformerEncoderLayer_forward layer h mask)
                x layers) = length x.
Proof.
  revert x. induction layers as [|layer layers IH]; intros x Hx; [done|].
  cbn [foldl]. rewrite IH; rewrite TransformerEncoderLayer_forward_length; lia.
Qed.

Lemma Linear_forward_length (l : Linear) (x : vec) :
  wf_Linear l -> length (Linear_forward l x) = out_features l.
Proof.
  intros [Hw Hb]. unfold Linear_forward.
  rewrite length_zip_with_l_eq; rewrite length_fmap; lia.
Qed.

Lemma example_logits_length (self : MolGPTModel) (D : nat) (x : list vec) :
  length (example_logits self (length x) D x) = length x - D.
Proof.
  unfold example_logits. rewrite length_drop, length_fmap, stack_length;
    [done|]. by rewrite generate_causal_mask_length.
Qed.

Lemma logits_of_wf (self : MolGPTModel) (dr tok : Tensor3 R) :
  wf_Linear (lm_head self) -> wf3 dr -> wf3 tok ->
  t3_size0 dr = t3_size0 tok ->
  wf3 (logits_of self dr tok) /\
  t3_size0 (logits_of self dr tok) = t3_size0 tok /\
  t3_size1 (logits_of self dr tok) = t3_size1 tok /\
  t3_size2 (logits_of self dr tok) = out_features (lm_head self).
Proof.
  intros Hlm [Hd0 Hd1] [Ht0 Ht1] HB. unfold logits_of; cbn.
  split_and!; [|done|lia|done]. split; cbn.
  - rewrite length_fmap, length_zip_with_l_eq; lia.
  - apply Forall_fmap, Forall_zip_with_lookup. intros b d t Hd Ht. cbn.
    pose proof (proj1 (Forall_lookup _ _) Hd1 b d Hd) as [Hdl _].
    pose proof (proj1 (Forall_lookup _ _) Ht1 b t Ht) as [Htl _].
    assert (length (d ++ t) = t3_size1 dr + t3_size1 tok) as Hlen
      by (rewrite length_app; lia).
    rewrite <- Hlen. split.
    + rewrite example_logits_length. lia.
    + unfold example_logits. apply Forall_drop, Forall_fmap, Forall_forall.
      intros v _. by apply Linear_forward_length.
Qed.

(** ** The steps of [forward] *)

Lemma Forall2_fmap_eq_l {A B} (f : A -> B) (P : A -> B -> Prop)
    (l : list A) (k : list B) :
  (forall x y, P x y -> f x = y) -> Forall2 P l k -> f <$> l = k.
Proof.
  intros HP. induction 1 as [|x y l k Hxy _ IH]; [done|].
  cbn. by rewrite (HP x y Hxy), IH.
Qed.

Lemma real_parts_entries (ds : Tensor3 scalar) (dr : Tensor3 R) :
  real_entries ds = Ok dr -> real_parts ds = dr.
Proof.
  intros (H0 & H1 & H2 & Hd)%real_entries_Ok.
  destruct ds as [s0 s1 s2 d], dr as [r0 r1 r2 d']. cbn in *. subst.
  unfold real_parts. cbn. f_equal.
  eapply Forall2_fmap_eq_l; [|exact Hd]. intros m m' Hm.
  eapply Forall2_fmap_eq_l; [|exact Hm]. intros v v' Hv.
  eapply Forall2_fmap_eq_l; [|exact Hv]. by intros x r ->.
Qed.

Lemma bind_ret {A} (m : outcome A) : (a ← m; Ok a) = m.
Proof. by destruct m. Qed.

Lemma forward_unfold (self : MolGPTModel) (input_ids : Tensor2 Z)
    (descriptors : Tensor2 R) (labels : option (Tensor2 Z)) :
  forward self input_ids descriptors labels
  = (tok ← MolGPTEmbeddings_forward (embeddings self) input_ids;
     ds ← DescriptorEncoder_forward (descriptor_encoder self) descriptors;
     _ ← cat1_3 (real_parts ds) tok;
     output ← forward_result self (real_parts ds) tok labels;
     _ ← real_entries ds;
     Ok output).
Proof.
  unfold forward.
  destruct (MolGPTEmbeddings_forward _ _) as [tok| |e]; cbn; [|done..].
  destruct (DescriptorEncoder_forward _ _) as [ds| |e]; cbn; [|done..].
  unfold cat1_3. destruct (decide _); cbn; [|done].
  unfold forward_result, logits_of, example_logits.
  rewrite <- !list_fmap_compose. by destruct labels.
Qed.

(** ** What [forward] computes on ready inputs *)

Lemma forward_spec (self : MolGPTModel) (input_ids : Tensor2 Z)
    (descriptors : Tensor2 R) :
  wf_model self -> forward_ready self input_ids descriptors ->
  exists tok ds dr,
    MolGPTEmbeddings_forward (embeddings self) input_ids = Ok tok /\
    DescriptorEncoder_forward (descriptor_encoder self) descriptors = Ok ds /\
    real_entries ds = Ok dr /\
    wf3 tok /\ wf3 dr /\
    (t3_size0 tok = t2_size0 input_ids /\ t3_size1 tok = t2_size1 input_ids) /\
    (t3_size0 dr = t2_size0 input_ids /\
     t3_size1 dr = desc_size (config self)) /\
    forall labels,
      forward self input_ids descriptors labels
      = forward_result self dr tok labels.
Proof.
  intros Hwf (Hids & Hdesc & HB & HD & Hvalid & Hpos & Hnan).
  destruct (MolGPTEmbeddings_forward_total self input_ids Hwf Hids Hvalid Hpos)
    as (tok & Htok & Htwf & Ht0 & Ht1 & Ht2).
  pose proof Hwf as (_ & _ & (Hbw & Hbn & Hbd & Hsz) & _).
  destruct (DescriptorEncoder_forward_shape (descriptor_encoder self)
              descriptors) as (ds & Hds & Hs0 & Hs1 & Hs2 & Hswf);
    [done|congruence|done|congruence|].
  destruct (real_entries_total ds) as [dr Hdr].
  { eapply descriptor_entries_real; [done..|].
    destruct Hnan as [?|?]; [left|right]; congruence. }
  pose proof (real_entries_wf _ _ Hswf Hdr) as Hrwf.
  apply real_entries_Ok in Hdr as Hsizes. destruct Hsizes as (Hr0 & Hr1 & Hr2 & _).
  exists tok, ds, dr. split_and!; [done..|lia|lia|congruence|].
  intros labels. rewrite forward_unfold, Htok, Hds. cbn.
  rewrite Hdr, (real_parts_entries ds dr Hdr). unfold cat1_3.
  destruct (decide (t3_size0 dr = t3_size0 tok /\ t3_size2 dr = t3_size2 tok))
    as [_|Hne]; [|exfalso; apply Hne; split; congruence].
  cbn. apply bind_ret.
Qed.

Lemma forward_total (self : MolGPTModel) (input_ids : Tensor2 Z)
    (descriptors : Tensor2 R) :
  wf_model self -> forward_ready self input_ids descriptors ->
  exists out,
    forward self input_ids descriptors None = Ok out /\
    wf3 (logits out) /\
    t3_size0 (logits out) = t2_size0 input_ids /\
    t3_size1 (logits out) = t2_size1 input_ids /\
    t3_size2 (logits out) = vocab_size (config self).
Proof.
  intros Hwf Hready.
  destruct (forward_spec self input_ids descriptors Hwf Hready)
    as (tok & ds & dr & _ & _ & _ & Htwf & Hrwf & [Ht0 Ht1] & [Hr0 Hr1] & Hfwd).
  destruct Hwf as (_ & _ & _ & (Hlm & HV) & _).
  destruct (logits_of_wf self dr tok Hlm Hrwf Htwf) as (Hlwf & Hl0 & Hl1 & Hl2);
    [lia|].
  exists {| loss := None; logits := logits_of self dr tok |}.
  split; [by rewrite Hfwd|]. cbn [logits].
  split_and!; [done|lia|lia|congruence].
Qed.

Lemma forward_logits (self : MolGPTModel) (dr tok : Tensor3 R)
    (labels : option (Tensor2 Z)) (out : CausalLMOutput) :
  forward_result self dr tok labels = Ok out ->
  logits out = logits_of self dr tok.
Proof.
  destruct labels as [labels|]; cbn.
  - by intros (input & _ & (l & _ & [= <-])%bind_Ok)%bind_Ok.
  - by intros [= <-].
Qed.

(** ** When [forward] returns *)

Lemma Embedding_forward_valid (e : Embedding) (idx : Tensor2 Z) (t : Tensor3 R) :
  Embedding_forward e idx = Ok t ->
  Forall (Forall (fun i => (0 <= i < Z.of_nat (length (emb_weight e)))%Z))
         (t2_data idx).
Proof.
  intros (d & Hd & _)%Embedding_forward_Ok.
  apply Forall_lookup. intros b row Hrow.
  destruct (Forall2_lookup_l _ _ _ _ _ Hd Hrow) as (m & _ & Hm).
  apply Forall_lookup. intros p i Hi.
  destruct (Forall2_lookup_l _ _ _ _ _ Hm Hi) as (v & _ & Hv).
  apply Embedding_lookup_Ok in Hv as [H0 Hv]. apply lookup_lt_Some in Hv. lia.
Qed.

Lemma arange_lookup (n i : nat) : i < n -> arange n !! i = Some (Z.of_nat i).
Proof.
  intros Hi. unfold arange. by rewrite list_lookup_fmap, lookup_seq_lt.
Qed.

Lemma forward_Ok (self : MolGPTModel) (input_ids : Tensor2 Z)
    (descriptors : Tensor2 R) (labels : option (Tensor2 Z))
    (out : CausalLMOutput) :
  forward self input_ids descriptors labels = Ok out ->
  exists tok ds dr,
    MolGPTEmbeddings_forward (embeddings self) input_ids = Ok tok /\
    DescriptorEncoder_forward (descriptor_encoder self) descriptors = Ok ds /\
    real_entries ds = Ok dr /\
    t3_size0 dr = t3_size0 tok /\
    forward_result self dr tok labels = Ok out.
Proof.
  rewrite forward_unfold.
  intros (tok & Htok & (ds & Hds & (x & Hx & (output & Hres
          & (dr & Hdr & [= <-])%bind_Ok)%bind_Ok)%bind_Ok)%bind_Ok)%bind_Ok.
  rewrite (real_parts_entries ds dr Hdr) in Hx, Hres.
  unfold cat1_3 in Hx.
  destruct (decide (t3_size0 dr = t3_size0 tok /\ t3_size2 dr = t3_size2 tok))
    as [[H0 H2]|]; [|done].
  by exists tok, ds, dr.
Qed.

(** Under the shapes of [__init__], [forward] returns real logits only on
    ready inputs. *)
Lemma forward_Ok_ready (self : MolGPTModel) (input_ids : Tensor2 Z)
    (descriptors : Tensor2 R) (labels : option (Tensor2 Z))
    (out : CausalLMOutput) :
  wf_model self -> wf2 input_ids -> wf2 descriptors ->
  forward self input_ids descriptors labels = Ok out ->
  forward_ready self input_ids descriptors.
Proof.
  intros Hwf Hids Hdesc
    (tok & ds & dr & Htok & Hds & Hdr & HB & _)%forward_Ok.
  pose proof Hwf as ((Htw & Htn & Htd) & (Hpw & Hpn & Hpd)
                     & (Hbw & Hbn & Hbd & Hsz) & _ & _ & HE).
  apply MolGPTEmbeddings_forward_Ok in Htok as (tk & pos & Htk & Hpos & ->).
  apply DescriptorEncoder_forward_Ok in Hds as (HD & bit & Hbit & ->).
  apply real_entries_Ok in Hdr as (Hr0 & _ & _ & Hreal). cbn in HB, Hr0, Hreal.
  split_and!; [done|done|lia|congruence| | |].
  - apply Embedding_forward_valid in Htk. unfold valid_ids.
    destruct Htw as [Hlen _]. by rewrite <- Htn, <- Hlen.
  - destruct (decide (t2_size0 input_ids = 0)) as [|HB0]; [by left|right].
    apply Embedding_forward_valid in Hpos. cbn in Hpos.
    destruct (t2_size0 input_ids) as [|B]; [done|]. cbn in Hpos.
    apply Forall_cons in Hpos as [Hpos _].
    destruct (t2_size1 input_ids) as [|T] eqn:HT; [lia|].
    pose proof (proj1 (Forall_lookup _ _) Hpos T _ (arange_lookup (S T) T ltac:(lia)))
      as Hb. cbn beta in Hb. destruct Hpw as [Hlen _]. lia.
  - destruct (decide (t2_size0 input_ids = 0)) as [|HB0]; [by left|right].
    intros Hone.
    destruct Hdesc as [Hd0 Hd1].
    destruct (lookup_lt_is_Some_2 (t2_data descriptors) 0) as [xs Hxs]; [lia|].
    pose proof (proj1 (Forall_lookup _ _) Hd1 0 xs Hxs) as Hx. cbn beta in Hx.
    destruct xs as [|x [|x' xs]]; cbn in Hx; [lia| |lia].
    pose proof (Embedding_forward_wf _ _ _ Hbw
                  (expand_rows_wf _ _ _ (arange_length _)) Hbit) as [Hb0 Hb1].
    apply Embedding_forward_Ok in Hbit as (bd & _ & ->). cbn in *.
    destruct (lookup_lt_is_Some_2 bd 0) as [m Hm]; [lia|].
    pose proof (proj1 (Forall_lookup _ _) Hb1 0 m Hm) as [Hm1 Hm2].
    destruct m as [|b0 [|b1 m]]; cbn in Hm1; [lia| |lia].
    apply Forall_cons in Hm2 as [Hlen0 _].
    destruct b0 as [|y b0]; cbn in Hlen0; [lia|].
    destruct bd as [|m' bd]; [done|]. injection Hm as ->.
    destruct (t2_data descriptors) as [|xs' rows]; [done|]. injection Hxs as ->.
    cbn in Hreal. inversion Hreal as [|? ? ? ? Hrow _]; subst.
    inversion Hrow as [|? ? ? ? Hvec _]; subst.
    inversion Hvec as [|? ? ? ? Hentry _]; subst. done.
Qed.

(** C5.  Whatever labels it is given, the logits that the forward pass
    returns for a batch of B examples with T token positions are those of B
    examples with exactly T positions, each of vocabulary-size width; and
    the forward pass returns on ready inputs. *)
Theorem C5_logits_shape (self : MolGPTModel) (input_ids : Tensor2 Z)
    (descriptors : Tensor2 R) :
  wf_model self -> wf2 input_ids -> wf2 descriptors ->
  (forall labels out,
     forward self input_ids descriptors labels = Ok out ->
     t3_size0 (logits out) = t2_size0 input_ids /\
     t3_size1 (logits out) = t2_size1 input_ids /\
     t3_size2 (logits out) = vocab_size (config self) /\
     wf3 (logits out)) /\
  (forward_ready self input_ids descriptors ->
   exists out, forward self input_ids descriptors None = Ok out).
Proof.
  intros Hwf Hids Hdesc. split.
  - intros labels out Hout.
    pose proof (forward_Ok_ready _ _ _ _ _ Hwf Hids Hdesc Hout) as Hready.
    destruct (forward_spec self input_ids descriptors Hwf Hready)
      as (tok & ds & dr & _ & _ & _ & Htwf & Hrwf & [Ht0 Ht1] & [Hr0 Hr1] & Hfwd).
    rewrite Hfwd in Hout. apply forward_logits in Hout. rewrite Hout.
    destruct Hwf as (_ & _ & _ & (Hlm & HV) & _).
    destruct (logits_of_wf self dr tok Hlm Hrwf Htwf)
      as (Hlwf & Hl0 & Hl1 & Hl2); [lia|].
    split_and!; [lia|lia|congruence|done].
  - intros Hready.
    destruct (forward_total self input_ids descriptors Hwf Hready)
      as (out & Hout & _). by exists out.
Qed.

(** ** The loss *)

Lemma nll_term_Ok (pad : Z) (p : vec * Z) :
  p.2 = pad \/ (0 <= p.2 < Z.of_nat (length p.1))%Z ->
  nll_term pad p = Ok (nll_pair pad p).
Proof.
  destruct p as [row y]. unfold nll_term, nll_pair, ce_term. cbn.
  intros Hy. destruct (decide (y = pad)) as [|Hne]; [done|].
  destruct Hy as [|Hy]; [done|].
  destruct (Z.leb_spec 0 y); [|lia].
  destruct (lookup_lt_is_Some_2 row (Z.to_nat y)) as [zy Hzy]; [lia|].
  rewrite Hzy. by rewrite (nth_lookup_Some _ _ _ _ Hzy).
Qed.

Lemma nll_pairs_sum (pad : Z) (ps : list (vec * Z)) :
  Rsum ((nll_pair pad <$> ps).*1)
  = Rsum (ce_term <$> filter (fun p => p.2 <> pad) ps) /\
  sum_list ((nll_pair pad <$> ps).*2)
  = length (filter (fun p => p.2 <> pad) ps).
Proof.
  induction ps as [|p ps [IH1 IH2]]; [done|].
  rewrite filter_cons. cbn. unfold nll_pair at 1 3.
  destruct (decide (p.2 = pad)) as [Hp|Hp].
  - rewrite decide_False by tauto. cbn. rewrite IH2.
    split; [|done]. fold (Rsum ((nll_pair pad <$> ps).*1)). rewrite IH1. lra.
  - rewrite decide_True by done. cbn. rewrite IH2.
    split; [|done]. fold (Rsum ((nll_pair pad <$> ps).*1)). rewrite IH1. done.
Qed.

Lemma CrossEntropyLoss_spec (pad : Z) (rows : list vec) (labels : list Z) :
  length rows = length labels ->
  Forall (fun p => p.2 = pad \/ (0 <= p.2 < Z.of_nat (length p.1))%Z)
         (zip rows labels) ->
  CrossEntropyLoss pad rows labels = Ok (masked_mean_ce pad rows labels).
Proof.
  intros Hlen Hvalid. unfold CrossEntropyLoss.
  destruct (decide (length rows = length labels)); [|done].
  assert (mapM (nll_term pad) (zip rows labels)
          = Ok (nll_pair pad <$> zip rows labels)) as ->.
  { apply mapM_Ok, Forall2_fmap_r, Forall_Forall2_diag.
    eapply Forall_impl; [done|]. apply nll_term_Ok. }
  cbn. destruct (nll_pairs_sum pad (zip rows labels)) as [-> ->].
  unfold masked_mean_ce.
  destruct (filter _ (zip rows labels)) as [|p kept]; [done|].
  by rewrite decide_False by done.
Qed.

Lemma filter_none {A} (P : A -> Prop) `{!forall x, Decision (P x)}
    (l : list A) :
  Forall (fun x => ~ P x) l -> filter P l = [].
Proof.
  induction 1 as [|x l Hx _ IH]; [done|]. by rewrite filter_cons_False.
Qed.

Lemma elem_of_concat {A} (x : A) (ls : list (list A)) :
  x ∈ concat ls -> exists l, l ∈ ls /\ x ∈ l.
Proof.
  induction ls as [|l ls IH]; cbn; [by intros ?%elem_of_nil|].
  intros [Hx|Hx]%elem_of_app.
  - exists l. split; [by left|done].
  - destruct (IH Hx) as (l' & Hl' & Hx'). exists l'. split; [by right|done].
Qed.

Lemma masked_mean_ce_all_padding (pad : Z) (rows : list vec) (labels : list Z) :
  Forall (fun y => y = pad) labels -> masked_mean_ce pad rows labels = NaN.
Proof.
  intros Hpad. unfold masked_mean_ce.
  assert (filter (fun p : vec * Z => p.2 <> pad) (zip rows labels) = []) as ->;
    [|done].
  apply filter_none, Forall_forall. intros [row y] Hin Hne.
  apply elem_of_zip_r in Hin. cbn in *.
  by apply Hne, (proj1 (Forall_forall _ _) Hpad y).
Qed.

Lemma concat_length_uniform {A} (l : list (list A)) (n : nat) :
  Forall (fun r => length r = n) l -> length (concat l) = length l * n.
Proof.
  induction 1 as [|r l Hr _ IH]; [done|].
  cbn. rewrite length_app, IH. lia.
Qed.

Lemma Forall_concat {A} (P : A -> Prop) (l : list (list A)) :
  Forall (Forall P) l -> Forall P (concat l).
Proof.
  induction 1 as [|r l Hr _ IH]; [constructor|]. cbn. by apply Forall_app.
Qed.

Lemma view_rows_Ok (D : nat) (t : Tensor3 R) (rows : list vec) :
  view_rows D t = Ok rows <->
  t3_size2 t <> 0 /\ ~ (2 <= t3_size0 t /\ 2 <= t3_size1 t /\ D <> 0) /\
  rows = concat (t3_data t).
Proof.
  unfold view_rows.
  destruct (decide (t3_size2 t = 0)); [split; [done|tauto]|].
  destruct (decide (2 <= t3_size0 t /\ 2 <= t3_size1 t /\ D <> 0));
    [split; [done|tauto]|].
  split; [by intros [= <-]|by intros (_ & _ & ->)].
Qed.

Lemma forward_loss_spec (self : MolGPTModel) (input_ids : Tensor2 Z)
    (descriptors : Tensor2 R) (labels : Tensor2 Z) :
  wf_model self -> forward_ready self input_ids descriptors ->
  labels_ready self input_ids labels -> view_ready self input_ids ->
  exists out,
    forward self input_ids descriptors (Some labels) = Ok out /\
    loss out = Some (masked_mean_ce (padding_idx (config self))
                       (concat (t3_data (logits out)))
                       (concat (t2_data labels))) /\
    (Forall (Forall (fun y => y = padding_idx (config self))) (t2_data labels) ->
     loss out = Some NaN).
Proof.
  intros Hwf Hready ([Hl0 Hl1] & HlB & HlT & Hlv) [HV0 Hview].
  destruct (forward_spec self input_ids descriptors Hwf Hready)
    as (tok & ds & dr & _ & _ & _ & Htwf & Hrwf & [Ht0 Ht1] & [Hr0 Hr1] & Hfwd).
  destruct Hwf as (_ & _ & _ & (Hlm & HV) & _).
  destruct (logits_of_wf self dr tok Hlm Hrwf Htwf)
    as ([Hw0 Hw1] & Hs0 & Hs1 & Hs2); [lia|].
  exists {| loss := Some (masked_mean_ce (padding_idx (config self))
                            (concat (t3_data (logits_of self dr tok)))
                            (concat (t2_data labels)));
            logits := logits_of self dr tok |}.
  split; [|split; [done|]].
  - rewrite Hfwd. unfold forward_result.
    rewrite (proj2 (view_rows_Ok (t3_size1 dr) (logits_of self dr tok) _))
      by (split; [lia|split; [lia|done]]).
    cbn [mbind outcome_bind].
    rewrite CrossEntropyLoss_spec; [done| |].
    + rewrite (concat_length_uniform _ (t3_size1 (logits_of self dr tok))),
        (concat_length_uniform _ (t2_size1 labels)); [lia|done|].
      eapply Forall_impl; [done|]. by intros m [Hm _].
    + apply Forall_forall. intros [row y] Hin. cbn.
      pose proof (elem_of_zip_l _ _ _ _ Hin) as Hrow.
      pose proof (elem_of_zip_r _ _ _ _ Hin) as Hy.
      assert (length row = vocab_size (config self)) as ->.
      { apply elem_of_concat in Hrow as (m & Hm & Hrow).
        pose proof (proj1 (Forall_forall _ _) Hw1 m Hm) as [_ Hrows].
        rewrite (proj1 (Forall_forall _ _) Hrows row Hrow). congruence. }
      by apply (proj1 (Forall_forall _ _) (Forall_concat _ _ Hlv) y).
  - intros Hpad. cbn. f_equal.
    by apply masked_mean_ce_all_padding, Forall_concat.
Qed.

Lemma nll_term_Ok_inv (pad : Z) (p : vec * Z) (t : R * nat) :
  nll_term pad p = Ok t -> t = nll_pair pad p.
Proof.
  destruct p as [row y]. unfold nll_term, nll_pair, ce_term. cbn.
  destruct (decide (y = pad)); [by intros [= <-]|].
  destruct (Z.leb_spec 0 y); [|done].
  destruct (row !! Z.to_nat y) as [zy|] eqn:Hzy; [|done].
  intros [= <-]. by rewrite (nth_lookup_Some _ _ _ _ Hzy).
Qed.

Lemma Forall2_fmap_eq {A B} (f : A -> outcome B) (g : A -> B) (l : list A)
    (k : list B) :
  (forall x y, f x = Ok y -> y = g x) ->
  Forall2 (fun x y => f x = Ok y) l k -> k = g <$> l.
Proof.
  intros Hfg. induction 1 as [|x y l k Hxy _ IH]; [done|].
  cbn. by rewrite (Hfg x y Hxy), IH.
Qed.

Lemma CrossEntropyLoss_Ok (pad : Z) (rows : list vec) (labels : list Z)
    (l : scalar) :
  CrossEntropyLoss pad rows labels = Ok l ->
  l = masked_mean_ce pad rows labels.
Proof.
  unfold CrossEntropyLoss.
  destruct (decide (length rows = length labels)); [|done].
  intros (terms & Hterms & [= <-])%bind_Ok.
  apply mapM_Ok, (Forall2_fmap_eq _ (nll_pair pad)) in Hterms as ->;
    [|apply nll_term_Ok_inv].
  destruct (nll_pairs_sum pad (zip rows labels)) as [-> ->].
  unfold masked_mean_ce.
  destruct (filter _ (zip rows labels)) as [|p kept]; [done|].
  by rewrite decide_False by done.
Qed.

Lemma forward_loss_Ok (self : MolGPTModel) (input_ids : Tensor2 Z)
    (descriptors : Tensor2 R) (labels : Tensor2 Z) (out : CausalLMOutput) :
  forward self input_ids descriptors (Some labels) = Ok out ->
  loss out = Some (masked_mean_ce (padding_idx (config self))
                     (concat (t3_data (logits out)))
                     (concat (t2_data labels))).
Proof.
  intros (tok & ds & dr & _ & _ & _ & _ & Hres)%forward_Ok.
  cbn in Hres.
  apply bind_Ok in Hres as (input & (_ & _ & ->)%view_rows_Ok & Hres).
  apply bind_Ok in Hres as (l & Hl & [= <-]). cbn.
  by rewrite (CrossEntropyLoss_Ok _ _ _ _ Hl).
Qed.

(** Shape and range side conditions on concrete tensors and models. *)
Ltac shapes :=
  repeat match goal with
         | |- _ /\ _ => split
         | |- Forall _ _ => constructor
         | |- wf_model _ => red
         | |- wf_Embedding _ => red
         | |- wf_Linear _ => red
         | |- wf2 _ => red
         | |- valid_ids _ _ => red
         | |- forward_ready _ _ _ => red
         | |- generate_ready _ _ _ _ => red
         | |- labels_ready _ _ _ => red
         | |- shapes_ready _ _ _ => red
         | |- view_ready _ _ => red
         end;
  cbn;
  first [ reflexivity | lia | left; cbn; lia | right; cbn; lia ].

(** C3 as stated fails on a batch whose labels are all the padding index:
    the loss is the quotient 0/0, NaN, and no real number. *)
Lemma C3_padding_only_loss_counterexample :
  exists out,
    forward tiny_model tiny_ids tiny_desc (Some tiny_pad_labels) = Ok out /\
    Forall (Forall (fun y => y = padding_idx (config tiny_model)))
           (t2_data tiny_pad_labels) /\
    loss out = Some NaN /\ ~ (exists r, loss out = Some (Real r)).
Proof.
  destruct (forward_loss_spec tiny_model tiny_ids tiny_desc tiny_pad_labels)
    as (out & Hout & _ & Hnan); [shapes..|].
  assert (Forall (Forall (fun y => y = padding_idx (config tiny_model)))
                 (t2_data tiny_pad_labels)) as Hpad by shapes.
  exists out. split_and!; [done|done|by apply Hnan|].
  intros [r Hr]. rewrite (Hnan Hpad) in Hr. discriminate.
Qed.

(** C3, amended.  When labels are supplied and the forward pass returns,
    its loss is the average cross-entropy over the positions whose label
    differs from the padding index; it is NaN when there is no such
    position, as when every label is the padding index.  The forward pass
    returns when the inputs are ready, there is one label for each token
    position, each the padding index or a class index, and the token logits
    can be flattened by [view]: a batch of at most one example or of at
    most one token position, or a model without descriptors. *)
Theorem C3_loss_excludes_padding (self : MolGPTModel) (input_ids : Tensor2 Z)
    (descriptors : Tensor2 R) (labels : Tensor2 Z) :
  (forall out,
     forward self input_ids descriptors (Some labels) = Ok out ->
     loss out = Some (masked_mean_ce (padding_idx (config self))
                        (concat (t3_data (logits out)))
                        (concat (t2_data labels))) /\
     (Forall (Forall (fun y => y = padding_idx (config self)))
             (t2_data labels) ->
      loss out = Some NaN)) /\
  (wf_model self -> forward_ready self input_ids descriptors ->
   labels_ready self input_ids labels -> view_ready self input_ids ->
   exists out, forward self input_ids descriptors (Some labels) = Ok out).
Proof.
  split.
  - intros out Hout. pose proof (forward_loss_Ok _ _ _ _ _ Hout) as Hloss.
    split; [done|]. intros Hpad. rewrite Hloss. f_equal.
    by apply masked_mean_ce_all_padding, Forall_concat.
  - intros Hwf Hready Hlabels Hview.
    destruct (forward_loss_spec self input_ids descriptors labels)
      as (out & Hout & _); [done..|]. by exists out.
Qed.

Lemma C3_loss_excludes_padding_witness :
  (forall out,
     forward tiny_model tiny_ids tiny_desc (Some tiny_labels) = Ok out ->
     loss out = Some (masked_mean_ce (padding_idx (config tiny_model))
                        (concat (t3_data (logits out)))
                        (concat (t2_data tiny_labels))) /\
     (Forall (Forall (fun y => y = padding_idx (config tiny_model)))
             (t2_data tiny_labels) ->
      loss out = Some NaN)) /\
  (exists out, forward tiny_model tiny_ids tiny_desc (Some tiny_labels) = Ok out).
Proof.
  split.
  - apply (proj1 (C3_loss_excludes_padding tiny_model tiny_ids tiny_desc
                    tiny_labels)).
  - apply (proj2 (C3_loss_excludes_padding tiny_model tiny_ids tiny_desc
                    tiny_labels)); shapes.
Defined.

Lemma C5_logits_shape_witness :
  (forall labels out,
     forward tiny_model tiny_ids tiny_desc labels = Ok out ->
     t3_size0 (logits out) = 1 /\ t3_size1 (logits out) = 3 /\
     t3_size2 (logits out) = 3 /\ wf3 (logits out)) /\
  (exists out, forward tiny_model tiny_ids tiny_desc None = Ok out).
Proof.
  destruct (C5_logits_shape tiny_model tiny_ids tiny_desc) as [Hshape Hret];
    [shapes..|].
  split; [exact Hshape|]. apply Hret. shapes.
Defined.

Lemma C7_descriptor_dim_check_witness :
  (exists msg, DescriptorEncoder_forward tiny_encoder (T2 1 3 [[1; 2; 3]]%R)
               = Raise (AssertionError msg)) /\
  (exists emb,
     DescriptorEncoder_forward tiny_encoder tiny_desc = Ok emb /\
     t3_size0 emb = 1 /\ t3_size1 emb = 2 /\ t3_size2 emb = 2 /\ wf3 emb).
Proof.
  split.
  - apply (proj1 (proj1 (C7_descriptor_dim_check tiny_encoder
                           (T2 1 3 [[1; 2; 3]]%R)))). cbn. lia.
  - apply (proj2 (C7_descriptor_dim_check tiny_encoder tiny_desc)); shapes.
Defined.

(** ** Causality of the masked stack *)

Example causal_mask_3 :
  generate_causal_mask 3
  = [[Fin 0; NegInf; NegInf]; [Fin 0; Fin 0; NegInf]; [Fin 0; Fin 0; Fin 0]].
Proof. reflexivity. Qed.


Lemma agree_upto_le {A} (n m : nat) (x y : list A) :
  m <= n -> agree_upto n x y -> agree_upto m x y.
Proof.
  intros Hle [Hlen Htake]. split; [done|].
  rewrite <- (Nat.min_l m n) by done. by rewrite <- !take_take, Htake.
Qed.

Lemma agree_upto_lookup {A} (n i : nat) (x y : list A) :
  i < n -> agree_upto n x y -> x !! i = y !! i.
Proof.
  intros Hi [_ Htake].
  by rewrite <- (lookup_take_lt x n i), <- (lookup_take_lt y n i), Htake.
Qed.

Lemma agree_upto_fmap {A B} (f : A -> B) (n : nat) (x y : list A) :
  agree_upto n x y -> agree_upto n (f <$> x) (f <$> y).
Proof.
  intros [Hlen Htake]. split.
  - by rewrite !length_fmap.
  - by rewrite <- !fmap_take, Htake.
Qed.

Lemma agree_upto_zip_with {A B C} (f : A -> B -> C) (n : nat)
    (x y : list A) (u v : list B) :
  agree_upto n x y -> agree_upto n u v ->
  agree_upto n (zip_with f x u) (zip_with f y v).
Proof.
  intros [Hlen Htake] [Hlen' Htake']. split.
  - rewrite !length_zip_with. lia.
  - by rewrite !zip_with_take, Htake, Htake'.
Qed.

Lemma agree_upto_same_None {A} (n i : nat) (x y : list A) :
  agree_upto n x y -> x !! i = None -> y !! i = None.
Proof.
  intros [Hlen _] Hx. apply lookup_ge_None in Hx. apply lookup_ge_None. lia.
Qed.

(** The entries of row [i] of the causal mask. *)
Lemma causal_mask_entry (L i j : nat) (mrow : list ereal) (m : ereal) :
  generate_causal_mask L !! i = Some mrow -> mrow !! j = Some m ->
  m = if decide (i + 1 <= j) then NegInf else Fin 0.
Proof.
  unfold generate_causal_mask, triu, full. rewrite list_lookup_imap.
  intros (row & Hrow & ->)%fmap_Some.
  apply lookup_replicate in Hrow as [-> _].
  rewrite list_lookup_imap. intros (x & Hx & ->)%fmap_Some.
  apply lookup_replicate in Hx as [-> _]. by destruct (decide _).
Qed.

(** Scores that agree up to position [i] are the same once row [i] of the
    mask is added. *)
Lemma masked_scores_agree (L i : nat) (mrow : list ereal) (s s' : list R) :
  generate_causal_mask L !! i = Some mrow -> agree_upto (S i) s s' ->
  zip_with eadd s mrow = zip_with eadd s' mrow.
Proof.
  intros Hrow Hagree. apply list_eq. intros j. rewrite !lookup_zip_with.
  destruct (decide (j < S i)) as [Hj|Hj].
  { by rewrite (agree_upto_lookup (S i) j s s'). }
  destruct (s !! j) as [x|] eqn:Hx; cbn.
  - destruct (s' !! j) as [x'|] eqn:Hx'; cbn.
    + destruct (mrow !! j) as [m|] eqn:Hm; cbn; [|done].
      rewrite (causal_mask_entry L i j mrow m Hrow Hm).
      by rewrite decide_True by lia.
    + apply lookup_lt_Some in Hx. apply lookup_ge_None in Hx'.
      destruct Hagree as [Hlen _]. lia.
  - by rewrite (agree_upto_same_None (S i) j s s').
Qed.

(** The softmax weight of a masked position is 0. *)
Lemma masked_weight_zero (L i j : nat) (mrow : list ereal) (s : list R)
    (w : R) :
  generate_causal_mask L !! i = Some mrow -> S i <= j ->
  softmax_masked (zip_with eadd s mrow) !! j = Some w -> w = 0%R.
Proof.
  intros Hrow Hj. unfold softmax_masked. rewrite list_lookup_fmap.
  intros (e & He & ->)%fmap_Some.
  apply lookup_zip_with_Some in He as (x & m & -> & _ & Hm).
  rewrite (causal_mask_entry L i j mrow m Hrow Hm).
  rewrite decide_True by lia. cbn. unfold Rdiv. ring.
Qed.

Lemma attend_agree (L i head_dim : nat) (mrow : list ereal) (q : vec)
    (ks ks' vs vs' : list vec) :
  generate_causal_mask L !! i = Some mrow ->
  agree_upto (S i) ks ks' -> agree_upto (S i) vs vs' ->
  attend head_dim q ks vs mrow = attend head_dim q ks' vs' mrow.
Proof.
  intros Hrow Hks Hvs. unfold attend.
  rewrite (masked_scores_agree L i mrow _
             ((fun k => (dot q k / sqrt (INR head_dim))%R) <$> ks') Hrow)
    by by apply agree_upto_fmap.
  apply list_fmap_ext. intros _ c _. f_equal.
  apply list_eq. intros j. rewrite !lookup_zip_with.
  destruct (decide (j < S i)) as [Hj|Hj].
  { by rewrite (agree_upto_lookup (S i) j vs vs'). }
  destruct (softmax_masked _ !! j) as [w|] eqn:Hw; cbn; [|done].
  apply (masked_weight_zero L i j mrow) in Hw as ->; [|done|lia].
  destruct (vs !! j) as [v|] eqn:Hv; cbn.
  - destruct (vs' !! j) as [v'|] eqn:Hv'; cbn.
    + f_equal. ring.
    + apply lookup_lt_Some in Hv. apply lookup_ge_None in Hv'.
      destruct Hvs as [Hlen _]. lia.
  - by rewrite (agree_upto_same_None (S i) j vs vs').
Qed.

Lemma MultiheadAttention_forward_agree (self : MultiheadAttention)
    (L n : nat) (x y : list vec) :
  agree_upto n x y ->
  agree_upto n (MultiheadAttention_forward self x (generate_causal_mask L))
               (MultiheadAttention_forward self y (generate_causal_mask L)).
Proof.
  intros Hxy. split.
  { rewrite !MultiheadAttention_forward_length. destruct Hxy. lia. }
  apply list_eq. intros i.
  destruct (decide (i < n)) as [Hi|Hi];
    [|by rewrite !lookup_take_ge by lia].
  rewrite !lookup_take_lt by done.
  unfold MultiheadAttention_forward. rewrite !lookup_zip_with.
  rewrite !list_lookup_fmap, <- (agree_upto_lookup n i x y Hi Hxy).
  destruct (x !! i) as [xi|]; cbn; [|done].
  destruct (generate_causal_mask L !! i) as [mrow|] eqn:Hrow; cbn; [|done].
  do 3 f_equal. apply list_fmap_ext. intros _ h _.
  apply (attend_agree L i); [done|..];
    do 3 apply agree_upto_fmap; apply (agree_upto_le n); (lia || done).
Qed.

Lemma TransformerEncoderLayer_forward_agree (self : TransformerEncoderLayer)
    (L n : nat) (x y : list vec) :
  agree_upto n x y ->
  agree_upto n
    (TransformerEncoderLayer_forward self x (generate_causal_mask L))
    (TransformerEncoderLayer_forward self y (generate_causal_mask L)).
Proof.
  intros Hxy. unfold TransformerEncoderLayer_forward, dropout.
  apply agree_upto_fmap, agree_upto_zip_with; [done|].
  by apply MultiheadAttention_forward_agree.
Qed.

Lemma stack_agree (layers : list TransformerEncoderLayer) (L n : nat)
    (x y : list vec) :
  agree_upto n x y ->
  agree_upto n
    (foldl (fun h layer =>
              TransformerEncoderLayer_forward layer h (generate_causal_mask L))
           x layers)
    (foldl (fun h layer =>
              TransformerEncoderLayer_forward layer h (generate_causal_mask L))
           y layers).
Proof.
  revert x y. induction layers as [|layer layers IH]; intros x y Hxy; [done|].
  cbn [foldl]. by apply IH, TransformerEncoderLayer_forward_agree.
Qed.

Lemma example_logits_agree (self : MolGPTModel) (L D i : nat) (x y : list vec) :
  agree_upto (D + S i) x y ->
  example_logits self L D x !! i = example_logits self L D y !! i.
Proof.
  intros Hxy. unfold example_logits. rewrite !lookup_drop.
  apply (agree_upto_lookup (D + S i)); [lia|].
  by apply agree_upto_fmap, stack_agree.
Qed.

(** ** Token embeddings are position-wise *)

Lemma Forall2_functional {A B} (f : A -> outcome B) (l : list A)
    (k k' : list B) :
  Forall2 (fun a b => f a = Ok b) l k -> Forall2 (fun a b => f a = Ok b) l k' ->
  k = k'.
Proof.
  intros Hk. revert k'. induction Hk as [|a b l k Hab _ IH]; intros k' Hk'.
  - by inversion Hk'.
  - inversion Hk' as [|a' b' l' k'' Hab' Hk'']; subst.
    f_equal; [congruence|]. by apply IH.
Qed.

Lemma token_rows_agree (e : Embedding) (n : nat) (r1 r2 : list Z)
    (m1 m2 : list vec) :
  Forall2 (fun i v => Embedding_lookup e i = Ok v) r1 m1 ->
  Forall2 (fun i v => Embedding_lookup e i = Ok v) r2 m2 ->
  agree_upto n r1 r2 -> agree_upto n m1 m2.
Proof.
  intros H1 H2 [Hlen Htake]. split.
  - rewrite <- (Forall2_length _ _ _ H1), <- (Forall2_length _ _ _ H2). done.
  - apply (Forall2_functional (Embedding_lookup e) (take n r1)).
    + by apply Forall2_take.
    + rewrite Htake. by apply Forall2_take.
Qed.

Lemma token_segment_agree (self : MolGPTEmbeddings) (ids1 ids2 : Tensor2 Z)
    (tok1 tok2 : Tensor3 R) (n b : nat) (t1 t2 : list vec) :
  MolGPTEmbeddings_forward self ids1 = Ok tok1 ->
  MolGPTEmbeddings_forward self ids2 = Ok tok2 ->
  t2_size0 ids1 = t2_size0 ids2 -> t2_size1 ids1 = t2_size1 ids2 ->
  (forall r1 r2, t2_data ids1 !! b = Some r1 -> t2_data ids2 !! b = Some r2 ->
                 agree_upto n r1 r2) ->
  t3_data tok1 !! b = Some t1 -> t3_data tok2 !! b = Some t2 ->
  agree_upto n t1 t2.
Proof.
  intros (tk1 & pos1 & Htk1 & Hpos1 & ->)%MolGPTEmbeddings_forward_Ok
         (tk2 & pos2 & Htk2 & Hpos2 & ->)%MolGPTEmbeddings_forward_Ok
         HB HT Hrows. cbn.
  rewrite HB, HT, Hpos2 in Hpos1. injection Hpos1 as <-.
  apply Embedding_forward_Ok in Htk1 as (d1 & Hd1 & ->).
  apply Embedding_forward_Ok in Htk2 as (d2 & Hd2 & ->). cbn.
  intros (m1 & p & -> & Hm1 & Hp)%lookup_zip_with_Some
         (m2 & p' & -> & Hm2 & Hp')%lookup_zip_with_Some.
  assert (p' = p) as -> by congruence.
  destruct (Forall2_lookup_r _ _ _ _ _ Hd1 Hm1) as (r1 & Hr1 & Hrm1).
  destruct (Forall2_lookup_r _ _ _ _ _ Hd2 Hm2) as (r2 & Hr2 & Hrm2).
  apply agree_upto_zip_with; [|done].
  by apply (token_rows_agree (token_embeddings self) n r1 r2), Hrows.
Qed.

Lemma agree_upto_app {A} (n : nat) (d x y : list A) :
  agree_upto n x y -> agree_upto (length d + n) (d ++ x) (d ++ y).
Proof.
  intros [Hlen Htake]. split.
  - rewrite !length_app. lia.
  - rewrite !take_app, !take_ge by lia.
    replace (length d + n - length d) with n by lia. by rewrite Htake.
Qed.

Lemma forward_noninterference (self : MolGPTModel) (ids1 ids2 : Tensor2 Z)
    (descriptors : Tensor2 R) (i : nat) :
  wf_model self ->
  forward_ready self ids1 descriptors -> forward_ready self ids2 descriptors ->
  t2_size1 ids1 = t2_size1 ids2 ->
  (forall b r1 r2, t2_data ids1 !! b = Some r1 -> t2_data ids2 !! b = Some r2 ->
                   take (S i) r1 = take (S i) r2) ->
  forall labels1 labels2 out1 out2,
    forward self ids1 descriptors labels1 = Ok out1 ->
    forward self ids2 descriptors labels2 = Ok out2 ->
    forall b, logits_at out1 b i = logits_at out2 b i.
Proof.
  intros Hwf Hready1 Hready2 HT Hfixed labels1 labels2 out1 out2 Hout1 Hout2 b.
  destruct (forward_spec self ids1 descriptors Hwf Hready1)
    as (tok1 & ds & dr & Htok1 & Hds & Hdr & [Hw1 _] & [_ Hrwf] & [Ht0 Ht1]
        & [Hr0 Hr1] & Hfwd1).
  destruct (forward_spec self ids2 descriptors Hwf Hready2)
    as (tok2 & ds' & dr' & Htok2 & Hds' & Hdr' & [Hw2 _] & _ & [Ht0' Ht1']
        & _ & Hfwd2).
  assert (ds' = ds) as -> by congruence.
  assert (dr' = dr) as -> by congruence.
  rewrite Hfwd1 in Hout1. rewrite Hfwd2 in Hout2.
  apply forward_logits in Hout1, Hout2.
  destruct Hready1 as ([_ Hrows1] & _ & HB1 & _).
  destruct Hready2 as ([_ Hrows2] & _ & HB2 & _).
  unfold logits_at. rewrite Hout1, Hout2. unfold logits_of. cbn.
  rewrite !list_lookup_fmap, !lookup_zip_with.
  destruct (t3_data dr !! b) as [d|] eqn:Hd; cbn; [|done].
  pose proof (proj1 (Forall_lookup _ _) Hrwf b d Hd) as [Hdlen _].
  destruct (t3_data tok1 !! b) as [t1|] eqn:Hb1;
    destruct (t3_data tok2 !! b) as [t2|] eqn:Hb2; cbn.
  - replace (t3_size1 tok2) with (t3_size1 tok1) by lia.
    rewrite <- Hdlen. apply example_logits_agree, agree_upto_app.
    eapply (token_segment_agree (embeddings self) ids1 ids2); [done..|lia|done| |done|done].
    intros r1 r2 Hrow1 Hrow2. split; [|by eapply Hfixed].
    rewrite (proj1 (Forall_lookup _ _) Hrows1 b r1 Hrow1).
    rewrite (proj1 (Forall_lookup _ _) Hrows2 b r2 Hrow2). done.
  - apply lookup_lt_Some in Hb1. apply lookup_ge_None in Hb2. lia.
  - apply lookup_lt_Some in Hb2. apply lookup_ge_None in Hb1. lia.
  - done.
Qed.

(** C1.  Causal-mask noninterference: take two batches of token sequences
    of the same length and the same descriptors.  When the two batches agree
    at every position up to [i], the logits that the forward pass returns at
    position [i] of every example are the same for both, whatever the tokens
    after position [i] are; and the forward pass returns on ready inputs. *)
Theorem C1_causal_noninterference (self : MolGPTModel) (ids1 ids2 : Tensor2 Z)
    (descriptors : Tensor2 R) (i : nat) :
  wf_model self -> wf2 ids1 -> wf2 ids2 -> wf2 descriptors ->
  t2_size1 ids1 = t2_size1 ids2 ->
  (forall b r1 r2, t2_data ids1 !! b = Some r1 -> t2_data ids2 !! b = Some r2 ->
                   take (S i) r1 = take (S i) r2) ->
  (forall labels1 labels2 out1 out2,
     forward self ids1 descriptors labels1 = Ok out1 ->
     forward self ids2 descriptors labels2 = Ok out2 ->
     forall b, logits_at out1 b i = logits_at out2 b i) /\
  (forward_ready self ids1 descriptors -> forward_ready self ids2 descriptors ->
   exists out1 out2,
     forward self ids1 descriptors None = Ok out1 /\
     forward self ids2 descriptors None = Ok out2).
Proof.
  intros Hwf Hids1 Hids2 Hdesc HT Hfixed. split.
  - intros labels1 labels2 out1 out2 Hout1 Hout2.
    apply (forward_noninterference self ids1 ids2 descriptors i Hwf
             (forward_Ok_ready _ _ _ _ _ Hwf Hids1 Hdesc Hout1)
             (forward_Ok_ready _ _ _ _ _ Hwf Hids2 Hdesc Hout2)
             HT Hfixed labels1 labels2 out1 out2 Hout1 Hout2).
  - intros Hready1 Hready2.
    destruct (forward_total self ids1 descriptors Hwf Hready1) as (o1 & H1 & _).
    destruct (forward_total self ids2 descriptors Hwf Hready2) as (o2 & H2 & _).
    by exists o1, o2.
Qed.

Lemma C1_causal_noninterference_witness :
  (forall labels1 labels2 out1 out2,
     forward tiny_model tiny_ids tiny_desc labels1 = Ok out1 ->
     forward tiny_model tiny_ids' tiny_desc labels2 = Ok out2 ->
     forall b, logits_at out1 b 1 = logits_at out2 b 1) /\
  (exists out1 out2,
     forward tiny_model tiny_ids tiny_desc None = Ok out1 /\
     forward tiny_model tiny_ids' tiny_desc None = Ok out2).
Proof.
  destruct (C1_causal_noninterference tiny_model tiny_ids tiny_ids' tiny_desc 1)
    as [Hsame Hret]; [shapes..| |].
  - intros [|b] r1 r2 [= <-] [= <-]; reflexivity.
  - split; [exact Hsame|]. apply Hret; shapes.
Defined.

(** ** Greedy generation: the loop *)

Lemma argmax_from_lt (l : vec) (best_i i : nat) (best : R) :
  best_i < i -> argmax_from best_i best i l < i + length l.
Proof.
  revert best_i i best. induction l as [|x l IH]; intros best_i i best Hlt; cbn.
  - lia.
  - destruct (Rlt_dec best x).
    + specialize (IH i (S i) x). lia.
    + specialize (IH best_i (S i) best). lia.
Qed.

Lemma argmax_lt (l : vec) : 0 < length l -> argmax l < length l.
Proof.
  destruct l as [|x l]; cbn; [lia|]. intros _.
  pose proof (argmax_from_lt l 0 1 x). lia.
Qed.

Lemma generate_ready_forward (self : MolGPTModel) (g : Tensor2 Z)
    (descriptors : Tensor2 R) (n : nat) :
  generate_ready self g descriptors (S n) -> forward_ready self g descriptors.
Proof.
  intros (Hg & Hd & HB & HD & Hv & Hnan & _ & _ & Hpos).
  split_and!; [done..| |done]. right. lia.
Qed.

Lemma next_token_total (self : MolGPTModel) (g : Tensor2 Z)
    (descriptors : Tensor2 R) (n : nat) :
  wf_model self -> generate_ready self g descriptors (S n) ->
  exists next,
    next_token self g descriptors = Ok next /\ wf2 next /\
    t2_size0 next = t2_size0 g /\ t2_size1 next = 1 /\ valid_ids self next.
Proof.
  intros Hwf Hready.
  destruct (forward_total self g descriptors Hwf
              (generate_ready_forward _ _ _ _ Hready))
    as (out & Hout & [Hl0 Hl1] & Hs0 & Hs1 & Hs2).
  destruct Hready as (_ & _ & _ & _ & _ & _ & HV & HT & _).
  unfold next_token. rewrite Hout. cbn.
  rewrite decide_False by lia. rewrite decide_False by lia.
  eexists. split; [done|]. cbn. split_and!; [|done|done|].
  - split; cbn; [by rewrite length_fmap|].
    apply Forall_fmap, Forall_forall. by intros ex _.
  - unfold valid_ids. cbn. apply Forall_fmap, Forall_forall. intros ex Hex.
    cbn. constructor; [|constructor].
    pose proof (proj1 (Forall_forall _ _) Hl1 ex Hex) as [Hlen Hrows].
    destruct (last ex) as [row|] eqn:Hlast.
    + cbn. apply last_Some_elem_of in Hlast.
      pose proof (proj1 (Forall_forall _ _) Hrows row Hlast) as Hrow.
      cbn beta in Hrow. pose proof (argmax_lt row). lia.
    + apply last_None in Hlast. subst ex. cbn in Hlen. lia.
Qed.

Lemma cat1_2_column (self : MolGPTModel) (g next : Tensor2 Z) :
  wf2 g -> wf2 next -> t2_size0 next = t2_size0 g -> t2_size1 next = 1 ->
  valid_ids self g -> valid_ids self next ->
  exists g',
    cat1_2 g next = Ok g' /\ wf2 g' /\ valid_ids self g' /\
    t2_size0 g' = t2_size0 g /\ t2_size1 g' = S (t2_size1 g) /\
    forall b r, t2_data g !! b = Some r ->
                t2_data g' !! b = Some (r ++ default [] (t2_data next !! b)).
Proof.
  intros [Hg0 Hg1] [Hn0 Hn1] HB HT Hvg Hvn. unfold cat1_2.
  rewrite decide_True by done. eexists. split; [done|]. cbn.
  split_and!; [| |done|lia|].
  - split; cbn; [rewrite length_zip_with_l_eq; lia|].
    apply Forall_zip_with_lookup. intros b r c Hr Hc. rewrite length_app.
    rewrite (proj1 (Forall_lookup _ _) Hg1 b r Hr).
    by rewrite (proj1 (Forall_lookup _ _) Hn1 b c Hc).
  - apply Forall_zip_with_lookup. intros b r c Hr Hc. apply Forall_app. split.
    + by apply (proj1 (Forall_lookup _ _) Hvg b).
    + by apply (proj1 (Forall_lookup _ _) Hvn b).
  - intros b r Hr. rewrite lookup_zip_with, Hr. cbn.
    destruct (lookup_lt_is_Some_2 (t2_data next) b) as [c ->]; [|done].
    apply lookup_lt_Some in Hr. lia.
Qed.

Lemma generate_loop_spec (self : MolGPTModel) (descriptors : Tensor2 R)
    (n : nat) (g : Tensor2 Z) :
  wf_model self -> generate_ready self g descriptors n ->
  exists cols out,
    generate_loop self descriptors n g = Ok out /\
    greedy_steps self descriptors g cols out /\
    length cols <= n /\
    (forall j next, j + 1 < length cols -> cols !! j = Some next ->
                    all_padding self next = false) /\
    (length cols < n ->
     exists next, last cols = Some next /\ all_padding self next = true) /\
    wf2 out /\ t2_size0 out = t2_size0 g /\
    t2_size1 out = t2_size1 g + length cols /\
    (forall b r, t2_data g !! b = Some r ->
                 t2_data out !! b = Some (r ++ appended cols b)).
Proof.
  intros Hwf. revert g. induction n as [|n IH]; intros g Hready.
  { exists [], g. cbn. split_and!; [done|constructor|lia|intros; lia|lia| |done|lia|].
    - by destruct Hready as (? & _).
    - intros b r ->. unfold appended. cbn. by rewrite app_nil_r. }
  destruct (next_token_total self g descriptors n Hwf Hready)
    as (next & Hnext & Hnwf & Hn0 & Hn1 & Hnv).
  pose proof Hready as (Hg & Hd & HB & HD & Hv & Hnan & HV & HT & Hpos).
  destruct (cat1_2_column self g next Hg Hnwf Hn0 Hn1 Hv Hnv)
    as (g' & Hcat & Hg'wf & Hg'v & Hg'0 & Hg'1 & Hrows).
  cbn [generate_loop]. rewrite Hnext. cbn. rewrite Hcat. cbn.
  destruct (all_padding self next) eqn:Hpad.
  - exists [next], g'. cbn [length].
    split_and!; [done|by repeat econstructor|lia|intros; lia| |done|done|lia|].
    + intros _. by exists next.
    + intros b r Hr. rewrite (Hrows b r Hr). unfold appended. cbn.
      by rewrite app_nil_r.
  - destruct (IH g') as (cols & out & Hloop & Hsteps & Hlen & Hmid & Hlast
                         & Howf & Ho0 & Ho1 & Hout).
    { split_and!; [done|done|congruence|done|done| |done|lia|lia].
      destruct Hnan as [?|?]; [left; congruence|by right]. }
    exists (next :: cols), out. cbn [length].
    split_and!; [done|by econstructor|lia| | |done|congruence|lia|].
    + intros [|j] c Hj Hc; cbn in Hc.
      * by injection Hc as <-.
      * apply (Hmid j); [lia|done].
    + intros Hlt. destruct Hlast as (c & Hc & Hcp); [lia|].
      exists c. split; [|done]. destruct cols; [done|]. done.
    + intros b r Hr. rewrite (Hout b _ (Hrows b r Hr)).
      unfold appended. cbn. by rewrite <- app_assoc.
Qed.

(** What a run of the loop that returns has done, on any input. *)
Lemma next_token_size1 (self : MolGPTModel) (g next : Tensor2 Z)
    (descriptors : Tensor2 R) :
  next_token self g descriptors = Ok next -> t2_size1 next = 1.
Proof.
  unfold next_token.
  destruct (forward self g descriptors None) as [outputs| |e]; [| |done].
  - destruct (decide (t3_size1 (logits outputs) = 0)); [done|].
    destruct (decide (t3_size2 (logits outputs) = 0)); [done|].
    by intros [= <-].
  - destruct (decide (t2_size1 g = 0)); [done|].
    destruct (decide (out_features (lm_head self) = 0)); [done|].
    by intros [= <-].
Qed.

Lemma next_token_rows (self : MolGPTModel) (g next : Tensor2 Z)
    (descriptors : Tensor2 R) :
  next_token self g descriptors = Ok next ->
  Forall (fun row => length row = 1) (t2_data next).
Proof.
  unfold next_token.
  destruct (forward self g descriptors None) as [outputs| |e]; [| |done].
  - destruct (decide (t3_size1 (logits outputs) = 0)); [done|].
    destruct (decide (t3_size2 (logits outputs) = 0)); [done|].
    intros [= <-]. cbn. apply Forall_fmap, Forall_forall. by intros ex _.
  - destruct (decide (t2_size1 g = 0)); [done|].
    destruct (decide (out_features (lm_head self) = 0)); [done|].
    intros [= <-]. cbn. apply Forall_forall.
    by intros row [-> _]%elem_of_replicate.
Qed.

(** The stop test of the loop: every token of the column is the padding
    index. *)
Lemma all_padding_spec (self : MolGPTModel) (next : Tensor2 Z) :
  all_padding self next = true <->
  Forall (Forall (fun y => y = padding_idx (config self))) (t2_data next).
Proof.
  unfold all_padding.
  induction (t2_data next) as [|row rows IH]; cbn.
  { split; [constructor|done]. }
  rewrite andb_true_iff, IH, Forall_cons. apply and_iff_compat_r.
  clear IH. induction row as [|y row IH]; cbn.
  { split; [constructor|done]. }
  rewrite andb_true_iff, IH, Forall_cons, Z.eqb_eq.
  split; intros [? ?]; split; congruence.
Qed.

Lemma all_padding_false (self : MolGPTModel) (next : Tensor2 Z) :
  all_padding self next = false <->
  Exists (Exists (fun y => y <> padding_idx (config self))) (t2_data next).
Proof.
  split.
  - intros Hf.
    assert (~ Forall (Forall (fun y => y = padding_idx (config self)))
                     (t2_data next)) as Hno.
    { rewrite <- all_padding_spec. congruence. }
    apply not_Forall_Exists in Hno; [|apply _].
    eapply Exists_impl; [exact Hno|]. intros row Hrow. cbn in Hrow.
    apply not_Forall_Exists in Hrow; [|apply _]. exact Hrow.
  - intros Hex. destruct (all_padding self next) eqn:Hp; [|done].
    apply all_padding_spec in Hp. exfalso.
    apply Exists_exists in Hex as (row & Hin & Hrow).
    apply Exists_exists in Hrow as (y & Hy & Hne). apply Hne.
    eapply Forall_forall in Hp; [|exact Hin].
    by eapply Forall_forall in Hp; [|exact Hy].
Qed.

Lemma cat1_2_Ok {A} (g next g' : Tensor2 A) :
  cat1_2 g next = Ok g' ->
  t2_size0 g' = t2_size0 g /\ t2_size1 g' = t2_size1 g + t2_size1 next /\
  t2_data g' = zip_with app (t2_data g) (t2_data next).
Proof.
  unfold cat1_2. destruct (decide (t2_size0 g = t2_size0 next)); [|done].
  by intros [= <-].
Qed.

Lemma generate_loop_Ok (self : MolGPTModel) (descriptors : Tensor2 R)
    (n : nat) (g out : Tensor2 Z) :
  generate_loop self descriptors n g = Ok out ->
  exists cols,
    greedy_steps self descriptors g cols out /\
    length cols <= n /\
    (forall j next, j + 1 < length cols -> cols !! j = Some next ->
                    all_padding self next = false) /\
    (length cols < n ->
     exists next, last cols = Some next /\ all_padding self next = true) /\
    t2_size0 out = t2_size0 g /\
    t2_size1 out = t2_size1 g + length cols /\
    (forall b row, t2_data out !! b = Some row ->
                   exists r, t2_data g !! b = Some r /\
                             row = r ++ appended cols b).
Proof.
  revert g. induction n as [|n IH]; intros g; cbn [generate_loop].
  { intros [= <-]. exists []. cbn.
    split_and!; [constructor|lia|intros; lia|lia|done|lia|].
    intros b row ->. exists row. unfold appended. cbn. by rewrite app_nil_r. }
  intros (next & Hnext & (g' & Hcat & Hrest)%bind_Ok)%bind_Ok.
  pose proof (next_token_size1 _ _ _ _ Hnext) as Hn1.
  pose proof (cat1_2_Ok _ _ _ Hcat) as (Hg0 & Hg1 & Hgd).
  assert (forall b row', t2_data g' !! b = Some row' ->
            exists r, t2_data g !! b = Some r /\
                      row' = r ++ default [] (t2_data next !! b)) as Hrows.
  { intros b row'. rewrite Hgd.
    intros (r & c & -> & Hr & Hc)%lookup_zip_with_Some.
    exists r. by rewrite Hc. }
  destruct (all_padding self next) eqn:Hpad.
  - injection Hrest as <-. exists [next]. cbn [length].
    split_and!; [by repeat econstructor|lia|intros; lia| |done|lia|].
    + intros _. by exists next.
    + intros b row Hrow. destruct (Hrows b row Hrow) as (r & Hr & ->).
      exists r. split; [done|]. unfold appended. cbn. by rewrite app_nil_r.
  - destruct (IH g' Hrest)
      as (cols & Hsteps & Hlen & Hmid & Hlast & Ho0 & Ho1 & Hout).
    exists (next :: cols). cbn [length].
    split_and!; [by econstructor|lia| | |congruence|lia|].
    + intros [|j] c Hj Hc; cbn in Hc.
      * by injection Hc as <-.
      * apply (Hmid j); [lia|done].
    + intros Hlt. destruct Hlast as (c & Hc & Hcp); [lia|].
      exists c. split; [|done]. by destruct cols.
    + intros b row Hrow. destruct (Hout b row Hrow) as (r' & Hr' & ->).
      destruct (Hrows b r' Hr') as (r & Hr & ->).
      exists r. split; [done|]. unfold appended. cbn. by rewrite <- app_assoc.
Qed.

(** The last token of every sequence that the loop returns is the token of
    the last column. *)
Lemma greedy_steps_last (self : MolGPTModel) (descriptors : Tensor2 R)
    (g : Tensor2 Z) (cols : list (Tensor2 Z)) (out next : Tensor2 Z) :
  greedy_steps self descriptors g cols out -> last cols = Some next ->
  forall b row, t2_data out !! b = Some row ->
    exists y, t2_data next !! b = Some [y] /\ last row = Some y.
Proof.
  induction 1 as [g|g next0 g' cols out Hnext Hcat Hsteps IH]; [done|].
  intros Hlast b row Hrow. destruct cols as [|c cols].
  - injection Hlast as ->. inversion Hsteps; subst.
    apply cat1_2_Ok in Hcat as (_ & _ & Hd). rewrite Hd in Hrow.
    apply lookup_zip_with_Some in Hrow as (r & c & -> & _ & Hc).
    pose proof (proj1 (Forall_lookup _ _) (next_token_rows _ _ _ _ Hnext)
                  b c Hc) as Hlen.
    cbn beta in Hlen. destruct c as [|y [|y' c]]; cbn in Hlen; [lia| |lia].
    exists y. split; [done|]. by rewrite last_snoc.
  - by apply IH.
Qed.

(** C4.  Generation termination: a call of [generate] that returns has
    appended at most [max_length] columns of tokens.  Every column before
    the last one holds a token other than the padding index.  When fewer
    than [max_length] columns were appended, every token of the last column
    is the padding index, and so is the last token of every returned
    sequence: the loop stops at the first column in which every example
    holds the padding index, and not before.  On ready inputs the call
    returns. *)
Theorem C4_generation_termination (self : MolGPTModel) (input_ids : Tensor2 Z)
    (descriptors : Tensor2 R) (max_length : Z) :
  (forall out,
     generate self input_ids descriptors max_length = Ok out ->
     exists cols,
       greedy_steps self descriptors input_ids cols out /\
       t2_size1 out = t2_size1 input_ids + length cols /\
       length cols <= Z.to_nat max_length /\
       (forall j next, j + 1 < length cols -> cols !! j = Some next ->
          Exists (Exists (fun y => y <> padding_idx (config self)))
                 (t2_data next)) /\
       (length cols < Z.to_nat max_length ->
        exists next,
          last cols = Some next /\
          Forall (Forall (fun y => y = padding_idx (config self)))
                 (t2_data next) /\
          forall b row, t2_data out !! b = Some row ->
                        last row = Some (padding_idx (config self)))) /\
  (wf_model self ->
   generate_ready self input_ids descriptors (Z.to_nat max_length) ->
   exists out, generate self input_ids descriptors max_length = Ok out).
Proof.
  split.
  - intros out Hout.
    destruct (generate_loop_Ok self descriptors _ input_ids out Hout)
      as (cols & Hsteps & Hlen & Hmid & Hlast & _ & Hsize & _).
    exists cols. split; [done|]. split; [done|]. split; [done|]. split.
    + intros j next Hj Hnext. by apply all_padding_false, (Hmid j).
    + intros Hlt. destruct (Hlast Hlt) as (next & Hnext & Hpad).
      apply all_padding_spec in Hpad.
      exists next. split; [done|]. split; [done|].
      intros b row Hrow.
      destruct (greedy_steps_last _ _ _ _ _ _ Hsteps Hnext b row Hrow)
        as (y & Hy & ->).
      pose proof (proj1 (Forall_lookup _ _) Hpad b [y] Hy) as Hrowpad.
      apply Forall_cons in Hrowpad as [-> _]. done.
  - intros Hwf Hready.
    destruct (generate_loop_spec self descriptors _ input_ids Hwf Hready)
      as (cols & out & Hloop & _). by exists out.
Qed.

(** C10.  Generation preserves the prompt: every sequence that [generate]
    returns is a prompt of the batch, unchanged, followed by the tokens of
    the appended columns, each column being the arg-max [next_token] of the
    sequence before it.  On ready inputs the call returns one sequence for
    each prompt. *)
Theorem C10_generation_preserves_prompt (self : MolGPTModel)
    (input_ids : Tensor2 Z) (descriptors : Tensor2 R) (max_length : Z) :
  (forall out,
     generate self input_ids descriptors max_length = Ok out ->
     exists cols,
       greedy_steps self descriptors input_ids cols out /\
       t2_size0 out = t2_size0 input_ids /\
       forall b row, t2_data out !! b = Some row ->
         exists r, t2_data input_ids !! b = Some r /\
                   row = r ++ appended cols b /\ take (length r) row = r) /\
  (wf_model self ->
   generate_ready self input_ids descriptors (Z.to_nat max_length) ->
   exists out,
     generate self input_ids descriptors max_length = Ok out /\
     length (t2_data out) = length (t2_data input_ids)).
Proof.
  split.
  - intros out Hout.
    destruct (generate_loop_Ok self descriptors _ input_ids out Hout)
      as (cols & Hsteps & _ & _ & _ & Hsize & _ & Hrows).
    exists cols. split_and!; [done..|].
    intros b row Hrow. destruct (Hrows b row Hrow) as (r & Hr & ->).
    exists r. split_and!; [done..|]. apply take_app_length.
  - intros Hwf Hready.
    destruct (generate_loop_spec self descriptors _ input_ids Hwf Hready)
      as (cols & out & Hloop & _ & _ & _ & _ & [Ho _] & Hsize & _).
    exists out. split; [done|]. destruct Hready as ([Hi _] & _). lia.
Qed.

Lemma C4_generation_termination_witness :
  (forall out,
     generate tiny_model tiny_ids tiny_desc 2 = Ok out ->
     exists cols,
       greedy_steps tiny_model tiny_desc tiny_ids cols out /\
       t2_size1 out = t2_size1 tiny_ids + length cols /\
       length cols <= Z.to_nat 2 /\
       (forall j next, j + 1 < length cols -> cols !! j = Some next ->
          Exists (Exists (fun y => y <> padding_idx (config tiny_model)))
                 (t2_data next)) /\
       (length cols < Z.to_nat 2 ->
        exists next,
          last cols = Some next /\
          Forall (Forall (fun y => y = padding_idx (config tiny_model)))
                 (t2_data next) /\
          forall b row, t2_data out !! b = Some row ->
                        last row = Some (padding_idx (config tiny_model)))) /\
  (exists out, generate tiny_model tiny_ids tiny_desc 2 = Ok out).
Proof.
  split.
  - apply (proj1 (C4_generation_termination tiny_model tiny_ids tiny_desc 2)).
  - apply (proj2 (C4_generation_termination tiny_model tiny_ids tiny_desc 2));
      shapes.
Defined.

Lemma C10_generation_preserves_prompt_witness :
  (forall out,
     generate tiny_model tiny_ids tiny_desc 2 = Ok out ->
     exists cols,
       greedy_steps tiny_model tiny_desc tiny_ids cols out /\
       t2_size0 out = t2_size0 tiny_ids /\
       forall b row, t2_data out !! b = Some row ->
         exists r, t2_data tiny_ids !! b = Some r /\
                   row = r ++ appended cols b /\ take (length r) row = r) /\
  (exists out,
     generate tiny_model tiny_ids tiny_desc 2 = Ok out /\
     length (t2_data out) = length (t2_data tiny_ids)).
Proof.
  split.
  - apply (proj1 (C10_generation_preserves_prompt tiny_model tiny_ids
                    tiny_desc 2)).
  - apply (proj2 (C10_generation_preserves_prompt tiny_model tiny_ids
                    tiny_desc 2)); shapes.
Defined.

End ModelFacts.

(* ===================================================================== *)
(** * Part V.  The tokenizer: further properties                          *)
(* ===================================================================== *)

Section TokenizerMore.
Import SMILESTokenizerHF.
Local Open Scope string_scope.

(** ** The two dictionaries are inverse to each other *)

Lemma dict_store_Some_inv {K V} `{Countable K} (ps : list (K * V))
    (m : gmap K V) (k : K) (v : V) :
  dict_store m ps !! k = Some v -> (k, v) ∈ ps \/ m !! k = Some v.
Proof.
  revert m. induction ps as [|[k' v'] ps IH]; intros m Hk; [by right|].
  change (dict_store (<[k':=v']> m) ps !! k = Some v) in Hk.
  destruct (IH _ Hk) as [Hin|Hm]; [left; by right|].
  destruct (decide (k' = k)) as [->|Hne].
  - rewrite lookup_insert_eq in Hm. injection Hm as ->. left. by left.
  - rewrite lookup_insert_ne in Hm by done. by right.
Qed.

Lemma vocab_lookup_iff (t : string) (i : nat) :
  vocab !! t = Some i <-> all_tokens !! i = Some t.
Proof.
  split; [|apply vocab_lookup_Some].
  intros Hv. destruct (decide (t ∈ all_tokens)) as [Hin|Hin].
  - apply list_elem_of_lookup in Hin as [j Hj].
    rewrite (vocab_lookup_Some t j Hj) in Hv. by injection Hv as <-.
  - by rewrite vocab_lookup_None in Hv.
Qed.

Lemma vocab_injective (t t' : string) (i : nat) :
  vocab !! t = Some i -> vocab !! t' = Some i -> t = t'.
Proof. rewrite !vocab_lookup_iff. congruence. Qed.

Lemma ids_to_tokens_lookup_iff (t : string) (i : nat) :
  ids_to_tokens !! i = Some t <-> vocab !! t = Some i.
Proof.
  unfold ids_to_tokens, dict_comprehension. split.
  - intros [Hin|Hm]%dict_store_Some_inv; [|by rewrite lookup_empty in Hm].
    apply list_elem_of_fmap in Hin as ([t' i'] & [= -> ->] & Hin).
    by apply elem_of_map_to_list.
  - intros Hv. apply dict_store_present.
    + rewrite <- list_fmap_compose.
      apply NoDup_fmap_2_strong; [|apply NoDup_map_to_list].
      intros [t1 i1] [t2 i2] H1%elem_of_map_to_list H2%elem_of_map_to_list.
      cbn. intros <-. f_equal. by apply (vocab_injective t1 t2 i1).
    + apply list_elem_of_fmap. exists (t, i). split; [done|].
      by apply elem_of_map_to_list.
Qed.

(** The vocabulary and its inverse are two views of one numbering: a token
    has the id [i] exactly when it stands at position [i] of [all_tokens],
    and [ids_to_tokens] maps [i] to a token exactly when [vocab] maps the
    token to [i]. *)
Theorem vocab_ids_inverse (t : string) (i : nat) :
  (vocab !! t = Some i <-> all_tokens !! i = Some t) /\
  (ids_to_tokens !! i = Some t <-> vocab !! t = Some i).
Proof. split; [apply vocab_lookup_iff|apply ids_to_tokens_lookup_iff]. Qed.

(** ** Converting between tokens and ids *)

Lemma all_tokens_length : length all_tokens = 98.
Proof. reflexivity. Qed.

Lemma convert_id_to_token_lt (i : nat) (t : string) :
  all_tokens !! i = Some t -> _convert_id_to_token i = t.
Proof.
  intros Hi. unfold _convert_id_to_token.
  by rewrite (proj2 (ids_to_tokens_lookup_iff t i)) by by apply vocab_lookup_iff.
Qed.

Lemma convert_id_to_token_ge (i : nat) :
  length all_tokens <= i -> _convert_id_to_token i = "<UNK>".
Proof.
  intros Hi. unfold _convert_id_to_token.
  destruct (ids_to_tokens !! i) as [t|] eqn:Ht; [|done].
  apply ids_to_tokens_lookup_iff, vocab_lookup_iff, lookup_lt_Some in Ht. lia.
Qed.

(** Every id of the vocabulary is converted to its token and back to
    itself; an id beyond the vocabulary is converted to '<UNK>', whose id
    is 3. *)
Theorem convert_id_roundtrip (i : nat) :
  _convert_token_to_id (_convert_id_to_token i)
  = Some (if decide (i < 98) then i else 3).
Proof.
  destruct (decide (i < 98)) as [Hi|Hi].
  - destruct (lookup_lt_is_Some_2 all_tokens i) as [t Ht];
      [by rewrite all_tokens_length|].
    rewrite (convert_id_to_token_lt i t Ht), convert_token_to_id_spec.
    by rewrite (vocab_lookup_Some t i Ht).
  - rewrite convert_id_to_token_ge by (rewrite all_tokens_length; lia).
    rewrite convert_token_to_id_spec.
    by destruct vocab_special as (_ & _ & _ & ->).
Qed.

(** A token is converted to an id below 98; the id is converted back to the
    token when the token is in the vocabulary and to '<UNK>' when it is
    not. *)
Theorem convert_token_roundtrip (t : string) :
  exists i,
    _convert_token_to_id t = Some i /\ i < 98 /\
    _convert_id_to_token i = if decide (t ∈ all_tokens) then t else "<UNK>".
Proof.
  rewrite convert_token_to_id_spec.
  destruct (decide (t ∈ all_tokens)) as [Hin|Hin].
  - apply list_elem_of_lookup in Hin as [j Hj].
    rewrite (vocab_lookup_Some t j Hj). exists j. cbn.
    split_and!; [done| |by apply convert_id_to_token_lt].
    apply lookup_lt_Some in Hj. by rewrite all_tokens_length in Hj.
  - rewrite vocab_lookup_None by done. exists 3. cbn.
    split_and!; [done|lia|]. by apply convert_id_to_token_lt.
Qed.

(** ** What the scanner emits *)

Lemma findall_scan_elem (alts : list alternative) (k : nat) (s t : string) :
  t ∈ findall_scan alts k s ->
  exists c s' n, match_here alts (String c s') = Some (S n) /\
                 t = String c (string_take n s').
Proof.
  revert k. induction s as [|c s IH]; intros k; cbn [findall_scan].
  { by intros ?%elem_of_nil. }
  destruct k as [|k]; [|apply IH].
  destruct (match_here alts (String c s)) as [[|n]|] eqn:Hm; [apply IH| |apply IH].
  intros [->|Hin]%elem_of_cons; [|by eapply IH].
  by exists c, s, n.
Qed.

Lemma match_here_lt (s : string) : match_here pattern (String "<" s) = Some 1.
Proof. by destruct s. Qed.

Lemma tokenize_elem (text t : string) :
  t ∈ _tokenize text -> t <> "" /\ t ∉ special_tokens_list.
Proof.
  intros (c & s & n & Hm & ->)%findall_scan_elem. split; [done|].
  intros Hin. apply list_elem_of_In in Hin. cbn in Hin.
  destruct Hin as [H|[H|[H|[H|[]]]]]; injection H as <- Hs;
    rewrite match_here_lt in Hm; injection Hm as <-; discriminate.
Qed.

(** No token that [_tokenize] emits is empty, and none is a special token:
    a text cannot smuggle '<BOS>', '<EOS>', '<PAD>' or '<UNK>' into the
    token stream. *)
Theorem tokenize_no_special (text t : string) :
  t ∈ _tokenize text -> t <> "" /\ t ∉ special_tokens_list.
Proof. apply tokenize_elem. Qed.

Lemma tokenize_no_special_witness :
  "<" ∈ _tokenize "<PAD>Cl" /\ "<" <> "" /\ "<" ∉ special_tokens_list.
Proof.
  assert ("<" ∈ _tokenize "<PAD>Cl") as Hin by (vm_compute; constructor).
  split; [exact Hin|]. exact (tokenize_no_special "<PAD>Cl" "<" Hin).
Defined.

Lemma token_id_bounds (t : string) :
  t ∉ special_tokens_list -> 3 <= default 3 (vocab !! t) < 98.
Proof.
  intros Hns. destruct (vocab !! t) as [i|] eqn:Hv; cbn; [|lia].
  apply vocab_lookup_iff in Hv. split.
  - destruct i as [|[|[|i]]]; [| | |lia];
      injection Hv as <-; exfalso; apply Hns; set_solver.
  - apply lookup_lt_Some in Hv. by rewrite all_tokens_length in Hv.
Qed.

Lemma convert_tokens_total (toks : list string) :
  mapM _convert_token_to_id toks
  = Some ((fun t => default 3 (vocab !! t)) <$> toks).
Proof.
  apply mapM_Some, Forall2_fmap_r, Forall_Forall2_diag, Forall_true.
  intros t. apply convert_token_to_id_spec.
Qed.

(** The ids of a text.  Every token that [_tokenize] emits is converted by
    [_convert_token_to_id] to an id that is at least 3 and below 98: a text
    never yields the id of '<BOS>', '<EOS>' or '<PAD>'.  The hook
    [build_inputs_with_special_tokens], called with one list of ids, puts
    the id 0 of '<BOS>' in front of it and the id 1 of '<EOS>' behind. *)
Theorem text_ids_framed (text : string) :
  (exists ids,
     mapM _convert_token_to_id (_tokenize text) = Some ids /\
     length ids = length (_tokenize text) /\
     Forall (fun i => 3 <= i < 98) ids) /\
  (forall ids,
     build_inputs_with_special_tokens ids = Some ([0] ++ ids ++ [1])%list).
Proof.
  split.
  - exists ((fun t => default 3 (vocab !! t)) <$> _tokenize text).
    split; [apply convert_tokens_total|]. split; [by rewrite length_fmap|].
    apply Forall_fmap, Forall_forall. intros t Ht. cbn.
    by apply token_id_bounds, (tokenize_elem text).
  - intros ids. unfold build_inputs_with_special_tokens.
    destruct vocab_special as (-> & -> & _ & _). reflexivity.
Qed.

(** ** The hooks, one after the other *)

Lemma special_tokens_elem :
  "<BOS>" ∈ special_tokens_list /\ "<EOS>" ∈ special_tokens_list /\
  "<PAD>" ∈ special_tokens_list /\ "<UNK>" ∈ special_tokens_list.
Proof. unfold special_tokens_list. repeat split; repeat constructor. Qed.

Lemma decode_ids_general (toks : list string) :
  Forall (fun t => t ∉ special_tokens_list) toks ->
  filter (fun t => t ∉ special_tokens_list)
    (_convert_id_to_token <$> ((fun t => default 3 (vocab !! t)) <$> toks))
  = filter (fun t => t ∈ tokens) toks.
Proof.
  induction 1 as [|t toks Ht _ IH]; [done|].
  cbn [fmap list_fmap].
  assert (t ∈ all_tokens <-> t ∈ tokens) as Hiff.
  { unfold all_tokens. rewrite elem_of_app. tauto. }
  destruct (decide (t ∈ all_tokens)) as [Hin|Hin].
  - apply list_elem_of_lookup in Hin as Hj. destruct Hj as [j Hj].
    rewrite (vocab_lookup_Some t j Hj). change (default 3 (Some j)) with j.
    rewrite (convert_id_to_token_lt j t Hj).
    rewrite filter_cons_True by done.
    rewrite (filter_cons_True (fun t => t ∈ tokens)) by tauto.
    f_equal. apply IH.
  - rewrite (vocab_lookup_None t Hin).
    change (default 3 (@None nat)) with 3.
    rewrite (convert_id_to_token_lt 3 "<UNK>") by reflexivity.
    rewrite filter_cons_False
      by (intros Hn; apply Hn, special_tokens_elem).
    rewrite (filter_cons_False (fun t => t ∈ tokens)) by tauto.
    apply IH.
Qed.

Lemma hooks_kept_tokens (text : string) :
  exists ids framed,
    mapM _convert_token_to_id (_tokenize text) = Some ids /\
    build_inputs_with_special_tokens ids = Some framed /\
    convert_tokens_to_string (_convert_id_to_token <$> framed)
    = String.concat "" (filter (fun t => t ∈ tokens) (_tokenize text)).
Proof.
  exists ((fun t => default 3 (vocab !! t)) <$> _tokenize text).
  eexists. split; [apply convert_tokens_total|].
  unfold build_inputs_with_special_tokens.
  destruct vocab_special as (-> & -> & _ & _). split; [reflexivity|].
  unfold convert_tokens_to_string.
  rewrite !fmap_app, !filter_app, decode_ids_general.
  - cbn [fmap list_fmap]. destruct special_back as [-> ->].
    rewrite !filter_cons_False
      by (intros Hn; apply Hn; apply special_tokens_elem).
    by rewrite filter_nil, app_nil_r.
  - apply Forall_forall. intros t Ht. by apply (tokenize_elem text).
Qed.

(** The hooks of the class, called one after the other on any text:
    [_tokenize], [_convert_token_to_id] on every token,
    [build_inputs_with_special_tokens] on the ids, [_convert_id_to_token]
    on every id and [convert_tokens_to_string] on the tokens.  The result
    is the concatenation of those tokens of the text that belong to the
    fixed token set: characters that the pattern does not match and tokens
    outside the set are dropped, and nothing else is changed. *)
Theorem hooks_roundtrip_general (text : string) :
  exists ids framed,
    mapM _convert_token_to_id (_tokenize text) = Some ids /\
    build_inputs_with_special_tokens ids = Some framed /\
    convert_tokens_to_string (_convert_id_to_token <$> framed)
    = String.concat "" (filter (fun t => t ∈ tokens) (_tokenize text)).
Proof. apply hooks_kept_tokens. Qed.

(** On a string that is a concatenation of tokens of the fixed token set,
    the hooks called one after the other give the string back. *)
Theorem hooks_roundtrip_tokens (ts : list string) :
  Forall (fun t => t ∈ tokens) ts ->
  exists ids framed,
    mapM _convert_token_to_id (_tokenize (String.concat "" ts)) = Some ids /\
    build_inputs_with_special_tokens ids = Some framed /\
    convert_tokens_to_string (_convert_id_to_token <$> framed)
    = String.concat "" ts.
Proof.
  intros Hts.
  destruct (hooks_kept_tokens (String.concat "" ts))
    as (ids & framed & Hids & Hframed & Hback).
  exists ids, framed. split; [done|]. split; [done|].
  rewrite Hback, tokenize_join by done. f_equal.
  clear -Hts. induction Hts as [|t ts Ht _ IH]; [done|].
  by rewrite filter_cons_True, IH.
Qed.

Lemma hooks_roundtrip_tokens_witness :
  exists ids framed,
    mapM _convert_token_to_id
      (_tokenize (String.concat ""
                    ["C"; "C"; "("; "="; "O"; ")"; "Cl"; "[NH3+]"]))
    = Some ids /\
    build_inputs_with_special_tokens ids = Some framed /\
    convert_tokens_to_string (_convert_id_to_token <$> framed)
    = String.concat "" ["C"; "C"; "("; "="; "O"; ")"; "Cl"; "[NH3+]"].
Proof.
  apply (hooks_roundtrip_tokens
           ["C"; "C"; "("; "="; "O"; ")"; "Cl"; "[NH3+]"]).
  apply (bool_decide_unpack _). vm_compute. reflexivity.
Defined.

(** ** The scanner only deletes characters *)

Lemma chars_append (a b : string) :
  String.list_ascii_of_string (a ++ b)
  = (String.list_ascii_of_string a ++ String.list_ascii_of_string b)%list.
Proof.
  induction a as [|c a IH]; [done|]. rewrite append_cons. cbn. by rewrite IH.
Qed.

Lemma chars_take (n : nat) (s : string) :
  String.list_ascii_of_string (string_take n s) = take n (String.list_ascii_of_string s).
Proof.
  revert s. induction n as [|n IH]; intros [|c s]; cbn; try done.
  by rewrite IH.
Qed.

Lemma findall_scan_sublist (alts : list alternative) (k : nat) (s : string) :
  sublist (String.list_ascii_of_string (String.concat "" (findall_scan alts k s)))
          (drop k (String.list_ascii_of_string s)).
Proof.
  revert k. induction s as [|c s IH]; intros k.
  { cbn. apply sublist_nil_l. }
  cbn [findall_scan]. destruct k as [|k]; [|apply IH].
  assert (sublist (String.list_ascii_of_string (String.concat "" (findall_scan alts 0 s)))
                  (drop 0 (String.list_ascii_of_string (String c s)))) as Hskip.
  { cbn. apply sublist_cons, (IH 0). }
  destruct (match_here alts (String c s)) as [[|n]|]; [done| |done].
  rewrite join_cons, chars_append.
  change (string_take (S n) (String c s)) with (String c (string_take n s)).
  cbn. apply sublist_skip. rewrite chars_take.
  rewrite <- (take_drop n (String.list_ascii_of_string s)) at 2.
  apply sublist_app; [done|apply IH].
Qed.

(** The concatenation of the tokens of a text is a subsequence of the
    text: tokenizing deletes the characters that no alternative matches and
    neither adds nor reorders characters. *)
Theorem tokenize_subsequence (text : string) :
  sublist (String.list_ascii_of_string (String.concat "" (_tokenize text)))
          (String.list_ascii_of_string text).
Proof. apply (findall_scan_sublist pattern 0 text). Qed.

End TokenizerMore.

(* ===================================================================== *)
(** * Part VI.  The model: further properties                             *)
(* ===================================================================== *)

Section ModelMore.
Import MolGPT Runs Drafts Samples.

(** Shape and range side conditions on concrete tensors and models. *)
Ltac shapes :=
  repeat match goal with
         | |- _ /\ _ => split
         | |- Forall _ _ => constructor
         | |- wf_model _ => red
         | |- wf_Embedding _ => red
         | |- wf_Linear _ => red
         | |- wf2 _ => red
         | |- valid_ids _ _ => red
         | |- forward_ready _ _ _ => red
         | |- generate_ready _ _ _ _ => red
         | |- labels_ready _ _ _ => red
         | |- shapes_ready _ _ _ => red
         | |- view_ready _ _ => red
         end;
  cbn;
  first [ reflexivity | lia | left; cbn; lia | right; cbn; lia ].

(** ** The causal mask *)

Lemma causal_mask_row (L i : nat) (mrow : list ereal) :
  generate_causal_mask L !! i = Some mrow -> i < L /\ length mrow = L.
Proof.
  unfold generate_causal_mask, triu, full. rewrite list_lookup_imap.
  intros (row & Hrow & ->)%fmap_Some.
  apply lookup_replicate in Hrow as [-> Hi].
  by rewrite length_imap, length_replicate.
Qed.

(** The mask of [seq_len] positions is a square matrix of that size whose
    entry in row [i] and column [j] is minus infinity when [j] is after [i]
    and 0 otherwise: a position may attend to itself and to the positions
    before it, and to no other. *)
Theorem causal_mask_spec (L : nat) :
  length (generate_causal_mask L) = L /\
  Forall (fun mrow => length mrow = L) (generate_causal_mask L) /\
  forall i j, i < L -> j < L ->
    generate_causal_mask L !! i ≫= (.!! j)
    = Some (if decide (i < j) then NegInf else Fin 0).
Proof.
  split; [apply generate_causal_mask_length|]. split.
  - apply Forall_lookup. intros i mrow Hrow.
    by destruct (causal_mask_row L i mrow Hrow).
  - intros i j Hi Hj.
    destruct (lookup_lt_is_Some_2 (generate_causal_mask L) i) as [mrow Hrow];
      [by rewrite generate_causal_mask_length|].
    destruct (causal_mask_row L i mrow Hrow) as [_ Hlen].
    destruct (lookup_lt_is_Some_2 mrow j) as [m Hm]; [lia|].
    rewrite Hrow. cbn. rewrite Hm, (causal_mask_entry L i j mrow m Hrow Hm).
    f_equal. destruct (decide (i + 1 <= j)), (decide (i < j)); (done || lia).
Qed.

Lemma causal_mask_spec_witness :
  generate_causal_mask 3 !! 1 ≫= (.!! 2) = Some NegInf /\
  generate_causal_mask 3 !! 1 ≫= (.!! 1) = Some (Fin 0).
Proof.
  split.
  - apply (proj2 (proj2 (causal_mask_spec 3)) 1 2); lia.
  - apply (proj2 (proj2 (causal_mask_spec 3)) 1 1); lia.
Defined.

Lemma triu_R_ones_entry (L i j : nat) (row : list R) (x : R) :
  triu_R (full L L 1%R) 1 !! i = Some row -> row !! j = Some x ->
  x = if decide (i + 1 <= j) then 1%R else 0%R.
Proof.
  unfold triu_R, full. rewrite list_lookup_imap.
  intros (r & Hr & ->)%fmap_Some.
  apply lookup_replicate in Hr as [-> _].
  rewrite list_lookup_imap. intros (y & Hy & ->)%fmap_Some.
  by apply lookup_replicate in Hy as [-> _].
Qed.

Lemma triu_R_ones_shape (L i : nat) (row : list R) :
  triu_R (full L L 1%R) 1 !! i = Some row -> length row = L.
Proof.
  unfold triu_R, full. rewrite list_lookup_imap.
  intros (r & Hr & ->)%fmap_Some.
  apply lookup_replicate in Hr as [-> _].
  by rewrite length_imap, length_replicate.
Qed.

Lemma triu_R_ones_length (L : nat) : length (triu_R (full L L 1%R) 1) = L.
Proof. unfold triu_R, full. by rewrite length_imap, length_replicate. Qed.

Lemma nested_list_eq {A} (m m' : list (list A)) :
  length m = length m' ->
  (forall i row row', m !! i = Some row -> m' !! i = Some row' ->
     length row = length row' /\
     forall j x x', row !! j = Some x -> row' !! j = Some x' -> x = x') ->
  m = m'.
Proof.
  intros Hlen Hrows. apply list_eq_same_length with (length m); [done..|].
  intros i row row' _ Hr Hr'. destruct (Hrows i row row' Hr Hr') as [Hl Hx].
  apply list_eq_same_length with (length row); [done..|].
  intros j x x' _. apply Hx.
Qed.

(** The three drafts of [generate_causal_mask] mask the same positions: the
    mask of the first draft is the mask of the final one, and the boolean
    mask of the second draft stands for it. *)
Theorem causal_mask_drafts_agree (L : nat) :
  generate_causal_mask_draft1 L = generate_causal_mask L /\
  additive_mask (generate_causal_mask_draft2 L) = generate_causal_mask L.
Proof.
  split; apply nested_list_eq.
  - unfold generate_causal_mask_draft1, masked_fill_ones.
    by rewrite length_fmap, triu_R_ones_length, generate_causal_mask_length.
  - intros i row row'. unfold generate_causal_mask_draft1, masked_fill_ones.
    rewrite list_lookup_fmap. intros (r & Hr & ->)%fmap_Some Hrow'.
    destruct (causal_mask_row L i row' Hrow') as [_ Hlen'].
    split; [by rewrite length_fmap, (triu_R_ones_shape L i r Hr)|].
    intros j x x'. rewrite list_lookup_fmap.
    intros (y & Hy & ->)%fmap_Some Hx'.
    rewrite (triu_R_ones_entry L i j r y Hr Hy).
    rewrite (causal_mask_entry L i j row' x' Hrow' Hx').
    destruct (decide (i + 1 <= j)).
    + by destruct (Req_dec_T 1 1).
    + destruct (Req_dec_T 0 1) as [H01|]; [|done]. lra.
  - unfold additive_mask, generate_causal_mask_draft2.
    by rewrite !length_fmap, triu_R_ones_length, generate_causal_mask_length.
  - intros i row row'. unfold additive_mask, generate_causal_mask_draft2.
    rewrite !list_lookup_fmap.
    intros (r0 & (r & Hr & ->)%fmap_Some & ->)%fmap_Some Hrow'.
    split.
    { destruct (causal_mask_row L i row' Hrow') as [_ ->].
      by rewrite !length_fmap, (triu_R_ones_shape L i r Hr). }
    intros j x x'. rewrite !list_lookup_fmap.
    intros (b & (y & Hy & ->)%fmap_Some & ->)%fmap_Some Hx'.
    rewrite (triu_R_ones_entry L i j r y Hr Hy).
    rewrite (causal_mask_entry L i j row' x' Hrow' Hx').
    destruct (decide (i + 1 <= j)).
    + destruct (Req_dec_T 1 0) as [H10|]; [lra|done].
    + by destruct (Req_dec_T 0 0).
Qed.

(** ** Attention weights under the mask *)

Lemma Rsum_nonneg (l : list R) : Forall (fun x => (0 <= x)%R) l -> (0 <= Rsum l)%R.
Proof.
  induction 1 as [|x l Hx _ IH]; cbn; [lra|]. fold (Rsum l). lra.
Qed.

Lemma Rsum_ge_elem (l : list R) (i : nat) (x : R) :
  Forall (fun x => (0 <= x)%R) l -> l !! i = Some x -> (x <= Rsum l)%R.
Proof.
  intros Hl. revert i. induction Hl as [|y l Hy Hl IH]; intros i Hi; [done|].
  cbn. fold (Rsum l). pose proof (Rsum_nonneg l Hl).
  destruct i as [|i]; cbn in Hi.
  - injection Hi as ->. lra.
  - specialize (IH i Hi). lra.
Qed.

Lemma Rsum_div (l : list R) (z : R) :
  Rsum ((fun x => (x / z)%R) <$> l) = (Rsum l / z)%R.
Proof.
  induction l as [|x l IH]; cbn; [unfold Rdiv; ring|].
  fold (Rsum l) (Rsum ((fun x => (x / z)%R) <$> l)). rewrite IH.
  unfold Rdiv. ring.
Qed.

Lemma eexp_nonneg (e : ereal) : (0 <= eexp e)%R.
Proof. destruct e as [r|]; cbn; [|lra]. left. apply exp_pos. Qed.

(** In row [i] of the attention of a sequence of [L] positions, the
    softmax weights under the causal mask are a probability distribution
    over the positions up to [i]: every weight is non-negative, the weights
    of the positions after [i] are 0, and the weights sum to 1; no row is
    masked out entirely. *)
Theorem attention_weights_distribution (L i : nat) (mrow : list ereal)
    (scores : list R) :
  generate_causal_mask L !! i = Some mrow -> length scores = L ->
  let w := softmax_masked (zip_with eadd scores mrow) in
  length w = L /\
  Forall (fun x => (0 <= x)%R) w /\
  (forall j x, i < j -> w !! j = Some x -> x = 0%R) /\
  Rsum w = 1%R.
Proof.
  intros Hrow Hlen w.
  destruct (causal_mask_row L i mrow Hrow) as [Hi Hmlen].
  set (M := zip_with eadd scores mrow) in *.
  assert (length M = L) as HM
    by (unfold M; rewrite length_zip_with_l_eq; lia).
  assert (Forall (fun x => (0 <= x)%R) (eexp <$> M)) as Hnn.
  { apply Forall_fmap, Forall_forall. intros e _. apply eexp_nonneg. }
  assert (0 < Rsum (eexp <$> M))%R as Hz.
  { destruct (lookup_lt_is_Some_2 scores i) as [si Hsi]; [lia|].
    destruct (lookup_lt_is_Some_2 mrow i) as [m Hm]; [lia|].
    pose proof (causal_mask_entry L i i mrow m Hrow Hm) as ->.
    rewrite decide_False in Hm by lia.
    assert ((eexp <$> M) !! i = Some (exp (si + 0))) as Hi'.
    { unfold M. by rewrite list_lookup_fmap, lookup_zip_with, Hsi, Hm. }
    pose proof (Rsum_ge_elem _ _ _ Hnn Hi'). pose proof (exp_pos (si + 0)). lra. }
  split_and!.
  - unfold w, softmax_masked. by rewrite length_fmap.
  - unfold w, softmax_masked. apply Forall_fmap, Forall_forall. intros e _. cbn.
    apply Rmult_le_pos; [apply eexp_nonneg|]. left. by apply Rinv_0_lt_compat.
  - intros j x Hj Hx. by apply (masked_weight_zero L i j mrow scores x Hrow).
  - unfold w, softmax_masked. fold M.
    transitivity (Rsum ((fun x => (x / Rsum (eexp <$> M))%R) <$> (eexp <$> M))).
    { f_equal. by rewrite <- list_fmap_compose. }
    rewrite Rsum_div. field. lra.
Qed.

Lemma attention_weights_distribution_witness :
  let w := softmax_masked (zip_with eadd [1; 2]%R [Fin 0; NegInf]) in
  length w = 2 /\
  Forall (fun x => (0 <= x)%R) w /\
  (forall j x, 0 < j -> w !! j = Some x -> x = 0%R) /\
  Rsum w = 1%R.
Proof.
  apply (attention_weights_distribution 2 0 [Fin 0; NegInf] [1; 2]%R);
    reflexivity.
Defined.

(** ** The outcomes of the embeddings and of [forward] *)

Lemma mapM_Ok_or_Raise {A B} (f : A -> outcome B) (e : error) (l : list A) :
  (forall x, (exists y, f x = Ok y) \/ f x = Raise e) ->
  (exists k, mapM f l = Ok k) \/ mapM f l = Raise e.
Proof.
  intros Hf. induction l as [|x l IH]; [left; by exists []|].
  cbn. destruct (Hf x) as [[y ->]| ->]; [|by right]. cbn.
  destruct IH as [[k ->]| ->]; [left; by eexists|by right].
Qed.

Lemma Embedding_forward_cases (e : Embedding) (idx : Tensor2 Z) :
  (exists t, Embedding_forward e idx = Ok t) \/
  Embedding_forward e idx = Raise IndexError.
Proof.
  unfold Embedding_forward.
  destruct (mapM_Ok_or_Raise (mapM (Embedding_lookup e)) IndexError
              (t2_data idx)) as [[d ->]| ->]; [|left; by eexists|by right].
  intros row. apply mapM_Ok_or_Raise. intros i. unfold Embedding_lookup.
  destruct (if (0 <=? i)%Z then _ else _); [left; by eexists|by right].
Qed.

Lemma MolGPTEmbeddings_forward_cases (self : MolGPTEmbeddings)
    (input_ids : Tensor2 Z) :
  (exists t, MolGPTEmbeddings_forward self input_ids = Ok t) \/
  MolGPTEmbeddings_forward self input_ids = Raise IndexError.
Proof.
  unfold MolGPTEmbeddings_forward.
  destruct (Embedding_forward_cases (token_embeddings self) input_ids)
    as [[tok ->]| ->]; [|by right].
  destruct (Embedding_forward_cases (position_embeddings self)
              (expand_rows (t2_size0 input_ids) (t2_size1 input_ids)
                           (arange (t2_size1 input_ids))))
    as [[pos Hpos]|Hpos]; cbn in Hpos |- *; rewrite Hpos;
    [left; by eexists|by right].
Qed.

Lemma MolGPTEmbeddings_forward_valid (self : MolGPTModel)
    (input_ids : Tensor2 Z) (t : Tensor3 R) :
  wf_model self ->
  MolGPTEmbeddings_forward (embeddings self) input_ids = Ok t ->
  valid_ids self input_ids /\
  (t2_size0 input_ids = 0 \/
   t2_size1 input_ids <= max_position_embeddings (config self)).
Proof.
  intros ((Htw & Htn & Htd) & (Hpw & Hpn & Hpd) & _)
         (tk & pos & Htk & Hpos & ->)%MolGPTEmbeddings_forward_Ok.
  split.
  - apply Embedding_forward_valid in Htk. unfold valid_ids.
    destruct Htw as [Hlen _]. by rewrite <- Htn, <- Hlen.
  - destruct (decide (t2_size0 input_ids = 0)) as [|HB0]; [by left|right].
    apply Embedding_forward_valid in Hpos. cbn in Hpos.
    destruct (t2_size0 input_ids) as [|B]; [done|]. cbn in Hpos.
    apply Forall_cons in Hpos as [Hpos _].
    destruct (t2_size1 input_ids) as [|T] eqn:HT; [lia|].
    pose proof (proj1 (Forall_lookup _ _) Hpos T _
                  (arange_lookup (S T) T ltac:(lia))) as Hb.
    cbn beta in Hb. destruct Hpw as [Hlen _]. lia.
Qed.

(** The embeddings of a batch of token ids are returned exactly when every
    id is an index of the vocabulary and, in a batch that has an example,
    the sequence is no longer than the position table; on every other batch
    the lookup raises an IndexError, and nothing else is ever raised. *)
Theorem embeddings_outcome (self : MolGPTModel) (input_ids : Tensor2 Z) :
  wf_model self -> wf2 input_ids ->
  let ok := valid_ids self input_ids /\
            (t2_size0 input_ids = 0 \/
             t2_size1 input_ids <= max_position_embeddings (config self)) in
  (ok -> exists t,
     MolGPTEmbeddings_forward (embeddings self) input_ids = Ok t /\ wf3 t /\
     t3_size0 t = t2_size0 input_ids /\ t3_size1 t = t2_size1 input_ids /\
     t3_size2 t = embedding_dim (config self)) /\
  (~ ok ->
   MolGPTEmbeddings_forward (embeddings self) input_ids = Raise IndexError).
Proof.
  intros Hwf Hids ok. split.
  - intros [Hvalid Hpos].
    by apply MolGPTEmbeddings_forward_total.
  - intros Hnok.
    destruct (MolGPTEmbeddings_forward_cases (embeddings self) input_ids)
      as [[t Ht]|Hraise]; [|done].
    exfalso. apply Hnok. by eapply MolGPTEmbeddings_forward_valid.
Qed.

Lemma embeddings_outcome_witness :
  (exists t,
     MolGPTEmbeddings_forward (embeddings tiny_model) tiny_ids = Ok t /\
     wf3 t /\ t3_size0 t = 1 /\ t3_size1 t = 3 /\ t3_size2 t = 2) /\
  MolGPTEmbeddings_forward (embeddings tiny_model) (T2 1 2 [[1; 7]]%Z)
  = Raise IndexError.
Proof.
  split.
  - apply (proj1 (embeddings_outcome tiny_model tiny_ids
                    ltac:(shapes) ltac:(shapes))). shapes.
  - apply (proj2 (embeddings_outcome tiny_model (T2 1 2 [[1; 7]]%Z)
                    ltac:(shapes) ltac:(shapes))).
    intros [Hv _]. unfold valid_ids in Hv. cbn in Hv.
    apply Forall_cons in Hv as [Hv _].
    apply Forall_cons in Hv as [_ Hv].
    apply Forall_cons in Hv as [Hv _]. lia.
Defined.

(** ** When [forward] returns, and what it raises *)

Lemma real_entries_not_Raise (ds : Tensor3 scalar) (e : error) :
  real_entries ds <> Raise e.
Proof.
  unfold real_entries.
  destruct (mapM _ _) as [d| |e'] eqn:Hm; cbn; [done|done|].
  apply mapM_Raise in Hm as (m & _ & Hm).
  apply mapM_Raise in Hm as (v & _ & Hv).
  apply mapM_Raise in Hv as (x & _ & Hx). by destruct x.
Qed.

Lemma MolGPTEmbeddings_forward_Raise (self : MolGPTModel)
    (input_ids : Tensor2 Z) :
  wf_model self ->
  ~ (valid_ids self input_ids /\
     (t2_size0 input_ids = 0 \/
      t2_size1 input_ids <= max_position_embeddings (config self))) ->
  MolGPTEmbeddings_forward (embeddings self) input_ids = Raise IndexError.
Proof.
  intros Hwf Hnok.
  destruct (MolGPTEmbeddings_forward_cases (embeddings self) input_ids)
    as [[t Ht]|Hraise]; [|done].
  exfalso. apply Hnok. by eapply MolGPTEmbeddings_forward_valid.
Qed.

Lemma forward_ids_Raise (self : MolGPTModel) (input_ids : Tensor2 Z)
    (descriptors : Tensor2 R) (labels : option (Tensor2 Z)) :
  wf_model self ->
  ~ (valid_ids self input_ids /\
     (t2_size0 input_ids = 0 \/
      t2_size1 input_ids <= max_position_embeddings (config self))) ->
  forward self input_ids descriptors labels = Raise IndexError.
Proof.
  intros Hwf Hnok. rewrite forward_unfold.
  by rewrite MolGPTEmbeddings_forward_Raise.
Qed.

Lemma forward_desc_size_Raise (self : MolGPTModel) (input_ids : Tensor2 Z)
    (descriptors : Tensor2 R) (labels : option (Tensor2 Z)) :
  wf_model self -> wf2 input_ids ->
  valid_ids self input_ids ->
  t2_size0 input_ids = 0 \/
  t2_size1 input_ids <= max_position_embeddings (config self) ->
  t2_size1 descriptors <> desc_size (config self) ->
  exists msg,
    forward self input_ids descriptors labels = Raise (AssertionError msg).
Proof.
  intros Hwf Hids Hvalid Hpos HD. rewrite forward_unfold.
  destruct (MolGPTEmbeddings_forward_total self input_ids Hwf Hids Hvalid Hpos)
    as (tok & -> & _). cbn.
  destruct Hwf as (_ & _ & (_ & _ & _ & Hsz) & _).
  unfold DescriptorEncoder_forward. rewrite decide_False by congruence.
  by eexists.
Qed.

(** The two embedded segments of a batch of matching shapes. *)
Lemma forward_segments (self : MolGPTModel) (input_ids : Tensor2 Z)
    (descriptors : Tensor2 R) :
  wf_model self -> wf2 input_ids -> wf2 descriptors ->
  valid_ids self input_ids ->
  t2_size0 input_ids = 0 \/
  t2_size1 input_ids <= max_position_embeddings (config self) ->
  t2_size1 descriptors = desc_size (config self) ->
  exists tok ds,
    MolGPTEmbeddings_forward (embeddings self) input_ids = Ok tok /\
    DescriptorEncoder_forward (descriptor_encoder self) descriptors = Ok ds /\
    t3_size0 tok = t2_size0 input_ids /\ t3_size1 tok = t2_size1 input_ids /\
    t3_size0 ds = t2_size0 descriptors /\
    t3_size1 ds = desc_size (config self) /\
    t3_size2 ds = t3_size2 tok.
Proof.
  intros Hwf Hids Hdesc Hvalid Hpos HD.
  destruct (MolGPTEmbeddings_forward_total self input_ids Hwf Hids Hvalid Hpos)
    as (tok & Htok & _ & Ht0 & Ht1 & Ht2).
  pose proof Hwf as (_ & _ & (Hbw & Hbn & Hbd & Hsz) & _).
  destruct (DescriptorEncoder_forward_shape (descriptor_encoder self)
              descriptors) as (ds & Hds & Hs0 & Hs1 & Hs2 & Hswf);
    [done|congruence|done|congruence|].
  exists tok, ds. split; [done|]. split; [done|].
  split; [done|]. split; [done|]. split; [done|]. split; congruence.
Qed.

Lemma forward_batch_Raise (self : MolGPTModel) (input_ids : Tensor2 Z)
    (descriptors : Tensor2 R) (labels : option (Tensor2 Z)) :
  wf_model self -> wf2 input_ids -> wf2 descriptors ->
  valid_ids self input_ids ->
  t2_size0 input_ids = 0 \/
  t2_size1 input_ids <= max_position_embeddings (config self) ->
  t2_size1 descriptors = desc_size (config self) ->
  t2_size0 input_ids <> t2_size0 descriptors ->
  forward self input_ids descriptors labels = Raise RuntimeError.
Proof.
  intros Hwf Hids Hdesc Hvalid Hpos HD HB. rewrite forward_unfold.
  destruct (forward_segments self input_ids descriptors)
    as (tok & ds & -> & Hds & Ht0 & _ & Hs0 & _); [done..|].
  cbn. rewrite Hds. cbn. unfold cat1_3.
  rewrite decide_False; [done|]. cbn. intros [H0 _]. lia.
Qed.

Lemma forward_shapes_returns (self : MolGPTModel) (input_ids : Tensor2 Z)
    (descriptors : Tensor2 R) :
  wf_model self -> wf2 input_ids -> wf2 descriptors ->
  shapes_ready self input_ids descriptors ->
  (exists out, forward self input_ids descriptors None = Ok out) \/
  forward self input_ids descriptors None = NotANumber.
Proof.
  intros Hwf Hids Hdesc (HB & HD & Hvalid & Hpos). rewrite forward_unfold.
  destruct (forward_segments self input_ids descriptors)
    as (tok & ds & -> & Hds & Ht0 & _ & Hs0 & _ & Hs2); [done..|].
  cbn. rewrite Hds. cbn. unfold cat1_3.
  rewrite decide_True by (cbn; split; congruence). cbn.
  destruct (real_entries ds) as [dr| |e] eqn:Hdr; cbn.
  - left. by eexists.
  - by right.
  - by apply real_entries_not_Raise in Hdr.
Qed.

(** Under the shapes of [__init__] and on well-formed tensors, the forward
    pass without labels returns logits, real ones or NaN, exactly on the
    inputs of matching shapes: equal batch sizes, descriptors of the
    configured size, token ids of the vocabulary and, in a batch that has an
    example, a sequence no longer than the position table.  On every other
    input it raises an exception. *)
Theorem forward_returns_iff_shapes (self : MolGPTModel)
    (input_ids : Tensor2 Z) (descriptors : Tensor2 R) :
  wf_model self -> wf2 input_ids -> wf2 descriptors ->
  (((exists out, forward self input_ids descriptors None = Ok out) \/
    forward self input_ids descriptors None = NotANumber) <->
   shapes_ready self input_ids descriptors) /\
  ((exists e, forward self input_ids descriptors None = Raise e) <->
   ~ shapes_ready self input_ids descriptors).
Proof.
  intros Hwf Hids Hdesc.
  assert (~ shapes_ready self input_ids descriptors ->
          exists e, forward self input_ids descriptors None = Raise e)
    as Hraise.
  { intros Hno.
    destruct (decide (valid_ids self input_ids /\
                      (t2_size0 input_ids = 0 \/
                       t2_size1 input_ids
                       <= max_position_embeddings (config self))))
      as [[Hvalid Hpos]|Hnok].
    2: { exists IndexError. by apply forward_ids_Raise. }
    destruct (decide (t2_size1 descriptors = desc_size (config self)))
      as [HD|HD].
    2: { destruct (forward_desc_size_Raise self input_ids descriptors None)
           as [msg Hmsg]; [done..|]. by eexists. }
    destruct (decide (t2_size0 input_ids = t2_size0 descriptors)) as [HB|HB].
    { exfalso. apply Hno. by split_and!. }
    exists RuntimeError. by apply forward_batch_Raise. }
  pose proof (forward_shapes_returns self input_ids descriptors Hwf Hids Hdesc)
    as Hret.
  destruct (decide (shapes_ready self input_ids descriptors)) as [Hs|Hs].
  - split; [split; [done|by intros _; apply Hret]|].
    split; [|done]. intros [e He].
    destruct (Hret Hs) as [[out Hout]|Hnan]; congruence.
  - destruct (Hraise Hs) as [e He]. split.
    + split; [|done]. intros [[out Hout]|Hnan]; congruence.
    + split; [done|]. intros _. by exists e.
Qed.

Lemma forward_returns_iff_shapes_witness :
  (((exists out, forward tiny_model tiny_ids tiny_desc None = Ok out) \/
    forward tiny_model tiny_ids tiny_desc None = NotANumber) <->
   shapes_ready tiny_model tiny_ids tiny_desc) /\
  ((exists e, forward tiny_model tiny_ids tiny_desc None = Raise e) <->
   ~ shapes_ready tiny_model tiny_ids tiny_desc).
Proof.
  apply (forward_returns_iff_shapes tiny_model tiny_ids tiny_desc); shapes.
Defined.

(** Labels never change the logits: when the forward pass returns with
    labels, it returns the same logits without them.  With labels it
    returns on ready inputs whose token logits [view] can flatten. *)
Theorem labels_do_not_change_logits (self : MolGPTModel)
    (input_ids : Tensor2 Z) (descriptors : Tensor2 R) (labels : Tensor2 Z) :
  (forall out,
     forward self input_ids descriptors (Some labels) = Ok out ->
     forward self input_ids descriptors None
     = Ok {| loss := None; logits := logits out |}) /\
  (wf_model self -> forward_ready self input_ids descriptors ->
   labels_ready self input_ids labels -> view_ready self input_ids ->
   exists out, forward self input_ids descriptors (Some labels) = Ok out).
Proof.
  split.
  - intros out. rewrite !forward_unfold.
    intros (tok & Htok & (ds & Hds & (x & Hx & (output & Hres
            & (dr & Hdr & [= <-])%bind_Ok)%bind_Ok)%bind_Ok)%bind_Ok)%bind_Ok.
    rewrite Htok. cbn. rewrite Hds. cbn. rewrite Hx. cbn. rewrite Hdr. cbn.
    by rewrite (forward_logits _ _ _ _ _ Hres).
  - intros Hwf Hready Hlabels Hview.
    destruct (forward_loss_spec self input_ids descriptors labels)
      as (out & Hout & _); [done..|]. by exists out.
Qed.

Lemma labels_do_not_change_logits_witness :
  (forall out,
     forward tiny_model tiny_ids tiny_desc (Some tiny_labels) = Ok out ->
     forward tiny_model tiny_ids tiny_desc None
     = Ok {| loss := None; logits := logits out |}) /\
  (exists out, forward tiny_model tiny_ids tiny_desc (Some tiny_labels) = Ok out).
Proof.
  split.
  - apply (proj1 (labels_do_not_change_logits tiny_model tiny_ids tiny_desc
                    tiny_labels)).
  - apply (proj2 (labels_do_not_change_logits tiny_model tiny_ids tiny_desc
                    tiny_labels)); shapes.
Defined.

(** ** The exceptions of [forward], in order *)

(** The forward pass fails in the order of its steps.  A token id outside
    the vocabulary, or a sequence longer than the position table, raises an
    IndexError whatever the descriptors are; otherwise descriptors of
    another size than the configured one raise the assertion; otherwise a
    descriptor batch of another batch size raises a RuntimeError when the
    two segments are concatenated. *)
Theorem forward_exceptions (self : MolGPTModel) (input_ids : Tensor2 Z)
    (descriptors : Tensor2 R) (labels : option (Tensor2 Z)) :
  wf_model self -> wf2 input_ids -> wf2 descriptors ->
  let ok := valid_ids self input_ids /\
            (t2_size0 input_ids = 0 \/
             t2_size1 input_ids <= max_position_embeddings (config self)) in
  (~ ok -> forward self input_ids descriptors labels = Raise IndexError) /\
  (ok -> t2_size1 descriptors <> desc_size (config self) ->
   exists msg,
     forward self input_ids descriptors labels = Raise (AssertionError msg)) /\
  (ok -> t2_size1 descriptors = desc_size (config self) ->
   t2_size0 input_ids <> t2_size0 descriptors ->
   forward self input_ids descriptors labels = Raise RuntimeError).
Proof.
  intros Hwf Hids Hdesc ok. split; [|split].
  - intros Hnok. by apply forward_ids_Raise.
  - intros [Hvalid Hpos] HD. by apply forward_desc_size_Raise.
  - intros [Hvalid Hpos] HD HB. by apply forward_batch_Raise.
Qed.

Lemma forward_exceptions_witness :
  forward tiny_model bad_token_ids long_desc None = Raise IndexError /\
  (exists msg,
     forward tiny_model tiny_ids long_desc None = Raise (AssertionError msg)) /\
  forward tiny_model tiny_ids two_desc None = Raise RuntimeError /\
  forward single_descriptor_model tiny_ids two_single_desc None
  = Raise RuntimeError.
Proof.
  split_and!.
  - apply (proj1 (forward_exceptions tiny_model bad_token_ids long_desc None
                    ltac:(shapes) ltac:(shapes) ltac:(shapes))).
    intros [Hv _]. unfold valid_ids in Hv. cbn in Hv.
    apply Forall_cons in Hv as [Hv _].
    apply Forall_cons in Hv as [_ Hv].
    apply Forall_cons in Hv as [Hv _]. lia.
  - apply (proj1 (proj2 (forward_exceptions tiny_model tiny_ids long_desc None
                           ltac:(shapes) ltac:(shapes) ltac:(shapes))));
      [shapes|cbn; lia].
  - apply (proj2 (proj2 (forward_exceptions tiny_model tiny_ids two_desc None
                           ltac:(shapes) ltac:(shapes) ltac:(shapes))));
      [shapes|reflexivity|cbn; lia].
  - apply (proj2 (proj2 (forward_exceptions single_descriptor_model tiny_ids
                           two_single_desc None
                           ltac:(shapes) ltac:(shapes) ltac:(shapes))));
      [shapes|reflexivity|cbn; lia].
Defined.

Lemma forward_nan (self : MolGPTModel) (input_ids : Tensor2 Z)
    (descriptors : Tensor2 R) :
  wf_model self -> wf2 input_ids -> wf2 descriptors ->
  valid_ids self input_ids ->
  t2_size1 input_ids <= max_position_embeddings (config self) ->
  t2_size1 descriptors = desc_size (config self) ->
  desc_size (config self) = 1 ->
  t2_size0 input_ids = t2_size0 descriptors -> 0 < t2_size0 descriptors ->
  forward self input_ids descriptors None = NotANumber.
Proof.
  intros Hwf Hids Hdesc Hvalid Hpos HD Hone HB HB0.
  destruct (forward_shapes_returns self input_ids descriptors Hwf Hids Hdesc)
    as [[out Hout]|Hnan]; [by split_and!; [| | |right]| |done].
  exfalso.
  destruct (forward_Ok_ready _ _ _ _ _ Hwf Hids Hdesc Hout)
    as (_ & _ & _ & _ & _ & _ & [H0|H1]); [lia|done].
Qed.



(** ** Flattening the token logits *)

(** With labels, the forward pass cannot compute a loss for a batch of two
    or more examples with two or more token positions each, in a model with
    descriptors: the token logits are a slice of the logits of the whole
    sequence, which [view] cannot flatten, and the call raises a
    RuntimeError whatever the labels are. *)
Theorem forward_labels_view_error (self : MolGPTModel)
    (input_ids : Tensor2 Z) (descriptors : Tensor2 R) (labels : Tensor2 Z) :
  wf_model self -> wf2 input_ids -> wf2 descriptors ->
  shapes_ready self input_ids descriptors ->
  2 <= t2_size0 input_ids -> 2 <= t2_size1 input_ids ->
  desc_size (config self) <> 0 ->
  forward self input_ids descriptors (Some labels) = Raise RuntimeError.
Proof.
  intros Hwf Hids Hdesc (HB & HD & Hvalid & Hpos) HB2 HT2 HD0.
  rewrite forward_unfold.
  destruct (forward_segments self input_ids descriptors)
    as (tok & ds & -> & Hds & Ht0 & Ht1 & Hs0 & Hs1 & Hs2); [done..|].
  cbn. rewrite Hds. cbn. unfold cat1_3.
  rewrite decide_True by (cbn; split; congruence). cbn.
  unfold view_rows. cbn.
  destruct (decide (out_features (lm_head self) = 0)); [done|].
  rewrite decide_True; [done|]. split; [lia|]. split; [lia|congruence].
Qed.

Lemma forward_labels_view_error_witness :
  forward tiny_model two_ids two_desc (Some two_labels) = Raise RuntimeError.
Proof.
  apply (forward_labels_view_error tiny_model two_ids two_desc two_labels);
    shapes.
Defined.

(** ** The loss *)

Lemma ln_sum_exp_ge (row : vec) (k : nat) (zy : R) :
  row !! k = Some zy -> (zy <= ln (Rsum (exp <$> row)))%R.
Proof.
  intros Hk. rewrite <- (ln_exp zy) at 1.
  assert (exp zy <= Rsum (exp <$> row))%R as [Hlt | ->].
  { apply (Rsum_ge_elem _ k).
    - apply Forall_fmap, Forall_forall. intros x _. cbn. left. apply exp_pos.
    - by rewrite list_lookup_fmap, Hk. }
  - left. apply ln_increasing; [apply exp_pos|done].
  - apply Rle_refl.
Qed.

Lemma nll_term_nonneg (pad : Z) (p : vec * Z) (t : R * nat) :
  nll_term pad p = Ok t -> (0 <= t.1)%R.
Proof.
  destruct p as [row y]. unfold nll_term.
  destruct (decide (y = pad)); [intros [= <-]; cbn; lra|].
  destruct (Z.leb_spec 0 y); [|done].
  destruct (row !! Z.to_nat y) as [zy|] eqn:Hzy; [|done].
  intros [= <-]. cbn. pose proof (ln_sum_exp_ge row _ zy Hzy). lra.
Qed.

Lemma CrossEntropyLoss_nonneg (pad : Z) (rows : list vec) (labels : list Z)
    (r : R) :
  CrossEntropyLoss pad rows labels = Ok (Real r) -> (0 <= r)%R.
Proof.
  unfold CrossEntropyLoss.
  destruct (decide (length rows = length labels)); [|done].
  intros (terms & Hterms & Hr)%bind_Ok.
  destruct (decide (sum_list terms.*2 = 0)) as [|Hcount]; [done|].
  injection Hr as <-.
  assert (0 <= Rsum terms.*1)%R as Htotal.
  { apply Rsum_nonneg, Forall_fmap. apply mapM_Ok in Hterms.
    apply Forall_forall. intros t Ht.
    apply list_elem_of_lookup in Ht as [i Hi].
    destruct (Forall2_lookup_r _ _ _ _ _ Hterms Hi) as (p & _ & Hp).
    by apply (nll_term_nonneg pad p). }
  apply Rmult_le_pos; [done|]. left. apply Rinv_0_lt_compat.
  apply lt_0_INR. lia.
Qed.

Lemma forward_loss_nonneg (self : MolGPTModel) (input_ids : Tensor2 Z)
    (descriptors : Tensor2 R) (labels : Tensor2 Z) (out : CausalLMOutput)
    (r : R) :
  forward self input_ids descriptors (Some labels) = Ok out ->
  loss out = Some (Real r) -> (0 <= r)%R.
Proof.
  intros (tok & ds & dr & _ & _ & _ & _ & Hres)%forward_Ok.
  cbn in Hres. apply bind_Ok in Hres as (input & _ & Hres).
  apply bind_Ok in Hres as (l & Hl & [= <-]). cbn.
  intros [= ->]. by eapply CrossEntropyLoss_nonneg.
Qed.

Lemma masked_mean_ce_real (pad : Z) (rows : list vec) (labels : list Z)
    (y : Z) :
  length rows = length labels -> y ∈ labels -> y <> pad ->
  exists r, masked_mean_ce pad rows labels = Real r.
Proof.
  intros Hlen [i Hi]%list_elem_of_lookup Hy.
  destruct (lookup_lt_is_Some_2 rows i) as [row Hrow].
  { apply lookup_lt_Some in Hi. lia. }
  assert ((row, y) ∈ filter (fun p : vec * Z => p.2 <> pad) (zip rows labels))
    as Hin.
  { apply list_elem_of_filter. split; [done|].
    apply list_elem_of_lookup. exists i.
    by rewrite lookup_zip_with, Hrow, Hi. }
  unfold masked_mean_ce.
  destruct (filter _ (zip rows labels)) as [|p kept];
    [by apply elem_of_nil in Hin|by eexists].
Qed.

Lemma forward_loss_real (self : MolGPTModel) (input_ids : Tensor2 Z)
    (descriptors : Tensor2 R) (labels : Tensor2 Z) (out : CausalLMOutput)
    (y : Z) :
  forward self input_ids descriptors (Some labels) = Ok out ->
  y ∈ concat (t2_data labels) -> y <> padding_idx (config self) ->
  exists r, loss out = Some (Real r).
Proof.
  intros Hout Hy Hne. pose proof (forward_loss_Ok _ _ _ _ _ Hout) as Hloss.
  pose proof Hout as (tok & ds & dr & _ & _ & _ & _ & Hres)%forward_Ok.
  cbn in Hres.
  apply bind_Ok in Hres as (input & (_ & _ & ->)%view_rows_Ok & Hres).
  apply bind_Ok in Hres as (l & Hl & [= Hlg]).
  assert (length (concat (t3_data (logits out)))
          = length (concat (t2_data labels))) as Hlen.
  { rewrite <- Hlg. cbn. unfold CrossEntropyLoss in Hl.
    by destruct (decide (length _ = length _)). }
  destruct (masked_mean_ce_real (padding_idx (config self)) _ _ y Hlen Hy Hne)
    as [r Hr].
  exists r. by rewrite Hloss, Hr.
Qed.

(** A loss that the forward pass returns is never negative.  The forward
    pass returns with labels on ready inputs whose token logits [view] can
    flatten. *)
Theorem loss_nonnegative (self : MolGPTModel) (input_ids : Tensor2 Z)
    (descriptors : Tensor2 R) (labels : Tensor2 Z) :
  (forall out r,
     forward self input_ids descriptors (Some labels) = Ok out ->
     loss out = Some (Real r) -> (0 <= r)%R) /\
  (wf_model self -> forward_ready self input_ids descriptors ->
   labels_ready self input_ids labels -> view_ready self input_ids ->
   exists out, forward self input_ids descriptors (Some labels) = Ok out).
Proof.
  split; [intros out r; apply forward_loss_nonneg|].
  intros Hwf Hready Hlabels Hview.
  destruct (forward_loss_spec self input_ids descriptors labels)
    as (out & Hout & _); [done..|]. by exists out.
Qed.

Lemma loss_nonnegative_witness :
  exists out r,
    forward tiny_model tiny_ids tiny_desc (Some tiny_labels) = Ok out /\
    loss out = Some (Real r) /\ (0 <= r)%R.
Proof.
  destruct (proj2 (loss_nonnegative tiny_model tiny_ids tiny_desc tiny_labels))
    as [out Hout]; [shapes..|].
  destruct (forward_loss_real tiny_model tiny_ids tiny_desc tiny_labels out 2%Z
              Hout) as [r Hr]; [cbn; constructor|cbn; lia|].
  exists out, r. split; [exact Hout|]. split; [exact Hr|].
  exact (proj1 (loss_nonnegative tiny_model tiny_ids tiny_desc tiny_labels)
           out r Hout Hr).
Defined.

Lemma mapM_fmap_ext {A A' B} (f : A -> outcome B) (g : A' -> outcome B)
    (l : list A) (l' : list A') :
  f <$> l = g <$> l' -> mapM f l = mapM g l'.
Proof.
  revert l'. induction l as [|x l IH]; intros [|x' l'] Heq; try done.
  cbn in Heq. injection Heq as Hx Hl. cbn. by rewrite Hx, (IH l' Hl).
Qed.

(** The scores at a position whose label is the padding index have no
    influence on the loss: two inputs of the same number of rows that agree
    at every position with another label have the same loss, or fail
    alike. *)
Theorem loss_ignores_padding_logits (pad : Z) (rows rows' : list vec)
    (labels : list Z) :
  length rows = length rows' ->
  (forall i y, labels !! i = Some y -> y <> pad -> rows !! i = rows' !! i) ->
  CrossEntropyLoss pad rows labels = CrossEntropyLoss pad rows' labels.
Proof.
  intros Hlen Hagree. unfold CrossEntropyLoss. rewrite <- Hlen.
  destruct (decide (length rows = length labels)); [|done].
  rewrite (mapM_fmap_ext (nll_term pad) (nll_term pad)
             (zip rows labels) (zip rows' labels)); [done|].
  apply list_eq. intros i. rewrite !list_lookup_fmap, !lookup_zip_with.
  destruct (labels !! i) as [y|] eqn:Hy.
  - destruct (decide (y = pad)) as [->|Hne].
    + destruct (rows !! i) as [x|] eqn:Hx; destruct (rows' !! i) as [x'|] eqn:Hx';
        cbn; try done.
      * unfold nll_term. by rewrite !decide_True.
      * apply lookup_lt_Some in Hx. apply lookup_ge_None in Hx'. lia.
      * apply lookup_lt_Some in Hx'. apply lookup_ge_None in Hx. lia.
    + by rewrite (Hagree i y Hy Hne).
  - by destruct (rows !! i), (rows' !! i).
Qed.

Lemma loss_ignores_padding_logits_witness :
  CrossEntropyLoss 0 [[1; 2]; [3; 4]]%R [1; 0]%Z
  = CrossEntropyLoss 0 [[1; 2]; [7; 9]]%R [1; 0]%Z.
Proof.
  apply (loss_ignores_padding_logits 0 [[1; 2]; [3; 4]]%R [[1; 2]; [7; 9]]%R
           [1; 0]%Z); [reflexivity|].
  intros [|[|i]] y [= <-] Hy; [reflexivity|lia].
Defined.

(** ** The descriptor encoder of the first draft *)

Lemma LayerNorm_forward_single (ln : LayerNorm) (x : R) :
  LayerNorm_forward ln [x] = LayerNorm_forward ln [0%R].
Proof.
  unfold LayerNorm_forward. cbn.
  assert (forall a s, ((a - (a + 0) / 1) / s)%R = 0%R) as Hzero.
  { intros a s. unfold Rdiv. rewrite Rinv_1. ring. }
  by rewrite !Hzero.
Qed.

Lemma scale_norm_rows (ln : LayerNorm) (desc : Tensor2 R) :
  wf2 desc ->
  (fun row : list R => (fun x => LayerNorm_forward ln [x]) <$> row)
    <$> t2_data desc
  = replicate (t2_size0 desc)
      (replicate (t2_size1 desc) (LayerNorm_forward ln [0%R])).
Proof.
  destruct desc as [B D data]. intros [H0 H1].
  cbn [t2_data t2_size0 t2_size1] in H0, H1 |- *.
  subst B. induction H1 as [|row rows Hrow _ IH]; [done|].
  rewrite fmap_cons, IH. cbn [length replicate]. f_equal. rewrite <- Hrow.
  apply const_fmap. intros i x _. apply LayerNorm_forward_single.
Qed.

(** The descriptor encoder of the first draft discards the values of the
    descriptors: [nn.LayerNorm(1)] normalizes every entry on its own, to 0
    before the affine map, so that two descriptor batches of the same shape
    are encoded alike. *)
Theorem draft1_encoder_ignores_values (self : DescriptorEncoder1)
    (desc desc' : Tensor2 R) :
  wf2 desc -> wf2 desc' ->
  t2_size0 desc = t2_size0 desc' -> t2_size1 desc = t2_size1 desc' ->
  DescriptorEncoder1_forward self desc = DescriptorEncoder1_forward self desc'.
Proof.
  intros Hwf Hwf' H0 H1. unfold DescriptorEncoder1_forward.
  rewrite (scale_norm_rows _ desc Hwf), (scale_norm_rows _ desc' Hwf').
  by rewrite H0, H1.
Qed.

Lemma draft1_encoder_ignores_values_witness :
  DescriptorEncoder1_forward tiny_encoder1 tiny_desc
  = DescriptorEncoder1_forward tiny_encoder1 two_values.
Proof.
  apply (draft1_encoder_ignores_values tiny_encoder1 tiny_desc two_values);
    shapes.
Defined.

(** ** Greedy generation: further properties *)

(** A prompt without tokens cannot be continued: the forward pass returns
    logits for no position, and [outputs.logits[:, -1, :]] raises an
    IndexError in the first iteration. *)
Theorem generate_empty_prompt (self : MolGPTModel) (input_ids : Tensor2 Z)
    (descriptors : Tensor2 R) (max_length : Z) :
  wf_model self -> forward_ready self input_ids descriptors ->
  t2_size1 input_ids = 0 -> (0 < max_length)%Z ->
  generate self input_ids descriptors max_length = Raise IndexError.
Proof.
  intros Hwf Hready HT Hmax. unfold generate.
  destruct (Z.to_nat max_length) as [|n] eqn:Hn; [lia|].
  destruct (forward_total self input_ids descriptors Hwf Hready)
    as (out & Hout & _ & _ & Hs1 & _).
  cbn [generate_loop]. unfold next_token. rewrite Hout. cbn.
  by rewrite decide_True by lia.
Qed.

Lemma generate_empty_prompt_witness :
  generate tiny_model empty_prompt tiny_desc 5 = Raise IndexError.
Proof.
  apply (generate_empty_prompt tiny_model empty_prompt tiny_desc 5);
    [shapes..|reflexivity|lia].
Defined.

Lemma generate_loop_valid (self : MolGPTModel) (descriptors : Tensor2 R)
    (n : nat) (g : Tensor2 Z) :
  wf_model self -> generate_ready self g descriptors n ->
  exists out,
    generate_loop self descriptors n g = Ok out /\
    wf2 out /\ valid_ids self out /\ t2_size0 out = t2_size0 g /\
    t2_size1 g <= t2_size1 out <= t2_size1 g + n.
Proof.
  intros Hwf. revert g. induction n as [|n IH]; intros g Hready.
  { exists g. cbn. destruct Hready as (? & _ & _ & _ & ? & _).
    split; [done|]. split; [done|]. split; [done|]. split; [done|]. lia. }
  destruct (next_token_total self g descriptors n Hwf Hready)
    as (next & Hnext & Hnwf & Hn0 & Hn1 & Hnv).
  pose proof Hready as (Hg & Hd & HB & HD & Hv & Hnan & HV & HT & Hpos).
  destruct (cat1_2_column self g next Hg Hnwf Hn0 Hn1 Hv Hnv)
    as (g' & Hcat & Hg'wf & Hg'v & Hg'0 & Hg'1 & _).
  cbn [generate_loop]. rewrite Hnext. cbn. rewrite Hcat. cbn.
  destruct (all_padding self next).
  - exists g'. split; [done|]. split; [done|]. split; [done|].
    split; [done|]. lia.
  - destruct (IH g') as (out & Hloop & Howf & Hov & Ho0 & Ho1).
    { split; [done|]. split; [done|]. split; [congruence|]. split; [done|].
      split; [done|]. split; [|split; [done|split; lia]].
      destruct Hnan as [?|?]; [left; congruence|by right]. }
    exists out. split; [done|]. split; [done|]. split; [done|].
    split; [congruence|]. lia.
Qed.

(** On ready inputs [generate] returns a rectangular batch of one sequence
    for each prompt, between the length of the prompt and [max_length] more,
    and every id in it, generated ones included, is an id of the
    vocabulary. *)
Theorem generate_output_valid (self : MolGPTModel) (input_ids : Tensor2 Z)
    (descriptors : Tensor2 R) (max_length : Z) :
  wf_model self ->
  generate_ready self input_ids descriptors (Z.to_nat max_length) ->
  exists out,
    generate self input_ids descriptors max_length = Ok out /\
    wf2 out /\ valid_ids self out /\
    t2_size0 out = t2_size0 input_ids /\
    t2_size1 input_ids <= t2_size1 out
      <= t2_size1 input_ids + Z.to_nat max_length.
Proof. intros Hwf Hready. by apply generate_loop_valid. Qed.

Lemma generate_output_valid_witness :
  exists out,
    generate tiny_model tiny_ids tiny_desc 2 = Ok out /\
    wf2 out /\ valid_ids tiny_model out /\
    t2_size0 out = t2_size0 tiny_ids /\
    t2_size1 tiny_ids <= t2_size1 out <= t2_size1 tiny_ids + Z.to_nat 2.
Proof.
  apply (generate_output_valid tiny_model tiny_ids tiny_desc 2); shapes.
Defined.

Lemma argmax_from_spec (l pre : vec) (best_i : nat) (best : R) :
  pre !! best_i = Some best ->
  (forall x, x ∈ pre -> (x <= best)%R) ->
  (forall j x, j < best_i -> pre !! j = Some x -> (x < best)%R) ->
  exists m,
    (pre ++ l) !! argmax_from best_i best (length pre) l = Some m /\
    (forall x, x ∈ pre ++ l -> (x <= m)%R) /\
    (forall j x, j < argmax_from best_i best (length pre) l ->
                 (pre ++ l) !! j = Some x -> (x < m)%R).
Proof.
  revert pre best_i best.
  induction l as [|x l IH]; intros pre best_i best Hbest Hmax Hfirst.
  { cbn. rewrite app_nil_r. by exists best. }
  cbn [argmax_from].
  replace (pre ++ x :: l) with ((pre ++ [x]) ++ l) by by rewrite <- app_assoc.
  replace (S (length pre)) with (length (pre ++ [x]))
    by (rewrite length_app; cbn; lia).
  destruct (Rlt_dec best x) as [Hlt|Hge].
  - apply IH.
    + by rewrite lookup_app_r, Nat.sub_diag.
    + intros y [Hy|Hy]%elem_of_app.
      * specialize (Hmax y Hy). lra.
      * apply list_elem_of_singleton in Hy as ->. lra.
    + intros j y Hj Hy. rewrite lookup_app_l in Hy by done.
      apply list_elem_of_lookup_2, Hmax in Hy. lra.
  - apply IH.
    + apply lookup_lt_Some in Hbest as Hlen.
      by rewrite lookup_app_l.
    + intros y [Hy|Hy]%elem_of_app; [by apply Hmax|].
      apply list_elem_of_singleton in Hy as ->. lra.
    + intros j y Hj Hy. apply lookup_lt_Some in Hbest as Hlen.
      rewrite lookup_app_l in Hy by lia. by apply (Hfirst j).
Qed.

Lemma argmax_spec (l : vec) :
  0 < length l ->
  exists m,
    l !! argmax l = Some m /\
    (forall x, x ∈ l -> (x <= m)%R) /\
    (forall j x, j < argmax l -> l !! j = Some x -> (x < m)%R).
Proof.
  destruct l as [|x l]; cbn [length]; [lia|]. intros _.
  apply (argmax_from_spec l [x] 0 x); [done| |intros; lia].
  intros y Hy. apply list_elem_of_singleton in Hy as ->. lra.
Qed.

(** Generation is greedy: on ready inputs the token that an iteration
    appends to an example is the index of the largest logit at the last
    position of that example, the first such index when several logits are
    the largest. *)
Theorem next_token_greedy (self : MolGPTModel) (generated : Tensor2 Z)
    (descriptors : Tensor2 R) :
  wf_model self -> generate_ready self generated descriptors 1 ->
  exists out next,
    forward self generated descriptors None = Ok out /\
    next_token self generated descriptors = Ok next /\
    forall b ex, t3_data (logits out) !! b = Some ex ->
      exists row k m,
        last ex = Some row /\ t2_data next !! b = Some [Z.of_nat k] /\
        row !! k = Some m /\
        (forall x, x ∈ row -> (x <= m)%R) /\
        (forall j x, j < k -> row !! j = Some x -> (x < m)%R).
Proof.
  intros Hwf Hready.
  destruct (forward_total self generated descriptors Hwf
              (generate_ready_forward _ _ _ _ Hready))
    as (out & Hout & [Hl0 Hl1] & Hs0 & Hs1 & Hs2).
  destruct Hready as (_ & _ & _ & _ & _ & _ & HV & HT & _).
  exists out. eexists. split; [done|]. split.
  { unfold next_token. rewrite Hout. cbn.
    rewrite decide_False by lia. by rewrite decide_False by lia. }
  intros b ex Hex. cbn. rewrite list_lookup_fmap, Hex. cbn.
  pose proof (proj1 (Forall_lookup _ _) Hl1 b ex Hex) as [Hlen Hrows].
  destruct (last ex) as [row|] eqn:Hlast.
  - cbn. apply last_Some_elem_of in Hlast as Hin.
    pose proof (proj1 (Forall_forall _ _) Hrows row Hin) as Hrow.
    cbn beta in Hrow.
    destruct (argmax_spec row) as (m & Hm & Hmax & Hfirst); [lia|].
    by exists row, (argmax row), m.
  - apply last_None in Hlast. subst ex. cbn in Hlen. lia.
Qed.

Lemma next_token_greedy_witness :
  exists out next,
    forward tiny_model tiny_ids tiny_desc None = Ok out /\
    next_token tiny_model tiny_ids tiny_desc = Ok next /\
    forall b ex, t3_data (logits out) !! b = Some ex ->
      exists row k m,
        last ex = Some row /\ t2_data next !! b = Some [Z.of_nat k] /\
        row !! k = Some m /\
        (forall x, x ∈ row -> (x <= m)%R) /\
        (forall j x, j < k -> row !! j = Some x -> (x < m)%R).
Proof.
  apply (next_token_greedy tiny_model tiny_ids tiny_desc); shapes.
Defined.

Lemma append_column (rows : list (list Z)) (y : Z) :
  zip_with app rows (replicate (length rows) [y])
  = (fun row => row ++ [y]) <$> rows.
Proof. induction rows as [|row rows IH]; [done|]. cbn. by rewrite IH. Qed.

(** Generation on NaN logits.  In a model with a single descriptor, whose
    logits are NaN, the arg-max of every row is the index 0: an iteration
    of [generate] appends the token 0 to every example, and with the
    padding index 0 the loop stops after its first iteration. *)
Theorem generate_single_descriptor (self : MolGPTModel)
    (input_ids : Tensor2 Z) (descriptors : Tensor2 R) (max_length : Z) :
  wf_model self -> wf2 input_ids -> wf2 descriptors ->
  valid_ids self input_ids ->
  1 <= t2_size1 input_ids <= max_position_embeddings (config self) ->
  t2_size1 descriptors = desc_size (config self) ->
  desc_size (config self) = 1 ->
  t2_size0 input_ids = t2_size0 descriptors -> 0 < t2_size0 descriptors ->
  0 < vocab_size (config self) -> 1 <= n_layers (config self) ->
  (0 < max_length)%Z -> padding_idx (config self) = 0%Z ->
  generate self input_ids descriptors max_length
  = Ok (T2 (t2_size0 input_ids) (t2_size1 input_ids + 1)
           ((fun row => row ++ [0%Z]) <$> t2_data input_ids)).
Proof.
  intros Hwf Hids Hdesc Hvalid [HT1 Hpos] HD Hone HB HB0 HV _ Hmax Hpad.
  unfold generate. destruct (Z.to_nat max_length) as [|n] eqn:Hn; [lia|].
  cbn [generate_loop]. unfold next_token.
  rewrite (forward_nan self input_ids descriptors) by done.
  rewrite decide_False by lia.
  destruct Hwf as (_ & _ & _ & (_ & Hout) & _).
  rewrite decide_False by lia. cbn [mbind outcome_bind].
  unfold cat1_2. cbn [t2_size0 t2_size1 t2_data].
  rewrite decide_True by done. cbn [mbind outcome_bind].
  assert (all_padding self
            (T2 (t2_size0 input_ids) 1 (replicate (t2_size0 input_ids) [0%Z]))
          = true) as ->.
  { apply all_padding_spec. cbn. apply Forall_forall.
    intros row [-> _]%elem_of_replicate. by constructor. }
  destruct Hids as [Hlen _]. by rewrite <- append_column, Hlen.
Qed.

Lemma generate_single_descriptor_witness :
  generate single_descriptor_model (T2 1 3 [[1; 2; 1]]%Z) single_desc 5
  = Ok (T2 1 4 [[1; 2; 1; 0]]%Z).
Proof.
  apply (generate_single_descriptor single_descriptor_model
           (T2 1 3 [[1; 2; 1]]%Z) single_desc 5); shapes.
Defined.

End ModelMore.
